(** * openedai-vision: prompt compilation and streaming, verified against the code

    A shallow embedding of [vision_qna.py] and [backend/qwen2_5_vl.py]:
    the pydantic message model, [repack_message_content], [url_to_image],
    the per-family [*_prompt_from_messages] functions, the dispatcher
    [prompt_from_messages], the streaming relay
    [threaded_streaming_generator] and the Qwen2.5-VL adapter loop.

    Python exceptions are values of [exn]; a call that may raise returns a
    [result].  The [messages] list handed to a format function is a mutable
    Python list: every format function returns, next to its result, the
    contents of that very list object after the call.  A [str] is the
    string of its UTF-8 bytes.  The external calls ([requests], [datauri],
    [PIL]) are parameters of the development; the model's [generate] is
    known by the fragments it puts on the streamer and by how it ends. *)

From Stdlib Require Import ZArith Ascii String.
From stdpp Require Import base tactics option list strings gmap.

Local Open Scope string_scope.
Local Open Scope list_scope.
Local Open Scope Z_scope.
Local Open Scope nat_scope.

(* stdpp keeps [simpl] away from string concatenation; the proofs below
   compute with it. *)
#[local] Arguments String.append !_ _ / : simpl nomatch.

(** ** Exceptions and results *)

Inductive exn : Type :=
| AttributeError            (* attribute access on None or on a str *)
| IndexError                (* content[0] of an empty sequence *)
| TypeError                 (* str + None, None += str, joining a None *)
| UnboundLocalError         (* a local read before any assignment *)
| ValueError (msg : string)
| ExternalError (msg : string). (* raised inside requests, datauri or PIL *)

Inductive result (A : Type) : Type :=
| Ok (a : A)
| Raise (e : exn).
Arguments Ok {A} a.
Arguments Raise {A} e.

#[global] Instance result_ret : MRet result := @Ok.
#[global] Instance result_bind : MBind result :=
  λ A B f r, match r with Ok a => f a | Raise e => Raise e end.
#[global] Instance result_fmap : FMap result :=
  λ A B f r, match r with Ok a => Ok (f a) | Raise e => Raise e end.

Definition is_ok {A} (r : result A) : bool :=
  match r with Ok _ => true | Raise _ => false end.

(** [for x in l: st = body(x, st)], stopping at the first exception. *)
Fixpoint for_each {A S : Type} (l : list A) (st : S) (body : A → S → result S)
  : result S :=
  match l with
  | [] => Ok st
  | x :: l' => st' ← body x st; for_each l' st' body
  end.

(** ** Python string primitives *)

(** [s.startswith(p)] *)
Definition startswith (s p : string) : bool := String.prefix p s.

(** [s.endswith(p)] *)
Fixpoint endswith (s p : string) : bool :=
  String.eqb s p
  || match s with
     | String _ s' => endswith s' p
     | EmptyString => false
     end.

(** [s.find(sub)]: index of the first occurrence, [-1] when there is none. *)
Definition find (s sub : string) : Z :=
  match String.index 0 sub s with
  | Some i => Z.of_nat i
  | None => (-1)%Z
  end.

(** [sub in s] *)
Definition contains (s sub : string) : bool :=
  negb (find s sub =? -1)%Z.

(** [s[:stop]], with Python's reading of a negative [stop]. *)
Definition slice_to (s : string) (stop : Z) : string :=
  if (0 <=? stop)%Z then String.substring 0 (Z.to_nat stop) s
  else String.substring 0 (String.length s - Z.to_nat (- stop)) s.

(** The white space [str.strip] removes, as UTF-8 bytes: the one-byte
    codes 9-13 and 28-32; U+0085 and U+00A0 (two bytes, C2 85 and C2 A0);
    U+1680 (E1 9A 80), U+2000 to U+200A, U+2028, U+2029, U+202F
    (E2 80 80-8A, A8, A9, AF), U+205F (E2 81 9F) and U+3000 (E3 80 80). *)
Definition isspace (a : ascii) : bool :=
  let n := nat_of_ascii a in
  ((9 <=? n) && (n <=? 13)) || ((28 <=? n) && (n <=? 32)).

Definition isspace2 (a b : ascii) : bool :=
  let n := nat_of_ascii a in
  let m := nat_of_ascii b in
  (n =? 194) && ((m =? 133) || (m =? 160)).

Definition isspace3 (a b c : ascii) : bool :=
  let n := nat_of_ascii a in
  let m := nat_of_ascii b in
  let k := nat_of_ascii c in
  ((n =? 225) && (m =? 154) && (k =? 128))
  || ((n =? 226) && (m =? 128)
      && (((128 <=? k) && (k <=? 138)) || (k =? 168) || (k =? 169)
          || (k =? 175)))
  || ((n =? 226) && (m =? 129) && (k =? 159))
  || ((n =? 227) && (m =? 128) && (k =? 128)).

(** [s.lstrip()] *)
Fixpoint lstrip (s : string) : string :=
  match s with
  | String a s1 =>
      if isspace a then lstrip s1
      else
        match s1 with
        | String b s2 =>
            if isspace2 a b then lstrip s2
            else
              match s2 with
              | String c s3 => if isspace3 a b c then lstrip s3 else s
              | EmptyString => s
              end
        | EmptyString => s
        end
  | EmptyString => EmptyString
  end.

(** [s.rstrip()] on the reversed string: the bytes of a character come
    last byte first. *)
Fixpoint rstrip_reversed (r : string) : string :=
  match r with
  | String c r1 =>
      if isspace c then rstrip_reversed r1
      else
        match r1 with
        | String b r2 =>
            if isspace2 b c then rstrip_reversed r2
            else
              match r2 with
              | String a r3 =>
                  if isspace3 a b c then rstrip_reversed r3 else r
              | EmptyString => r
              end
        | EmptyString => r
        end
  | EmptyString => EmptyString
  end.

(** [s.strip()] *)
Definition strip (s : string) : string :=
  String.rev (rstrip_reversed (String.rev (lstrip s))).

(** Strings joined on the empty string. *)
Definition concat_strings (l : list string) : string :=
  foldr String.append "" l.

(** How an f-string renders [{x}] when [x] is [Optional[str]]. *)
Definition fstr (x : option string) : string :=
  match x with
  | Some s => s
  | None => "None"
  end.

(** [acc += x] on a [str] accumulator, [x] being [Optional[str]]. *)
Definition str_iadd (acc : string) (x : option string) : result string :=
  match x with
  | Some s => Ok (acc +:+ s)
  | None => Raise TypeError
  end.

(** ** The message model (pydantic classes) *)

Record ImageURL := {
  url : string;
  detail : option string;   (* default "auto" *)
}.

(** [Literal["text", "image_url"]] *)
Inductive ContentType := Ty_text | Ty_image_url.

Record Content := {
  type : ContentType;
  text : option string;         (* default None *)
  image_url : option ImageURL;  (* default None *)
}.

(** [Union[str, List[Content]]] *)
Inductive MessageContent :=
| CStr (s : string)
| CList (l : list Content).

Record Message := {
  role : string;
  content : MessageContent;
  name : option string;
}.

#[global] Instance ContentType_eq_dec : EqDecision ContentType.
Proof. solve_decision. Defined.
#[global] Instance ImageURL_eq_dec : EqDecision ImageURL.
Proof. solve_decision. Defined.
#[global] Instance Content_eq_dec : EqDecision Content.
Proof. solve_decision. Defined.
#[global] Instance MessageContent_eq_dec : EqDecision MessageContent.
Proof. solve_decision. Defined.
#[global] Instance Message_eq_dec : EqDecision Message.
Proof. solve_decision. Defined.

(** [Content(type='text', text=s)] *)
Definition Text (s : string) : Content :=
  {| type := Ty_text; text := Some s; image_url := None |}.

(** [Content(type='image_url', image_url=ImageURL(url=u))] *)
Definition ImageRef (u : string) : Content :=
  {| type := Ty_image_url; text := None;
     image_url := Some {| url := u; detail := Some "auto" |} |}.

(** [c.image_url.url] *)
Definition image_url_url (c : Content) : result string :=
  match image_url c with
  | Some iu => Ok (url iu)
  | None => Raise AttributeError
  end.

(** [for c in m.content: ...] where the body starts by reading [c.type].
    Iterating a bare [str] yields one-character strings, which have no
    [type] attribute; an empty [str] yields nothing. *)
Definition for_content {S : Type} (cnt : MessageContent) (st : S)
    (body : Content → S → result S) : result S :=
  match cnt with
  | CList l => for_each l st body
  | CStr EmptyString => Ok st
  | CStr (String _ _) => Raise AttributeError
  end.

(** [m.content[0].text] *)
Definition content0_text (m : Message) : result (option string) :=
  match content m with
  | CList (c :: _) => Ok (text c)
  | CList [] => Raise IndexError
  | CStr (String _ _) => Raise AttributeError
  | CStr EmptyString => Raise IndexError
  end.

(** ** Request normalisation *)

Module Req.
(** [ImageChatRequest]; [float] and [dict] stand for Python's. *)
Record ImageChatRequest {float dict : Type} := {
  messages : list Message;
  model : string;
  frequency_penalty : float;
  logit_bias : option dict;
  logprobs : bool;
  top_logprobs : option Z;
  max_tokens : Z;
  max_completion_tokens : Z;
  n : Z;
  presence_penalty : float;
  response_format : option string;
  seed : option Z;
  service_tier : option string;
  stop : option (string + list string);
  stream : bool;
  stream_options : option dict;
  temperature : option float;
  top_p : option float;
  tools : option (list dict);
  tool_choice : option (string + dict);
  parallel_tool_calls : bool;
  user : option string;
  function_call : option (string + dict);
  functions : option (list dict);
}.
Arguments ImageChatRequest : clear implicits.

(** The request with its [messages] field replaced. *)
Definition with_messages {float dict} (r : ImageChatRequest float dict)
    (ms : list Message) : ImageChatRequest float dict :=
  {| messages := ms; model := model r;
     frequency_penalty := frequency_penalty r; logit_bias := logit_bias r;
     logprobs := logprobs r; top_logprobs := top_logprobs r;
     max_tokens := max_tokens r;
     max_completion_tokens := max_completion_tokens r; n := n r;
     presence_penalty := presence_penalty r;
     response_format := response_format r; seed := seed r;
     service_tier := service_tier r; stop := stop r; stream := stream r;
     stream_options := stream_options r; temperature := temperature r;
     top_p := top_p r; tools := tools r; tool_choice := tool_choice r;
     parallel_tool_calls := parallel_tool_calls r; user := user r;
     function_call := function_call r; functions := functions r |}.
End Req.

(** The body of the loop of [repack_message_content]:
    [[
    if isinstance(m.content, str):
        m.content = [ Content(type='text', text=m.content) ]
    ]] *)
Definition repack_message (m : Message) : Message :=
  match content m with
  | CStr s => {| role := role m; content := CList [Text s]; name := name m |}
  | CList _ => m
  end.

Definition repack_message_content {float dict}
    (request : Req.ImageChatRequest float dict)
  : Req.ImageChatRequest float dict :=
  Req.with_messages request (repack_message <$> Req.messages request).

(** ** Streaming: [threaded_streaming_generator]

    The worker thread and the generator body communicate through the
    streamer's text queue and through [exq].  Each queue operation is one
    atomic step; the two threads interleave freely.  The streamer is built
    with [timeout=600]: a [get] that finds the text queue empty waits, and
    when nothing has come after 600 s it raises [queue.Empty], which
    leaves the generator.  Time is not counted here: any wait on an empty
    queue may be the one that runs out. *)

(** What sits in the streamer's queue. *)
Inductive item :=
| Frag (t : string)
| StopSignal.

(** How the call of [generate] ends: it returns, having ended the
    stream itself, or it raises. *)
Inductive ending :=
| Returns
| Raises (e : exn).

(** Where the worker thread is in [wrapper]. *)
Inductive worker :=
| Generating (todo : list string) (fin : ending) (* inside generate *)
| Caught (e : exn)                               (* before exq.put(e) *)
| Ending                                         (* before streamer.end() *)
| Exited.

(** Where the generator body is. *)
Inductive consumer :=
| Iterating          (* for text in streamer *)
| Checking           (* if not exq.empty() *)
| Returned           (* fell off the end: StopIteration *)
| Raised (e : exn)   (* raise exq.get_nowait() *)
| TimedOut.          (* queue.Empty out of next(streamer), after 600 s *)

Record stream_state := {
  st_worker : worker;
  text_queue : list item;
  exq : list exn;
  st_consumer : consumer;
  yielded : list string;
}.

Definition stream_init (fragments : list string) (fin : ending) : stream_state :=
  {| st_worker := Generating fragments fin; text_queue := []; exq := [];
     st_consumer := Iterating; yielded := [] |}.

(** One step of [wrapper]. *)
Definition worker_step (s : stream_state) : option stream_state :=
  match st_worker s with
  | Generating (t :: todo) fin =>
      Some {| st_worker := Generating todo fin;
              text_queue := text_queue s ++ [Frag t]; exq := exq s;
              st_consumer := st_consumer s; yielded := yielded s |}
  | Generating [] Returns =>
      Some {| st_worker := Exited;
              text_queue := text_queue s ++ [StopSignal]; exq := exq s;
              st_consumer := st_consumer s; yielded := yielded s |}
  | Generating [] (Raises e) =>
      Some {| st_worker := Caught e; text_queue := text_queue s; exq := exq s;
              st_consumer := st_consumer s; yielded := yielded s |}
  | Caught e =>
      Some {| st_worker := Ending; text_queue := text_queue s;
              exq := exq s ++ [e];
              st_consumer := st_consumer s; yielded := yielded s |}
  | Ending =>
      Some {| st_worker := Exited;
              text_queue := text_queue s ++ [StopSignal]; exq := exq s;
              st_consumer := st_consumer s; yielded := yielded s |}
  | Exited => None
  end.

(** [if text:] *)
Definition truthy (t : string) : bool :=
  match t with
  | EmptyString => false
  | String _ _ => true
  end.

(** One step of the generator body:
    [[
    for text in streamer:
        if text:
            yield text
    if not exq.empty():
        raise exq.get_nowait()
    ]]
    On an empty text queue the body waits: it has no step of this kind,
    and its other step is [consumer_timeout] below. *)
Definition consumer_step (s : stream_state) : option stream_state :=
  match st_consumer s with
  | Iterating =>
      match text_queue s with
      | [] => None
      | Frag t :: q =>
          Some {| st_worker := st_worker s; text_queue := q; exq := exq s;
                  st_consumer := Iterating;
                  yielded := if truthy t then yielded s ++ [t] else yielded s |}
      | StopSignal :: q =>
          Some {| st_worker := st_worker s; text_queue := q; exq := exq s;
                  st_consumer := Checking; yielded := yielded s |}
      end
  | Checking =>
      match exq s with
      | [] =>
          Some {| st_worker := st_worker s; text_queue := text_queue s;
                  exq := []; st_consumer := Returned; yielded := yielded s |}
      | e :: rest =>
          Some {| st_worker := st_worker s; text_queue := text_queue s;
                  exq := rest; st_consumer := Raised e; yielded := yielded s |}
      end
  | Returned | Raised _ | TimedOut => None
  end.

(** The wait of [for text in streamer] runs out: the text queue has been
    empty for 600 s and [queue.Empty] leaves the generator. *)
Definition consumer_timeout (s : stream_state) : option stream_state :=
  match st_consumer s, text_queue s with
  | Iterating, [] =>
      Some {| st_worker := st_worker s; text_queue := []; exq := exq s;
              st_consumer := TimedOut; yielded := yielded s |}
  | _, _ => None
  end.

Definition stream_step (s s' : stream_state) : Prop :=
  worker_step s = Some s' ∨ consumer_step s = Some s'
  ∨ consumer_timeout s = Some s'.

(** Nothing can move any more. *)
Definition stream_final (s : stream_state) : Prop :=
  worker_step s = None ∧ consumer_step s = None ∧ consumer_timeout s = None.

(** Run under a schedule in which no wait runs out: [true] lets the worker
    move, [false] the generator body; a thread that cannot move skips its
    turn. *)
Fixpoint stream_run (schedule : list bool) (s : stream_state) : stream_state :=
  match schedule with
  | [] => s
  | b :: schedule' =>
      let next := if b then worker_step s else consumer_step s in
      stream_run schedule' (default s next)
  end.

(** What the caller of the generator has seen. *)
Definition observed (s : stream_state) : list string * consumer :=
  (yielded s, st_consumer s).

(** The generator as a function: what its caller sees when the worker runs
    to its end before the first fragment is taken.  (Every other
    interleaving in which no wait runs out shows the same; see the
    properties.) *)
Definition threaded_streaming_generator (fragments : list string)
    (fin : ending) : list string * consumer :=
  observed
    (stream_run
       (replicate (length fragments + 3) true
        ++ replicate (length fragments + 2) false)
       (stream_init fragments fin)).


(** *** What is still to come, for the proofs *)

(** The items the worker has yet to put. *)
Definition worker_future (w : worker) : list item :=
  match w with
  | Generating todo _ => (Frag <$> todo) ++ [StopSignal]
  | Caught _ | Ending => [StopSignal]
  | Exited => []
  end.

(** Everything the generator body has yet to take. *)
Definition pending (s : stream_state) : list item :=
  text_queue s ++ worker_future (st_worker s).

(** What [exq] holds once the worker has exited. *)
Definition exq_eventual (s : stream_state) : list exn :=
  exq s
  ++ match st_worker s with
     | Generating _ (Raises e) | Caught e => [e]
     | _ => []
     end.

Definition exq_expected (fin : ending) : list exn :=
  match fin with
  | Raises e => [e]
  | Returns => []
  end.

Definition consumer_expected (fin : ending) : consumer :=
  match fin with
  | Raises e => Raised e
  | Returns => Returned
  end.

(** The invariant of a run started on [fragments] and [fin]. *)
Definition stream_inv (fragments : list string) (fin : ending)
    (s : stream_state) : Prop :=
  match st_consumer s with
  | Iterating =>
      ∃ rest, pending s = (Frag <$> rest) ++ [StopSignal]
              ∧ yielded s ++ filter truthy rest = filter truthy fragments
              ∧ exq_eventual s = exq_expected fin
  | Checking =>
      st_worker s = Exited ∧ text_queue s = []
      ∧ exq s = exq_expected fin
      ∧ yielded s = filter truthy fragments
  | Returned | Raised _ =>
      st_worker s = Exited ∧ text_queue s = []
      ∧ st_consumer s = consumer_expected fin
      ∧ yielded s = filter truthy fragments
  | TimedOut => yielded s `prefix_of` filter truthy fragments
  end.

(** ** The Qwen2.5-VL adapter *)

(** A content entry of the adapter's message dicts:
    [{'type': c.type, 'image': url}] or [{'type': c.type, 'text': text}]. *)
Inductive qwen_part :=
| QImage (image : string)
| QText (t : option string).

Record qwen_message := {
  q_role : string;
  q_content : list qwen_part;
}.

(** [ctext]: the [c.text] of every [c] in [m.content] joined on the empty
    string; a [None] among them raises. *)
Definition join_texts (cnt : MessageContent) : result string :=
  for_content cnt "" (λ c acc, str_iadd acc (text c)).

(** The message loop of [stream_chat_with_images]. *)
Definition qwen_message_of (m : Message) : result qwen_message :=
  if decide (role m = "user") then
    cnt ← for_content (content m) [] (λ c cnt,
      match type c with
      | Ty_image_url => u ← image_url_url c; Ok (cnt ++ [QImage u])
      | Ty_text => Ok (cnt ++ [QText (text c)])
      end);
    Ok {| q_role := role m; q_content := cnt |}
  else
    ctext ← join_texts (content m);
    Ok {| q_role := role m; q_content := [QText (Some ctext)] |}.

Definition qwen_messages (request_messages : list Message)
  : result (list qwen_message) :=
  for_each request_messages [] (λ m messages,
    msg ← qwen_message_of m; Ok (messages ++ [msg])).

(** The streaming loop of [stream_chat_with_images] over what
    [threaded_streaming_generator] yields:
    [[
    for new_text in threaded_streaming_generator(...):
        end = new_text.find(self.processor.tokenizer.eos_token)
        if end == -1:
            yield new_text
        else:
            yield new_text[:end]
            break
    ]] *)
Fixpoint stream_until_eos (eos_token : string) (generated : list string)
  : list string :=
  match generated with
  | [] => []
  | new_text :: rest =>
      let stop := find new_text eos_token in
      if (stop =? -1)%Z then new_text :: stream_until_eos eos_token rest
      else [slice_to new_text stop]
  end.

(** How many fragments the loop takes from the generator. *)
Fixpoint consumed_until_eos (eos_token : string) (generated : list string)
  : nat :=
  match generated with
  | [] => 0
  | new_text :: rest =>
      if (find new_text eos_token =? -1)%Z
      then S (consumed_until_eos eos_token rest)
      else 1
  end.

(** ** Fixtures for the concrete runs: images are their payload bytes, a
    data URI carries itself, and there is no network. *)
Definition fixture_requests_get (u : string) : result string :=
  Raise (ExternalError "offline").
Definition fixture_DataURI_data (u : string) : result string := Ok u.
Definition fixture_Image_open (data : string) : result string := Ok data.

(** Messages for the concrete runs. *)
Definition user_hi : Message :=
  {| role := "user"; content := CList [Text "hi"]; name := None |}.
Definition assistant_partial : Message :=
  {| role := "assistant"; content := CList [Text "partial"]; name := None |}.
Definition system_with_image : Message :=
  {| role := "system"; content := CList [ImageRef "data:,a"]; name := None |}.
Definition system_two_parts : Message :=
  {| role := "system"; content := CList [Text "Be terse."; Text "Be kind."];
     name := None |}.
(** An [image_url] part that also carries a [text] field: pydantic accepts
    it, since both fields are optional under either type. *)
Definition captioned_image : Content :=
  {| type := Ty_image_url; text := Some "x";
     image_url := Some {| url := "data:,a"; detail := None |} |}.
Definition assistant_captioned_image : Message :=
  {| role := "assistant"; content := CList [captioned_image]; name := None |}.
Definition assistant_image_only : Message :=
  {| role := "assistant"; content := CList [ImageRef "data:,a"]; name := None |}.

(** ** Structured conversations: [messages_from_messages] *)

(** A content entry of the conversation:
    [{"type": "image", "url": url}] or [{'type': 'text', 'text': text}]. *)
Inductive conversation_part :=
| ConvImage (u : string)
| ConvText (t : option string).

(** No image is loaded here: the URL is carried over as it is. *)
Definition messages_from_messages (messages : list Message)
  : result (list (string * list conversation_part)) :=
  for_each messages [] (λ m conversation,
    cnt ← for_content (content m) [] (λ c cnt,
      match type c with
      | Ty_image_url => u ← image_url_url c; Ok (cnt ++ [ConvImage u])
      | Ty_text => Ok (cnt ++ [ConvText (text c)])
      end);
    Ok (conversation ++ [(role m, cnt)])).

(** The parts a loop over [m.content] visits when it does not raise. *)
Definition parts_of (m : Message) : list Content :=
  match content m with
  | CList l => l
  | CStr _ => []
  end.

(** ** Messages for the Mistral tokenizer: [pixtral_messages] *)

Inductive chunk :=
| TextChunk (t : string)
| ImageURLChunk (u : string).

Inductive mistral_message :=
| UserMessage (cnt : list chunk)
| AssistantMessage (t : string)
| SystemMessage (t : string).

(** [ChatCompletionRequest(messages=pix_messages, model="pixtral")], the
    constructors taken as plain data. *)
Record ChatCompletionRequest := {
  ccr_messages : list mistral_message;
  ccr_model : string;
}.

Definition pixtral_messages (messages : list Message)
  : result ChatCompletionRequest :=
  pix_messages ← for_each messages [] (λ m pix_messages,
    '(cnt, txt) ← for_content (content m) ([], "") (λ c '(cnt, txt),
      '(cnt, txt) ←
        match type c, text c with
        | Ty_text, Some (String a t) =>
            Ok (cnt ++ [TextChunk (String a t)], String a t)
        | _, _ => Ok (cnt, txt)
        end;
      match type c with
      | Ty_image_url => u ← image_url_url c; Ok (cnt ++ [ImageURLChunk u], txt)
      | Ty_text => Ok (cnt, txt)
      end);
    if decide (role m = "user") then Ok (pix_messages ++ [UserMessage cnt])
    else if decide (role m = "assistant") then
      Ok (pix_messages ++ [AssistantMessage txt])
    else if decide (role m = "system") then
      Ok (pix_messages ++ [SystemMessage txt])
    else Ok pix_messages);
  Ok {| ccr_messages := pix_messages; ccr_model := "pixtral" |}.


(** ** [join_int_lists] *)

(** The loop of [join_int_lists], [i] being the index [enumerate] gives and
    [n] the value of [len(int_lists)]. *)
Fixpoint join_int_lists_loop (i n : Z) (int_lists : list (list Z))
    (separator : Z) (result : list Z) : list Z :=
  match int_lists with
  | [] => result
  | lst :: rest =>
      let result := result ++ lst in
      let result :=
        if (i <? n - 1)%Z then result ++ [separator] else result in
      join_int_lists_loop (i + 1) n rest separator result
  end.

Definition join_int_lists (int_lists : list (list Z)) (separator : Z)
  : list Z :=
  join_int_lists_loop 0 (Z.of_nat (length int_lists)) int_lists separator [].

(** Cutting a list at every occurrence of [separator]. *)
Fixpoint split_on (separator : Z) (l : list Z) : list (list Z) :=
  match l with
  | [] => [[]]
  | x :: l' =>
      if decide (x = separator) then [] :: split_on separator l'
      else match split_on separator l' with
           | [] => [[x]]
           | first :: others => (x :: first) :: others
           end
  end.

(** The lists laid end to end with [separator] between neighbours. *)
Fixpoint interleave (separator : Z) (int_lists : list (list Z)) : list Z :=
  match int_lists with
  | [] => []
  | [lst] => lst
  | lst :: rest => lst ++ separator :: interleave separator rest
  end.


(** ** Guessing the format and the backend from a model name *)

(** The dict literal [model_format_match_map], in source order. *)
Definition model_format_match_map : list (string * list string) :=
  [ ("chatml", ["34b"; "yi-6b"; "nanollava"; "internvl-chat-v1-5";
                "internvl-chat-2b"; "internvl2-"; "internvl2_5-";
                "llava-onevision"; "aquila"]);
    ("falcon", ["falcon"]);
    ("florence", ["florence"]);
    ("fuyu", ["fuyu"]);
    ("gemma", ["gemma"]);
    ("glm4v", ["glm-4v"]);
    ("llama2", ["bakllava"; "8x7b"; "mistral"; "mixtral"]);
    ("llama3", ["llama-3-vision"; "360vl"; "llama3"]);
    ("phi15", ["moondream1"; "moondream2"; "monkey"]);
    ("phi3", ["phi3"; "phi-3"]);
    ("phintern", ["internvl-chat-4b"; "opengvlab/internvl2-4b"]);
    ("pixtral", ["pixtral"]);
    ("vicuna", ["vicuna"; "13b"]);
    ("vicuna0", ["yi-vl"]) ].

(** [for format, options in d.items(): if test(options): return format] *)
Fixpoint first_format (test : list string → bool)
    (items : list (string * list string)) : option string :=
  match items with
  | [] => None
  | (format, options) :: rest =>
      if test options then Some format else first_format test rest
  end.

(** The substrings [guess_backend] looks for, and what it can answer
    without loading a configuration. *)
Definition backend_keywords : list string :=
  [ "aria"; "ovis2"; "ovis1.6"; "aquila"; "bunny"; "cogvlm2"; "cogvlm";
    "cogagent"; "dolphin"; "emu2"; "joy-caption-alpha-two";
    "joy-caption-pre-alpha"; "llava-onevision"; "mantis"; "minimonkey";
    "minicpm-v-2_6"; "moondream2" ].

Definition keyword_backends : list string :=
  [ "aria"; "ovis2"; "ovis16"; "llavanextgit"; "bunny"; "cogvlm2"; "cogvlm";
    "dv-qwen"; "emu"; "joy-caption-latest"; "joy-caption-pre-alpha";
    "mantis"; "minimonkey"; "minicpm-v-2_6"; "moondream2" ].

Section Guessing.

(** [str.lower], and [AutoConfig.from_pretrained(...).model_type]. *)
Variable lower : string → string.
Variable AutoConfig_model_type : string → bool → result string.

Definition guess_model_format (model_name : string) : string :=
  let model_id := lower model_name in
  match first_format (λ options, existsb (String.eqb model_id) options)
          model_format_match_map with
  | Some format => format
  | None =>
      match first_format (λ options, existsb (contains model_id) options)
              model_format_match_map with
      | Some format => format
      | None => "vicuna"
      end
  end.

(** The [except] branch prints a message and raises the exception again. *)
Definition guess_backend (model_name : string) (trust_remote_code : bool)
  : result string :=
  let model_id := lower model_name in
  if contains model_id "aria" then Ok "aria"
  else if contains model_id "ovis2" then Ok "ovis2"
  else if contains model_id "ovis1.6" then Ok "ovis16"
  else if contains model_id "aquila" then Ok "llavanextgit"
  else if contains model_id "bunny" then Ok "bunny"
  else if contains model_id "cogvlm2" then Ok "cogvlm2"
  else if contains model_id "cogvlm" || contains model_id "cogagent"
  then Ok "cogvlm"
  else if contains model_id "dolphin" then Ok "dv-qwen"
  else if contains model_id "emu2" then Ok "emu"
  else if contains model_id "joy-caption-alpha-two"
  then Ok "joy-caption-latest"
  else if contains model_id "joy-caption-pre-alpha"
  then Ok "joy-caption-pre-alpha"
  else if contains model_id "llava-onevision" then Ok "llavanextgit"
  else if contains model_id "mantis" then Ok "mantis"
  else if contains model_id "minimonkey" then Ok "minimonkey"
  else if contains model_id "minicpm-v-2_6" then Ok "minicpm-v-2_6"
  else if contains model_id "moondream2" then Ok "moondream2"
  else
    model_type ← AutoConfig_model_type model_id trust_remote_code;
    Ok (lower model_type).

End Guessing.


(** ** Generation parameters: [get_generation_params] *)

(** The values of a parameter dict; [PyObj] is any other object a backend
    puts among its defaults. *)
Inductive pyvalue {float obj : Type} :=
| PyNone
| PyBool (b : bool)
| PyInt (i : Z)
| PyFloat (x : float)
| PyObj (o : obj).
Arguments pyvalue : clear implicits.

Section GenerationParams.
Context {float obj dict : Type}.

(** Python's [x > 0] and [x != v] for a float [x], and the literal [1.0]. *)
Variable positive : float → bool.
Variable differs : float → pyvalue float obj → bool.
Variable one : float.

(** [params.update(default_params)] lets the defaults of the backend win
    over the three initial entries. *)
Definition get_generation_params (request : Req.ImageChatRequest float dict)
    (default_params : gmap string (pyvalue float obj))
  : gmap string (pyvalue float obj) :=
  let params : gmap string (pyvalue float obj) :=
    <["top_k" := PyNone]>
      (<["do_sample" := PyBool false]> (<["use_cache" := PyBool true]> ∅)) in
  let params := default_params ∪ params in
  let params :=
    if bool_decide (Req.max_tokens request ≠ 0%Z)
    then <["max_new_tokens" := PyInt (Req.max_tokens request)]> params
    else params in
  let params :=
    match Req.temperature request with
    | Some temperature =>
        if positive temperature
        then <["temperature" := PyFloat temperature]>
               (<["do_sample" := PyBool true]> params)
        else params
    | None => params
    end in
  match Req.top_p request with
  | Some top_p =>
      if differs top_p (default (PyFloat one) (params !! "top_p"))
      then <["top_p" := PyFloat top_p]> (<["do_sample" := PyBool true]> params)
      else params
  | None => params
  end.

End GenerationParams.

(** ** Temporary files: [url_to_file] *)

Definition mime_map : gmap string string :=
  list_to_map
    [ ("image/png", ".png"); ("image/x-png", ".png"); ("image/jpg", ".jpg");
      ("image/jpeg", ".jpeg"); ("image/gif", ".gif");
      ("image/webp", ".webp"); ("video/avi", ".avi"); ("video/mp4", ".mp4");
      ("video/mpeg", ".mpeg"); ("video/mov", ".mov"); ("video/mkv", ".mkv");
      ("video/wmv", ".wmv"); ("video/webm", ".webm") ].

(** [mime_map.get(mimetype, '.mp4' if 'video/' in mimetype else '.png')] *)
Definition extension (mimetype : string) : string :=
  default (if contains mimetype "video/" then ".mp4" else ".png")
    (mime_map !! mimetype).

Definition image_extensions : list string :=
  [".png"; ".jpg"; ".jpeg"; ".gif"; ".webp"].
Definition video_extensions : list string :=
  [".avi"; ".mp4"; ".mpeg"; ".mov"; ".mkv"; ".wmv"; ".webm"].

Section Files.
Context {bytes World descriptor : Type}.

(** [DataURI(url)] with its [mimetype] and its [data]; [requests.get(url)]
    with its [Content-Type] header, if there is one, and its [content].
    [tempfile.mkstemp(suffix=ext)] and [os.write(fd, data)] act on the file
    system, here [World]. *)
Variable DataURI : string → result (string * bytes).
Variable requests_get : string → result (option string * bytes).
Variable mkstemp : string → World → World * result (descriptor * string).
Variable os_write : descriptor → bytes → World → World * result unit.

(** [fd, filename = tempfile.mkstemp(suffix=ext); os.write(fd, data);
    return filename] *)
Definition write_temporary (ext : string) (data : bytes) (w : World)
  : World * result string :=
  match mkstemp ext w with
  | (w, Raise e) => (w, Raise e)
  | (w, Ok (fd, filename)) =>
      match os_write fd data w with
      | (w, Raise e) => (w, Raise e)
      | (w, Ok _) => (w, Ok filename)
      end
  end.

Definition url_to_file (img_url : string) (w : World)
  : World * result string :=
  if startswith img_url "data:" then
    match DataURI img_url with
    | Raise e => (w, Raise e)
    | Ok (mimetype, data) => write_temporary (extension mimetype) data w
    end
  else
    match requests_get img_url with
    | Raise e => (w, Raise e)
    | Ok (content_type, data) =>
        let mime_type := default "image/png" content_type in
        write_temporary (extension mime_type) data w
    end.

End Files.

(** ** Loading parameters: [VisionQnABase.__init__] and the Qwen2.5-VL
    backend's [__init__] *)

(** [torch.float32], [torch.bfloat16], [torch.float16] *)
Inductive dtype := float32 | bfloat16 | float16.

#[global] Instance dtype_eq_dec : EqDecision dtype.
Proof. solve_decision. Defined.

(** The keyword arguments [__init__] gives to [BitsAndBytesConfig], and the
    attribute it sets afterwards; [None] for one that is not given. *)
Record BitsAndBytesConfig := {
  load_in_4bit : option bool;
  load_in_8bit : option bool;
  bnb_4bit_quant_type : option string;
  bnb_4bit_compute_dtype : option dtype;
  llm_int8_skip_modules : list string;
  bnb_4bit_use_double_quant : option bool;
}.

(** The values of [self.params]; [ParamObj] is whatever object the caller
    put in [extra_params]. *)
Inductive param {obj : Type} :=
| ParamStr (s : string)
| ParamDtype (d : dtype)
| ParamBool (b : bool)
| ParamQuant (q : BitsAndBytesConfig)
| ParamObj (o : obj).
Arguments param : clear implicits.

Module Base.
(** The attributes [VisionQnABase.__init__] leaves on [self]. *)
Record VisionQnABase {obj : Type} := {
  _model_id : string;
  device : string;
  dtype : dtype;
  params : gmap string (param obj);
  format : option string;
}.
Arguments VisionQnABase : clear implicits.
End Base.

(** What ends the Qwen [__init__] without an object: [del] on a key that
    is not there, or an exception of a library call. *)
Inductive init_exn :=
| KeyError (key : string)
| Library (e : exn).

Section Loading.
Context {obj processor model : Type}.

(** The truth value of an object of [extra_params]; what [torch.cuda] and
    [torch.backends.mps] report; [str.lower]; the two [from_pretrained]. *)
Variable truth : obj → bool.
Variables cuda_is_available mps_is_available cuda_is_bf16_supported : bool.
Variable lower : string → string.
Variable AutoProcessor_from_pretrained : string → result processor.
Variable Qwen2_5_VL_from_pretrained : gmap string (param obj) → result model.

Definition select_device : string :=
  if cuda_is_available then "cuda"
  else if mps_is_available then "mps" else "cpu".

Definition select_dtype (device : string) : dtype :=
  if String.eqb device "cpu" then float32
  else if cuda_is_bf16_supported then bfloat16 else float16.

Definition select_device_dtype (device : string) : string * dtype :=
  let device := if String.eqb device "auto" then select_device else device in
  (device, select_dtype device).

(** [extra_params.get(key, False)] as the condition of an [if]. *)
Definition extra_flag (extra_params : gmap string obj) (key : string) : bool :=
  match extra_params !! key with
  | Some o => truth o
  | None => false
  end.

(** [VisionQnABase.__init__]; [revision], [vision_layers] and
    [class_format] are the attributes of the class of [self]. *)
Definition VisionQnABase_init (revision : string)
    (vision_layers : list string) (class_format : option string)
    (model_id device device_map : string) (extra_params : gmap string obj)
    (format : option string) : Base.VisionQnABase obj :=
  let '(device, dtype) := select_device_dtype device in
  let params : gmap string (param obj) :=
    <["pretrained_model_name_or_path" := ParamStr model_id]>
      (<["torch_dtype" := ParamDtype dtype]>
        (<["low_cpu_mem_usage" := ParamBool true]>
          (<["revision" := ParamStr revision]>
            (<["device_map" := ParamStr device_map]>
              (<["trust_remote_code" :=
                   match extra_params !! "trust_remote_code" with
                   | Some o => ParamObj o
                   | None => ParamBool false
                   end]> ∅))))) in
  let params :=
    if extra_flag extra_params "load_in_4bit" then
      <["quantization_config" := ParamQuant
          {| load_in_4bit := Some true;
             load_in_8bit := None;
             bnb_4bit_quant_type := Some "nf4";
             bnb_4bit_compute_dtype := Some dtype;
             llm_int8_skip_modules := vision_layers;
             bnb_4bit_use_double_quant :=
               if extra_flag extra_params "4bit_use_double_quant"
               then Some true else None |}]> params
    else if extra_flag extra_params "load_in_8bit" then
      <["quantization_config" := ParamQuant
          {| load_in_4bit := None;
             load_in_8bit := Some true;
             bnb_4bit_quant_type := None;
             bnb_4bit_compute_dtype := None;
             llm_int8_skip_modules := vision_layers;
             bnb_4bit_use_double_quant := None |}]> params
    else params in
  {| Base._model_id := model_id;
     Base.device := device;
     Base.dtype := dtype;
     Base.params := params;
     Base.format :=
       match format with
       | Some (String a s) => Some (String a s)
       | _ => class_format
       end |}.

(** The Qwen2.5-VL backend: the attributes of the base class, the
    processor and the model. *)
Record VisionQnA := {
  base : Base.VisionQnABase obj;
  qwen_processor : processor;
  qwen_model : model;
}.

(** [VisionQnA.__init__] of [backend/qwen2_5_vl.py].  The class body sets
    [vision_layers = \['visual'\]] and inherits [revision = 'main']; its
    line [format: 'chatml'] is an annotation and assigns nothing, so the
    class attribute [format] is the inherited [None]. *)
Definition qwen_init (model_id device device_map : string)
    (extra_params : gmap string obj) (format : option string)
  : init_exn + VisionQnA :=
  let self :=
    VisionQnABase_init "main" ["visual"] None model_id device device_map
      extra_params format in
  let self :=
    if (contains (lower model_id) "awq" || contains (lower model_id) "gptq")
       && bool_decide (Base.dtype self = bfloat16)
    then {| Base._model_id := Base._model_id self;
            Base.device := Base.device self;
            Base.dtype := float16;
            Base.params :=
              <["torch_dtype" := ParamDtype float16]> (Base.params self);
            Base.format := Base.format self |}
    else self in
  match AutoProcessor_from_pretrained model_id with
  | Raise e => inl (Library e)
  | Ok processor =>
      match Base.params self !! "trust_remote_code" with
      | None => inl (KeyError "trust_remote_code")
      | Some _ =>
          let self :=
            {| Base._model_id := Base._model_id self;
               Base.device := Base.device self;
               Base.dtype := Base.dtype self;
               Base.params := delete "trust_remote_code" (Base.params self);
               Base.format := Base.format self |} in
          match Qwen2_5_VL_from_pretrained (Base.params self) with
          | Raise e => inl (Library e)
          | Ok model =>
              inr {| base := self; qwen_processor := processor;
                     qwen_model := model |}
          end
      end
  end.

End Loading.


(** ** More fixtures for the concrete runs *)

(** Lower case, for ASCII letters. *)
Definition fixture_lower_ascii (a : ascii) : ascii :=
  let n := nat_of_ascii a in
  if (65 <=? n)%nat && (n <=? 90)%nat then ascii_of_nat (n + 32) else a.
Fixpoint fixture_lower (s : string) : string :=
  match s with
  | EmptyString => EmptyString
  | String a s' => String (fixture_lower_ascii a) (fixture_lower s')
  end.

(** A message whose content is a bare [str]. *)
Definition user_bare_string : Message :=
  {| role := "user"; content := CStr "hi"; name := None |}.

(** A request with the defaults of [ImageChatRequest]; a float is written
    in hundredths. *)
Definition fixture_request (messages : list Message)
    (temperature top_p : option Z) : Req.ImageChatRequest Z () :=
  {| Req.messages := messages; Req.model := "gpt-4-vision-preview";
     Req.frequency_penalty := 0%Z; Req.logit_bias := None;
     Req.logprobs := false; Req.top_logprobs := None;
     Req.max_tokens := 512%Z; Req.max_completion_tokens := 1024%Z;
     Req.n := 1%Z; Req.presence_penalty := 0%Z;
     Req.response_format := None; Req.seed := None;
     Req.service_tier := None; Req.stop := None; Req.stream := false;
     Req.stream_options := None; Req.temperature := temperature;
     Req.top_p := top_p; Req.tools := None; Req.tool_choice := None;
     Req.parallel_tool_calls := true; Req.user := None;
     Req.function_call := None; Req.functions := None |}.

(** A file system as the list of the files made and of the writes done,
    in order; every data URI is a QuickTime video. *)
Definition fixture_DataURI (u : string) : result (string * string) :=
  Ok ("video/quicktime", u).
Definition fixture_requests_get_response (u : string)
  : result (option string * string) :=
  Raise (ExternalError "offline").
Definition fixture_mkstemp (suffix : string) (w : list (string * string))
  : list (string * string) * result (string * string) :=
  (w ++ [("/tmp/tmp0" +:+ suffix, "")],
   Ok ("/tmp/tmp0" +:+ suffix, "/tmp/tmp0" +:+ suffix)).
Definition fixture_os_write (fd data : string) (w : list (string * string))
  : list (string * string) * result () :=
  (w ++ [(fd, data)], Ok ()).


(** The characters the templates use that a literal cannot spell. *)
Definition LF : string := String (ascii_of_nat 10) EmptyString.
Definition EOT : string := String (ascii_of_nat 4) EmptyString.

Section Prompts.

(** ** External capabilities

    [requests.get(url).content], [DataURI(url).data] and
    [Image.open(io.BytesIO(data)).convert("RGB")] are library calls; each
    either returns or raises. *)
Context {bytes Image : Type}.
Variable requests_get_content : string → result bytes.
Variable DataURI_data : string → result bytes.
Variable Image_open_RGB : bytes → result Image.

(** [url_to_image]: [img_data] is assigned in the two branches only, so
    with neither prefix the last line reads an unbound local. *)
Definition url_to_image (img_url : string) : result Image :=
  img_data ←
    (if startswith img_url "http" then
       Some <$> requests_get_content img_url
     else if startswith img_url "data:" then
       Some <$> DataURI_data img_url
     else Ok None);
  match img_data with
  | Some data => Image_open_RGB data
  | None => Raise UnboundLocalError
  end.

(** ** Fragments the format functions share verbatim *)

(** [[
    if messages and messages[-1].role == 'assistant':
        generation_msg += messages[-1].content[0].text
        messages.pop(-1)
    ]]
    Returns the list object's contents afterwards and the new
    [generation_msg]; an exception in the second line leaves the list as
    it was. *)
Definition pop_trailing_assistant (messages : list Message)
    (generation_msg : string) : list Message * result string :=
  match last messages with
  | Some m =>
      if decide (role m = "assistant") then
        match t ← content0_text m; str_iadd generation_msg t with
        | Ok generation_msg => (removelast messages, Ok generation_msg)
        | Raise e => (messages, Raise e)
        end
      else (messages, Ok generation_msg)
  | None => (messages, Ok generation_msg)
  end.

(** [[
    text = ''
    img_tag = ''
    for c in m.content:
        if c.type == 'image_url':
            images.extend([ await url_to_image(c.image_url.url) ])
            img_tag += img_tok
        if c.type == 'text':
            text = c.text
    ]] *)
Definition user_image_tag_and_text (img_tok : string) (cnt : MessageContent)
    (images : list Image) : result (list Image * string * option string) :=
  for_content cnt (images, "", Some "") (λ c '(images, img_tag, txt),
    match type c with
    | Ty_image_url =>
        u ← image_url_url c;
        img ← url_to_image u;
        Ok (images ++ [img], img_tag +:+ img_tok, txt)
    | Ty_text => Ok (images, img_tag, text c)
    end).

(** [[
    for c in m.content:
        if c.type == 'text':
            prompt += f"...{c.text}..."
    ]] *)
Definition text_parts (cnt : MessageContent) (prompt : string)
    (block : option string → string) : result string :=
  for_content cnt prompt (λ c prompt,
    match type c with
    | Ty_text => Ok (prompt +:+ block (text c))
    | Ty_image_url => Ok prompt
    end).

(** [[
    p = ''
    for c in m.content:
        if c.type == 'image_url':
            images.extend([ await url_handler(c.image_url.url) ])
            p = img_tok + p + img_end
        if c.type == 'text':
            p += f"{c.text}{sep}"
    ]] *)
Definition user_prefixed_parts (url_handler : string → result Image)
    (img_tok img_end sep : string) (cnt : MessageContent)
    (images : list Image) : result (list Image * string) :=
  for_content cnt (images, "") (λ c '(images, p),
    match type c with
    | Ty_image_url =>
        u ← image_url_url c;
        img ← url_handler u;
        Ok (images ++ [img], img_tok +:+ p +:+ img_end)
    | Ty_text => Ok (images, p +:+ fstr (text c) +:+ sep)
    end).

(** [[
    img_tag = ''
    for c in m.content:
        if c.type == 'image_url':
            images.extend([ await url_handler(c.image_url.url) ])
            img_tag += img_tok
    ]] *)
Definition image_tags (url_handler : string → result Image) (img_tok : string)
    (cnt : MessageContent) (images : list Image)
  : result (list Image * string) :=
  for_content cnt (images, "") (λ c '(images, img_tag),
    match type c with
    | Ty_image_url =>
        u ← image_url_url c;
        img ← url_handler u;
        Ok (images ++ [img], img_tag +:+ img_tok)
    | Ty_text => Ok (images, img_tag)
    end).

(** ** The format functions

    Each returns the caller's list after the call, then what the Python
    function returns or raises.  Keyword arguments with defaults are
    explicit arguments here. *)

Definition phi15_prompt_from_messages (messages : list Message)
    (img_end : string) (url_handler : string → result Image)
  : list Message * result (list Image * string) :=
  (* img_tok is held at its default "<image>", on which .format(img_data)
     has nothing to substitute *)
  let img_tok := "<image>" in
  let '(messages, generation_msg) := pop_trailing_assistant messages "Answer:" in
  (messages,
   generation_msg ← generation_msg;
   '(images, prompt) ← for_each messages ([], "") (λ m '(images, prompt),
     if decide (role m = "user") then
       '(images, p) ← user_prefixed_parts url_handler img_tok img_end
                        (LF +:+ LF) (content m) images;
       Ok (images, prompt +:+ p)
     else if decide (role m = "assistant") then
       prompt ← text_parts (content m) prompt
                  (λ t, "Answer: " +:+ fstr t +:+ LF +:+ LF);
       Ok (images, prompt)
     else if decide (role m = "system") then
       prompt ← text_parts (content m) prompt (λ t, fstr t +:+ LF +:+ LF);
       Ok (images, prompt)
     else Ok (images, prompt));
   Ok (images, prompt +:+ generation_msg)).

Definition vicuna0_prompt_from_messages (messages : list Message)
    (img_tok : string) : list Message * result (list Image * string) :=
  let '(messages, generation_msg) :=
    pop_trailing_assistant messages "### Assistant:" in
  (messages,
   generation_msg ← generation_msg;
   '(images, prompt) ← for_each messages ([], "") (λ m '(images, prompt),
     if decide (role m = "user") then
       '(images, img_tag, txt) ←
         user_image_tag_and_text img_tok (content m) images;
       Ok (images, prompt +:+ "### Human: " +:+ img_tag +:+ fstr txt +:+ LF)
     else if decide (role m = "assistant") then
       prompt ← text_parts (content m) prompt
                  (λ t, "### Assistant: " +:+ fstr t +:+ LF);
       Ok (images, prompt)
     else if decide (role m = "system") then
       prompt ← text_parts (content m) prompt (λ t, fstr t +:+ LF +:+ LF);
       Ok (images, prompt)
     else Ok (images, prompt));
   Ok (images, prompt +:+ generation_msg)).

Definition vicuna_prompt_from_messages (messages : list Message)
    (img_tok : string) : list Message * result (list Image * string) :=
  let '(messages, generation_msg) :=
    pop_trailing_assistant messages "ASSISTANT:" in
  (messages,
   generation_msg ← generation_msg;
   '(images, prompt) ← for_each messages ([], "") (λ m '(images, prompt),
     if decide (role m = "user") then
       '(images, img_tag, txt) ←
         user_image_tag_and_text img_tok (content m) images;
       Ok (images, prompt +:+ "USER: " +:+ img_tag +:+ fstr txt +:+ LF)
     else if decide (role m = "assistant") then
       prompt ← text_parts (content m) prompt
                  (λ t, "ASSISTANT: " +:+ fstr t +:+ LF);
       Ok (images, prompt)
     else if decide (role m = "system") then
       prompt ← text_parts (content m) prompt (λ t, fstr t +:+ LF +:+ LF);
       Ok (images, prompt)
     else Ok (images, prompt));
   Ok (images, prompt +:+ generation_msg)).

Definition llama2_prompt_from_messages (messages : list Message)
    (img_tok : string) : list Message * result (list Image * string) :=
  (messages,
   for_each messages ([], "") (λ m '(images, prompt),
     if decide (role m = "user") then
       '(images, img_tag, txt) ←
         user_image_tag_and_text img_tok (content m) images;
       Ok (images, prompt +:+ "[INST] " +:+ img_tag +:+ fstr txt +:+ " [/INST]")
     else if decide (role m = "assistant") then
       prompt ← text_parts (content m) prompt (λ t, " " +:+ fstr t);
       Ok (images, prompt)
     else if decide (role m = "system") then
       prompt ← text_parts (content m) prompt
                  (λ t, "[INST] <<SYS>>" +:+ LF +:+ fstr t +:+ LF
                          +:+ "<</SYS>> [/INST]");
       Ok (images, prompt)
     else Ok (images, prompt))).

(** [[
    for c in m.content:
        if c.type == 'text':
            prompt += f"<|start_header_id|>{m.role}<|end_header_id|>\n\n{img_tag}{c.text.strip()}<|eot_id|>"
    ]]
    [c.text.strip()] raises on a [None] text. *)
Definition llama3_text_blocks (m : Message) (img_tag prompt : string)
  : result string :=
  for_content (content m) prompt (λ c prompt,
    match type c with
    | Ty_text =>
        match text c with
        | Some t =>
            Ok (prompt +:+ "<|start_header_id|>" +:+ role m
                  +:+ "<|end_header_id|>" +:+ LF +:+ LF +:+ img_tag
                  +:+ strip t +:+ "<|eot_id|>")
        | None => Raise AttributeError
        end
    | Ty_image_url => Ok prompt
    end).

Definition llama3_prompt_from_messages (messages : list Message)
    (img_tok : string) : list Message * result (list Image * string) :=
  let '(messages, generation_msg) :=
    pop_trailing_assistant messages
      ("<|start_header_id|>assistant<|end_header_id|>" +:+ LF +:+ LF) in
  (messages,
   generation_msg ← generation_msg;
   '(images, prompt) ← for_each messages ([], "") (λ m '(images, prompt),
     '(images, img_tag) ← image_tags url_to_image img_tok (content m) images;
     prompt ← llama3_text_blocks m img_tag prompt;
     Ok (images, prompt));
   Ok (images, prompt +:+ generation_msg)).

Definition chatml_prompt_from_messages (messages : list Message)
    (img_tok : string) : list Message * result (list Image * string) :=
  let '(messages, generation_msg) :=
    pop_trailing_assistant messages ("<|im_start|>assistant" +:+ LF) in
  (messages,
   generation_msg ← generation_msg;
   '(images, prompt) ← for_each messages ([], "") (λ m '(images, prompt),
     if decide (role m = "user") then
       '(images, img_tag, txt) ←
         user_image_tag_and_text img_tok (content m) images;
       Ok (images, prompt +:+ "<|im_start|>user" +:+ LF +:+ img_tag
                     +:+ fstr txt +:+ "<|im_end|>")
     else if decide (role m = "assistant") then
       prompt ← text_parts (content m) prompt
                  (λ t, "<|im_start|>assistant" +:+ LF +:+ fstr t
                          +:+ "<|im_end|>");
       Ok (images, prompt)
     else if decide (role m = "system") then
       prompt ← text_parts (content m) prompt
                  (λ t, "<|im_start|>system" +:+ LF +:+ fstr t
                          +:+ "<|im_end|>");
       Ok (images, prompt)
     else Ok (images, prompt));
   Ok (images, prompt +:+ generation_msg)).

Definition gemma_prompt_from_messages (messages : list Message)
    (img_tok : string) : list Message * result (list Image * string) :=
  let '(messages, generation_msg) :=
    pop_trailing_assistant messages ("<start_of_turn>model" +:+ LF) in
  (messages,
   generation_msg ← generation_msg;
   '(images, prompt) ← for_each messages ([], "") (λ m '(images, prompt),
     if decide (role m = "user") then
       '(images, img_tag, txt) ←
         user_image_tag_and_text img_tok (content m) images;
       Ok (images, prompt +:+ "<start_of_turn>user" +:+ LF +:+ img_tag
                     +:+ fstr txt +:+ "<end_of_turn>")
     else if decide (role m = "assistant") then
       prompt ← text_parts (content m) prompt
                  (λ t, "<start_of_turn>model" +:+ LF +:+ fstr t
                          +:+ "<end_of_turn>");
       Ok (images, prompt)
     else if decide (role m = "system") then
       prompt ← text_parts (content m) prompt
                  (λ t, "<start_of_turn>system" +:+ LF +:+ fstr t
                          +:+ "<end_of_turn>");
       Ok (images, prompt)
     else Ok (images, prompt));
   Ok (images, prompt +:+ generation_msg)).

Definition fuyu_prompt_from_messages (messages : list Message)
    (img_tok img_end : string) : list Message * result (list Image * string) :=
  (messages,
   for_each messages ([], "") (λ m '(images, prompt),
     if decide (role m = "user") then
       '(images, p) ← user_prefixed_parts url_to_image img_tok img_end
                        (LF +:+ LF) (content m) images;
       Ok (images, prompt +:+ p)
     else if decide (role m = "assistant") then
       prompt ← text_parts (content m) prompt (λ t, EOT +:+ fstr t +:+ LF);
       Ok (images, prompt)
     else if decide (role m = "system") then
       prompt ← text_parts (content m) prompt (λ t, fstr t +:+ LF +:+ LF);
       Ok (images, prompt)
     else Ok (images, prompt))).

Definition emu_images_prompt_system_from_messages (messages : list Message)
    (img_tok : string)
  : list Message * result (list Image * string * option string) :=
  let '(messages, generation_msg) :=
    pop_trailing_assistant messages " [ASSISTANT]:" in
  (messages,
   generation_msg ← generation_msg;
   '(images, prompt, system_message) ←
     for_each messages ([], "", None) (λ m '(images, prompt, system_message),
       if decide (role m = "user") then
         '(images, img_tag, txt) ←
           user_image_tag_and_text img_tok (content m) images;
         Ok (images, prompt +:+ " [USER]: " +:+ img_tag +:+ fstr txt,
             system_message)
       else if decide (role m = "assistant") then
         prompt ← text_parts (content m) prompt
                    (λ t, " [ASSISTANT]: " +:+ fstr t +:+ "</s>");
         Ok (images, prompt, system_message)
       else if decide (role m = "system") then
         system_message ← for_content (content m) system_message
           (λ c system_message,
              match type c with
              | Ty_text => Ok (text c)
              | Ty_image_url => Ok system_message
              end);
         Ok (images, prompt, system_message)
       else Ok (images, prompt, system_message));
   Ok (images, prompt +:+ generation_msg, system_message)).

(** [[
    for c in m.content:
        if c.type == 'text':
            prompt += f"{head}{img_tag}{c.text}{tail}"
    ]] *)
Definition tagged_text_blocks (cnt : MessageContent) (head img_tag tail : string)
    (prompt : string) : result string :=
  text_parts cnt prompt (λ t, head +:+ img_tag +:+ fstr t +:+ tail).

Definition phi3_prompt_from_messages (messages : list Message)
  : list Message * result (list Image * string) :=
  (* img_tok is held at its default "<image>\n", on which .format(n) has
     nothing to substitute; the counter n is kept all the same *)
  let img_tok := "<image>" +:+ LF in
  let '(messages, generation_msg) :=
    pop_trailing_assistant messages ("<|assistant|>" +:+ LF) in
  (messages,
   generation_msg ← generation_msg;
   '(n, images, prompt) ← for_each messages (1%Z, [], "")
     (λ m '(n, images, prompt),
       '(n, images, img_tag) ← for_content (content m) (n, images, "")
         (λ c '(n, images, img_tag),
            match type c with
            | Ty_image_url =>
                u ← image_url_url c;
                img ← url_to_image u;
                Ok ((n + 1)%Z, images ++ [img], img_tag +:+ img_tok)
            | Ty_text => Ok (n, images, img_tag)
            end);
       prompt ← tagged_text_blocks (content m)
                  ("<|" +:+ role m +:+ "|>" +:+ LF) img_tag
                  ("<|end|>" +:+ LF) prompt;
       Ok (n, images, prompt));
   Ok (images, prompt +:+ generation_msg)).

Definition phintern_prompt_from_messages (messages : list Message)
    (img_tok : string) : list Message * result (list Image * string) :=
  let '(messages, generation_msg) :=
    pop_trailing_assistant messages ("<s><|assistant|>" +:+ LF) in
  (messages,
   generation_msg ← generation_msg;
   '(images, prompt) ← for_each messages ([], "") (λ m '(images, prompt),
     if decide (role m = "user") then
       '(images, img_tag, txt) ←
         user_image_tag_and_text img_tok (content m) images;
       Ok (images, prompt +:+ "<s><|user|>" +:+ LF +:+ img_tag +:+ fstr txt
                     +:+ "<|end|>")
     else if decide (role m = "assistant") then
       prompt ← text_parts (content m) prompt
                  (λ t, "<s><|assistant|>" +:+ LF +:+ fstr t +:+ "<|end|>");
       Ok (images, prompt)
     else Ok (images, prompt));
   Ok (images, prompt +:+ generation_msg)).

Definition falcon_prompt_from_messages (messages : list Message)
    (img_tok : string) : list Message * result (list Image * string) :=
  let '(messages, generation_msg) :=
    pop_trailing_assistant messages "Falcon:" in
  (messages,
   generation_msg ← generation_msg;
   '(images, prompt) ← for_each messages ([], "") (λ m '(images, prompt),
     if decide (role m = "user") then
       '(images, img_tag, txt) ←
         user_image_tag_and_text img_tok (content m) images;
       Ok (images, prompt +:+ "User:" +:+ img_tag +:+ fstr txt +:+ " ")
     else if decide (role m = "assistant") then
       prompt ← text_parts (content m) prompt (λ t, "Falcon:" +:+ fstr t);
       Ok (images, prompt)
     else if decide (role m = "system") then
       prompt ← text_parts (content m) prompt (λ t, fstr t +:+ LF +:+ LF);
       Ok (images, prompt)
     else Ok (images, prompt));
   Ok (images, prompt +:+ generation_msg)).

(** Returns [(prompt, history, images, system_prompt)]. *)
Definition prompt_history_images_system_from_messages
    (messages : list Message) (img_tok : string)
    (url_handler : string → result Image)
  : list Message
    * result (string * list (string * option string) * list Image
              * option string) :=
  (messages,
   for_each messages ("", [], [], None)
     (λ m '(prompt, history, images, system_prompt),
       if decide (role m = "user") then
         '(images, p) ← for_content (content m) (images, "")
           (λ c '(images, p),
              match type c with
              | Ty_image_url =>
                  u ← image_url_url c;
                  image ← url_handler u;
                  Ok (images ++ [image], img_tok +:+ p)
              | Ty_text => p ← str_iadd p (text c); Ok (images, p)
              end);
         Ok (prompt +:+ p, history, images, system_prompt)
       else if decide (role m = "assistant") then
         '(prompt, history) ← for_content (content m) (prompt, history)
           (λ c '(prompt, history),
              match type c with
              | Ty_text => Ok ("", history ++ [(prompt, text c)])
              | Ty_image_url => Ok (prompt, history)
              end);
         Ok (prompt, history, images, system_prompt)
       else if decide (role m = "system") then
         system_prompt ← for_content (content m) system_prompt
           (λ c system_prompt,
              match type c with
              | Ty_text => Ok (text c)
              | Ty_image_url => Ok system_prompt
              end);
         Ok (prompt, history, images, system_prompt)
       else Ok (prompt, history, images, system_prompt))).

Definition glm4v_prompt_from_messages (messages : list Message)
    (img_tok : string) (url_handler : string → result Image)
  : list Message * result (list Image * string) :=
  let '(messages, generation_msg) :=
    pop_trailing_assistant messages ("<|assistant|>" +:+ LF) in
  (messages,
   generation_msg ← generation_msg;
   '(images, prompt) ← for_each messages ([], "[gMASK]<sop>")
     (λ m '(images, prompt),
       let metadata := "" in
       '(images, img_tag) ←
         image_tags url_handler img_tok (content m) images;
       prompt ← tagged_text_blocks (content m)
                  ("<|" +:+ role m +:+ "|>" +:+ metadata +:+ LF) img_tag ""
                  prompt;
       Ok (images, prompt));
   Ok (images, prompt +:+ generation_msg)).

Definition florence_prompt_from_messages (messages : list Message)
    (url_handler : string → result Image)
  : list Message * result (list Image * string) :=
  (messages,
   for_each messages ([], "<MORE_DETAILED_CAPTION>") (λ m '(images, prompt),
     '(images, _) ← image_tags url_handler "" (content m) images;
     prompt ← for_content (content m) prompt (λ c prompt,
       match type c with
       | Ty_text =>
           match text c with
           | Some (String a t) => Ok (String a t)  (* c.text is truthy *)
           | _ => Ok prompt
           end
       | Ty_image_url => Ok prompt
       end);
     Ok (images, prompt))).

(** [[
    if messages and messages[-1].role == 'user':
        last_message = messages[-1].content[0].text
        messages.pop(-1)
    ]] *)
Definition pop_trailing_user (messages : list Message)
    (last_message : option string)
  : list Message * result (option string) :=
  match last messages with
  | Some m =>
      if decide (role m = "user") then
        match content0_text m with
        | Ok last_message => (removelast messages, Ok last_message)
        | Raise e => (messages, Raise e)
        end
      else (messages, Ok last_message)
  | None => (messages, Ok last_message)
  end.

(** [a + b] where either operand may be [None]. *)
Definition opt_add (a b : option string) : result string :=
  match a, b with
  | Some a, Some b => Ok (a +:+ b)
  | _, _ => Raise TypeError
  end.

(** The [url_handler] keyword is accepted and never used; [last_message]
    is assembled and then dropped: the function returns
    [prompt + generation_msg]. *)
Definition pixtral_prompt_from_messages (messages : list Message)
    (img_tok : string) (url_handler : string → result Image)
  : list Message * result (list Image * string) :=
  let '(messages, generation_msg) := pop_trailing_assistant messages "" in
  match generation_msg with
  | Raise e => (messages, Raise e)
  | Ok generation_msg =>
    let '(messages, last_message) := pop_trailing_user messages (Some "") in
    (messages,
     last_message ← last_message;
     '(images, prompt, system_prompt) ←
       for_each messages ([], "<s>", None) (λ m '(images, prompt, system_prompt),
         if decide (role m = "user") then
           '(images, img_tag, txt) ←
             user_image_tag_and_text img_tok (content m) images;
           Ok (images, prompt +:+ "[INST] " +:+ fstr txt +:+ img_tag
                         +:+ " [/INST]", system_prompt)
         else if decide (role m = "assistant") then
           prompt ← text_parts (content m) prompt (λ t, " " +:+ fstr t);
           Ok (images, prompt, system_prompt)
         else if decide (role m = "system") then
           system_prompt ← for_content (content m) system_prompt
             (λ c system_prompt,
                match type c with
                | Ty_text => Some <$> opt_add system_prompt (text c)
                | Ty_image_url => Ok system_prompt
                end);
           Ok (images, prompt, system_prompt)
         else Ok (images, prompt, system_prompt));
     last_message ←
       match system_prompt with
       | Some (String a s) =>
           Some <$> opt_add (Some (String a s +:+ LF +:+ LF)) last_message
       | _ => Ok last_message
       end;
     last_message ← opt_add (Some "[INST] ") last_message;
     let last_message := last_message +:+ " [/INST]" in
     let last_message :=
       match generation_msg with
       | String _ _ => last_message +:+ generation_msg
       | EmptyString => last_message
       end in
     Ok (images, prompt +:+ generation_msg))
  end.

(** One entry of an [hfmessages] content list:
    [{"type": "image"}] or [{'type': 'text', 'text': c.text}]. *)
Inductive hf_part :=
| HfImage
| HfText (t : option string).

Definition images_hfmessages_from_messages (messages : list Message)
    (url_handler : string → result Image)
  : list Message * result (list Image * list (string * list hf_part)) :=
  (messages,
   for_each messages ([], []) (λ m '(images, hfmessages),
     '(images, cnt) ← for_content (content m) (images, [])
       (λ c '(images, cnt),
          match type c with
          | Ty_image_url =>
              u ← image_url_url c;
              image ← url_handler u;
              Ok (images ++ [image], cnt ++ [HfImage])
          | Ty_text => Ok (images, cnt ++ [HfText (text c)])
          end);
     Ok (images, hfmessages ++ [(role m, cnt)]))).

(** ** Registry and dispatcher *)

(** The entries of the dict literal [known_formats], in source order. *)
Definition known_formats_items
  : list (string
          * (list Message → list Message * result (list Image * string))) :=
  [ ("chatml", λ messages, chatml_prompt_from_messages messages ("<image>" +:+ LF));
    ("falcon", λ messages, falcon_prompt_from_messages messages ("<image>" +:+ LF));
    ("florence", λ messages, florence_prompt_from_messages messages url_to_image);
    ("fuyu", λ messages, fuyu_prompt_from_messages messages "" "");
    ("gemma", λ messages, gemma_prompt_from_messages messages ("<image>" +:+ LF));
    ("glm4v", λ messages, glm4v_prompt_from_messages messages
                "<|begin_of_image|><|endoftext|><|end_of_image|>" url_to_image);
    ("llama2", λ messages, llama2_prompt_from_messages messages ("<image>" +:+ LF));
    ("llama3", λ messages, llama3_prompt_from_messages messages "<image>");
    ("mistral", λ messages, llama2_prompt_from_messages messages ("<image>" +:+ LF));
    ("phi15", λ messages, phi15_prompt_from_messages messages "" url_to_image);
    ("phi3", λ messages, phi3_prompt_from_messages messages);
    ("phintern", λ messages, phintern_prompt_from_messages messages ("<image>" +:+ LF));
    ("pixtral", λ messages, pixtral_prompt_from_messages messages "[IMG]" url_to_image);
    ("vicuna", λ messages, vicuna_prompt_from_messages messages ("<image>" +:+ LF));
    ("vicuna0", λ messages, vicuna0_prompt_from_messages messages
                  ("<image_placeholder>" +:+ LF)) ].

Definition known_formats
  : gmap string (list Message → list Message * result (list Image * string)) :=
  list_to_map known_formats_items.

Definition prompt_from_messages (messages : list Message) (format : string)
  : list Message * result (list Image * string) :=
  match known_formats !! format with
  | None => (messages, Raise (ValueError ("Unknown format: " +:+ format)))
  | Some f => f messages
  end.

(** ** The format functions as one family

    [call f messages] is the Python call [f(messages)] with every keyword at
    its default: the caller's list afterwards, and the images and the
    prompt string returned ([None] for the variant that returns structured
    messages). *)
Inductive format_function :=
| Phi15 | Vicuna0 | Vicuna | Llama2 | Llama3 | Chatml | Gemma | Fuyu | Emu
| Phi3 | Phintern | Falcon | PromptHistory | Glm4v | Florence | Pixtral
| HfMessages.

#[global] Instance format_function_eq_dec : EqDecision format_function.
Proof. solve_decision. Defined.

Definition with_prompt {X} (get : X → list Image * option string)
    (r : list Message * result X)
  : list Message * result (list Image * option string) :=
  (r.1, get <$> r.2).

Definition call (f : format_function) (messages : list Message)
  : list Message * result (list Image * option string) :=
  let plain := with_prompt (λ '(images, prompt), (images, Some prompt)) in
  match f with
  | Phi15 => plain (phi15_prompt_from_messages messages "" url_to_image)
  | Vicuna0 =>
      plain (vicuna0_prompt_from_messages messages ("<image_placeholder>" +:+ LF))
  | Vicuna => plain (vicuna_prompt_from_messages messages ("<image>" +:+ LF))
  | Llama2 => plain (llama2_prompt_from_messages messages ("<image>" +:+ LF))
  | Llama3 => plain (llama3_prompt_from_messages messages "<image>")
  | Chatml => plain (chatml_prompt_from_messages messages ("<image>" +:+ LF))
  | Gemma => plain (gemma_prompt_from_messages messages ("<image>" +:+ LF))
  | Fuyu => plain (fuyu_prompt_from_messages messages "" "")
  | Emu =>
      with_prompt (λ '(images, prompt, _), (images, Some prompt))
        (emu_images_prompt_system_from_messages messages "[<IMG_PLH>]")
  | Phi3 => plain (phi3_prompt_from_messages messages)
  | Phintern => plain (phintern_prompt_from_messages messages ("<image>" +:+ LF))
  | Falcon => plain (falcon_prompt_from_messages messages ("<image>" +:+ LF))
  | PromptHistory =>
      with_prompt (λ '(prompt, _, images, _), (images, Some prompt))
        (prompt_history_images_system_from_messages messages
           ("<image>" +:+ LF) url_to_image)
  | Glm4v =>
      plain (glm4v_prompt_from_messages messages
               "<|begin_of_image|><|endoftext|><|end_of_image|>" url_to_image)
  | Florence => plain (florence_prompt_from_messages messages url_to_image)
  | Pixtral => plain (pixtral_prompt_from_messages messages "[IMG]" url_to_image)
  | HfMessages =>
      with_prompt (λ '(images, _), (images, None))
        (images_hfmessages_from_messages messages url_to_image)
  end.

(** The initial [generation_msg] of the functions that start with the
    trailing-assistant block; [None] for those that have no such block. *)
Definition generation_tag (f : format_function) : option string :=
  match f with
  | Phi15 => Some "Answer:"
  | Vicuna0 => Some "### Assistant:"
  | Vicuna => Some "ASSISTANT:"
  | Llama3 => Some ("<|start_header_id|>assistant<|end_header_id|>" +:+ LF +:+ LF)
  | Chatml => Some ("<|im_start|>assistant" +:+ LF)
  | Gemma => Some ("<start_of_turn>model" +:+ LF)
  | Emu => Some " [ASSISTANT]:"
  | Phi3 => Some ("<|assistant|>" +:+ LF)
  | Phintern => Some ("<s><|assistant|>" +:+ LF)
  | Falcon => Some "Falcon:"
  | Glm4v => Some ("<|assistant|>" +:+ LF)
  | Pixtral => Some ""
  | Llama2 | Fuyu | PromptHistory | Florence | HfMessages => None
  end.

(** What the trailing-assistant block leaves in the list when it does not
    raise. *)
Definition after_extraction (messages : list Message) : list Message :=
  match last messages with
  | Some m =>
      if decide (role m = "assistant") then removelast messages else messages
  | None => messages
  end.

(** The list a successful call of [f] leaves (pixtral apart). *)
Definition remaining (f : format_function) (messages : list Message)
  : list Message :=
  match generation_tag f with
  | Some _ => after_extraction messages
  | None => messages
  end.

(** Whether the function looks for images under the user role only (it
    branches on [m.role]) or in every message. *)
Definition images_from_user_only (f : format_function) : bool :=
  match f with
  | Llama3 | Phi3 | Glm4v | Florence | HfMessages => false
  | _ => true
  end.

(** A part counts when it is an [image_url] part. *)
Definition image_part (c : Content) : list Content :=
  match type c with
  | Ty_image_url => [c]
  | Ty_text => []
  end.

(** The [image_url] parts of one content, in order. *)
Definition image_parts (cnt : MessageContent) : list Content :=
  match cnt with
  | CList l => filter (λ c, type c = Ty_image_url) l
  | CStr _ => []
  end.

(** The [image_url] parts a role-dispatching walk meets in one message. *)
Definition user_image_parts (m : Message) : list Content :=
  if decide (role m = "user") then image_parts (content m) else [].

(** The [image_url] parts of a message list, message by message. *)
Definition image_parts_of (messages : list Message) : list Content :=
  messages ≫= (λ m, image_parts (content m)).

(** The messages [f] takes images from, among those it walks. *)
Definition image_scope (f : format_function) (messages : list Message)
  : list Message :=
  if images_from_user_only f then filter (λ m, role m = "user") messages
  else messages.

(** [img] is what the handler returns on [c.image_url.url]. *)
Definition resolves (url_handler : string → result Image) (c : Content)
    (img : Image) : Prop :=
  ∃ iu, image_url c = Some iu ∧ url_handler (url iu) = Ok img.

(** *** Requests on which nothing raises *)

(** An image part names a URL the loader resolves; a text part has a
    text. *)
Definition part_ok (c : Content) : Prop :=
  match type c with
  | Ty_image_url =>
      ∃ iu img, image_url c = Some iu ∧ url_to_image (url iu) = Ok img
  | Ty_text => is_Some (text c)
  end.

(** A repacked content made of such parts. *)
Definition content_ok (cnt : MessageContent) : Prop :=
  ∃ l, cnt = CList l ∧ Forall part_ok l.

(** A trailing assistant message opens with a part that has a text. *)
Definition trailing_ok (messages : list Message) : Prop :=
  ∀ m, last messages = Some m → role m = "assistant" →
       ∃ t, content0_text m = Ok (Some t).

(** The messages of the end-to-end example. *)
Definition example_system : Message :=
  {| role := "system"; content := CList [Text "Be terse."]; name := None |}.

Definition example_user (u : string) : Message :=
  {| role := "user"; content := CList [ImageRef u; Text "What is this?"];
     name := None |}.

(** *** What the loops compute, said directly *)

(** The loader on the URL of one part. *)
Definition resolve_part (url_handler : string → result Image) (c : Content)
  : result Image :=
  u ← image_url_url c; url_handler u.

(** The loader on each part in turn, stopping at the first that raises. *)
Fixpoint resolve_all (url_handler : string → result Image) (l : list Content)
  : result (list Image) :=
  match l with
  | [] => Ok []
  | c :: l' =>
      img ← resolve_part url_handler c;
      imgs ← resolve_all url_handler l';
      Ok (img :: imgs)
  end.

(** The [text] of the last text part, [init] when there is none. *)
Definition last_text (init : option string) (l : list Content)
  : option string :=
  foldl (λ acc c, match type c with Ty_text => text c | Ty_image_url => acc end)
    init l.

(** The last non-empty [text] of a text part, [init] when there is none. *)
Definition last_truthy_text (init : string) (l : list Content) : string :=
  foldl (λ acc c,
           match type c, text c with
           | Ty_text, Some (String a t) => String a t
           | _, _ => acc
           end) init l.

(** [n] copies of [tok], joined. *)
Definition repeat_string (tok : string) (n : nat) : string :=
  concat_strings (replicate n tok).

(** Every part of a message list, message by message (list contents). *)
Definition all_parts (messages : list Message) : list Content :=
  messages ≫= (λ m, match content m with CList l => l | CStr _ => [] end).


(** The [hfmessages] entry a part gives, and the one a conversation entry
    corresponds to. *)
Definition hf_of_part (c : Content) : hf_part :=
  match type c with
  | Ty_image_url => HfImage
  | Ty_text => HfText (text c)
  end.

Definition hf_of_conversation_part (p : conversation_part) : hf_part :=
  match p with
  | ConvImage _ => HfImage
  | ConvText t => HfText t
  end.

Definition is_HfImage (p : hf_part) : bool :=
  match p with
  | HfImage => true
  | HfText _ => false
  end.


(** The conversation entry a part gives. *)
Definition conversation_part_of (c : Content) : result conversation_part :=
  match type c with
  | Ty_image_url => ConvImage <$> image_url_url c
  | Ty_text => Ok (ConvText (text c))
  end.

(** [f] on each element in turn, stopping at the first that raises. *)
Fixpoint mapM_result {A B} (f : A → result B) (l : list A) : result (list B) :=
  match l with
  | [] => Ok []
  | x :: l' => y ← f x; ys ← mapM_result f l'; Ok (y :: ys)
  end.


(** Whether a part gives a chunk in [pixtral_messages]: an image part, or a
    text part with a non-empty text. *)
Definition gives_chunk (c : Content) : bool :=
  match type c, text c with
  | Ty_image_url, _ => true
  | Ty_text, Some (String _ _) => true
  | Ty_text, _ => false
  end.

(** The roles [pixtral_messages] has a message class for. *)
Definition mistral_role (m : Message) : bool :=
  bool_decide (role m = "user") || bool_decide (role m = "assistant")
  || bool_decide (role m = "system").

(** How a kept message and its Mistral counterpart correspond. *)
Definition mistral_message_of (m : Message) (pm : mistral_message) : Prop :=
  match pm with
  | UserMessage cnt =>
      role m = "user" ∧ length cnt = length (filter gives_chunk (parts_of m))
  | AssistantMessage t =>
      role m = "assistant" ∧ t = last_truthy_text "" (parts_of m)
  | SystemMessage t =>
      role m = "system" ∧ t = last_truthy_text "" (parts_of m)
  end.


(** The [text] parts of a content list, in order. *)
Definition text_parts_in (l : list Content) : list Content :=
  filter (λ c, type c = Ty_text) l.

(** What one message adds to [images] and to [prompt] under chatml: the
    body of the loop of [chatml_prompt_from_messages], run on empty
    [images] and an empty [prompt]. *)
Definition chatml_turn (img_tok : string) (m : Message)
  : result (list Image * string) :=
  if decide (role m = "user") then
    '(images, img_tag, txt) ←
      user_image_tag_and_text img_tok (content m) [];
    Ok (images, "<|im_start|>user" +:+ LF +:+ img_tag
                  +:+ fstr txt +:+ "<|im_end|>")
  else if decide (role m = "assistant") then
    prompt ← text_parts (content m) ""
               (λ t, "<|im_start|>assistant" +:+ LF +:+ fstr t
                       +:+ "<|im_end|>");
    Ok ([], prompt)
  else if decide (role m = "system") then
    prompt ← text_parts (content m) ""
               (λ t, "<|im_start|>system" +:+ LF +:+ fstr t
                       +:+ "<|im_end|>");
    Ok ([], prompt)
  else Ok ([], "").

(** * Properties *)

(** ** Generic facts about the loops *)

Lemma bind_Ok_inv {A B} (r : result A) (k : A → result B) (b : B) :
  (r ≫= k) = Ok b → ∃ a, r = Ok a ∧ k a = Ok b.
Proof. destruct r as [a|e]; simpl; [eauto | discriminate]. Qed.

Lemma fmap_Ok_inv {A B} (f : A → B) (r : result A) (b : B) :
  f <$> r = Ok b → ∃ a, r = Ok a ∧ b = f a.
Proof. destruct r as [a|e]; simpl; [intros [= <-]; eauto | discriminate]. Qed.

(** ** [url_to_image] *)

Lemma url_to_image_Ok_scheme (img_url : string) (img : Image) :
  url_to_image img_url = Ok img →
  startswith img_url "http" = true ∨ startswith img_url "data:" = true.
Proof.
  unfold url_to_image. intros H.
  destruct (startswith img_url "http"); [by left|].
  destruct (startswith img_url "data:"); [by right|].
  simpl in H. discriminate.
Qed.

(** C9. A URL that starts with neither "http" nor "data:" takes neither
    branch that assigns [img_data]; [url_to_image] then raises
    (UnboundLocalError) whatever the network, the data-URI decoder and the
    image decoder would do, and so never yields an image. *)
Theorem url_to_image_unsupported_scheme (img_url : string) :
  startswith img_url "http" = false →
  startswith img_url "data:" = false →
  url_to_image img_url = Raise UnboundLocalError
  ∧ ∀ img, url_to_image img_url ≠ Ok img.
Proof.
  intros Hhttp Hdata. unfold url_to_image.
  rewrite Hhttp, Hdata. simpl. split; [reflexivity | discriminate].
Qed.

(** ** The chatml example *)

(** C1. On [system: Be terse.] followed by [user: image, What is this?]
    the chatml function returns exactly the one decoded image, and a prompt
    that starts with the system block followed by the user block (image tag
    first) and ends with the assistant opening tag; the caller's list is
    left as it was, and the dispatcher under the name chatml gives the
    same. *)
Theorem chatml_end_to_end (u : string) (img : Image) :
  url_to_image u = Ok img →
  ∃ prompt,
    chatml_prompt_from_messages [example_system; example_user u]
      ("<image>" +:+ LF)
    = ([example_system; example_user u], Ok ([img], prompt))
    ∧ prompt_from_messages [example_system; example_user u] "chatml"
      = ([example_system; example_user u], Ok ([img], prompt))
    ∧ startswith prompt
        ("<|im_start|>system" +:+ LF +:+ "Be terse.<|im_end|>"
         +:+ "<|im_start|>user" +:+ LF +:+ "<image>" +:+ LF
         +:+ "What is this?<|im_end|>") = true
    ∧ endswith prompt ("<|im_start|>assistant" +:+ LF) = true.
Proof.
  intros Himg. eexists. split; [|split; [|split]].
  - unfold chatml_prompt_from_messages, example_user. simpl.
    rewrite Himg. simpl. reflexivity.
  - unfold prompt_from_messages.
    replace (known_formats !! "chatml") with
      (Some (λ messages : list Message,
               chatml_prompt_from_messages messages ("<image>" +:+ LF)))
      by reflexivity.
    unfold chatml_prompt_from_messages, example_user. simpl.
    rewrite Himg. simpl. reflexivity.
  - vm_compute. reflexivity.
  - vm_compute. reflexivity.
Qed.

(** ** The dispatcher *)

Lemma prefix_app (a b : string) : String.prefix a (a +:+ b) = true.
Proof.
  induction a as [|c a IH]; simpl; [by destruct b|].
  destruct (ascii_dec c c); [exact IH | congruence].
Qed.

Lemma append_nil_r (a : string) : a +:+ "" = a.
Proof. induction a; simpl; congruence. Qed.

Lemma append_assoc (a b c : string) : (a +:+ b) +:+ c = a +:+ (b +:+ c).
Proof. induction a; simpl; congruence. Qed.

Lemma endswith_refl (b : string) : endswith b b = true.
Proof.
  destruct b as [|c b]; [done|].
  change (String.eqb (String c b) (String c b) || endswith b (String c b) = true).
  by rewrite String.eqb_refl.
Qed.

Lemma endswith_app (a b : string) : endswith (a +:+ b) b = true.
Proof.
  induction a as [|c a IH]; simpl.
  - apply endswith_refl.
  - rewrite IH. apply orb_true_r.
Qed.

Lemma known_formats_absent (format : string) :
  known_formats !! format = None ↔ format ∉ known_formats_items.*1.
Proof.
  unfold known_formats. split.
  - apply not_elem_of_list_to_map_2.
  - apply not_elem_of_list_to_map_1.
Qed.

(** C4. A format name that is not a key of [known_formats] makes
    [prompt_from_messages] raise ValueError with the message
    "Unknown format: " followed by that very name, the messages untouched;
    a name that is a key runs the function stored under it, and the table
    is the one of the source (mistral shares llama2). *)
Theorem prompt_from_messages_dispatch (messages : list Message)
    (format : string) :
  (known_formats !! format = None →
     (format ∉ known_formats_items.*1)
     ∧ prompt_from_messages messages format
       = (messages, Raise (ValueError ("Unknown format: " +:+ format)))
     ∧ endswith ("Unknown format: " +:+ format) format = true)
  ∧ (∀ f, known_formats !! format = Some f →
       prompt_from_messages messages format = f messages)
  ∧ prompt_from_messages messages "chatml"
    = chatml_prompt_from_messages messages ("<image>" +:+ LF)
  ∧ prompt_from_messages messages "falcon"
    = falcon_prompt_from_messages messages ("<image>" +:+ LF)
  ∧ prompt_from_messages messages "florence"
    = florence_prompt_from_messages messages url_to_image
  ∧ prompt_from_messages messages "fuyu"
    = fuyu_prompt_from_messages messages "" ""
  ∧ prompt_from_messages messages "gemma"
    = gemma_prompt_from_messages messages ("<image>" +:+ LF)
  ∧ prompt_from_messages messages "glm4v"
    = glm4v_prompt_from_messages messages
        "<|begin_of_image|><|endoftext|><|end_of_image|>" url_to_image
  ∧ prompt_from_messages messages "llama2"
    = llama2_prompt_from_messages messages ("<image>" +:+ LF)
  ∧ prompt_from_messages messages "llama3"
    = llama3_prompt_from_messages messages "<image>"
  ∧ prompt_from_messages messages "mistral"
    = llama2_prompt_from_messages messages ("<image>" +:+ LF)
  ∧ prompt_from_messages messages "phi15"
    = phi15_prompt_from_messages messages "" url_to_image
  ∧ prompt_from_messages messages "phi3"
    = phi3_prompt_from_messages messages
  ∧ prompt_from_messages messages "phintern"
    = phintern_prompt_from_messages messages ("<image>" +:+ LF)
  ∧ prompt_from_messages messages "pixtral"
    = pixtral_prompt_from_messages messages "[IMG]" url_to_image
  ∧ prompt_from_messages messages "vicuna"
    = vicuna_prompt_from_messages messages ("<image>" +:+ LF)
  ∧ prompt_from_messages messages "vicuna0"
    = vicuna0_prompt_from_messages messages ("<image_placeholder>" +:+ LF).
Proof.
  split; [|split].
  - intros Hnone. split; [by apply known_formats_absent|].
    unfold prompt_from_messages. rewrite Hnone.
    split; [reflexivity | apply endswith_app].
  - intros f Hf. unfold prompt_from_messages. by rewrite Hf.
  - repeat split; reflexivity.
Qed.

(** ** Where the returned images come from *)

Lemma for_each_app {A S} (l1 l2 : list A) (st : S) (body : A → S → result S) :
  for_each (l1 ++ l2) st body
  = (st' ← for_each l1 st body; for_each l2 st' body).
Proof.
  revert st. induction l1 as [|x l1 IH]; intros st; simpl; [done|].
  destruct (body x st) as [st1|e]; simpl; [apply IH | done].
Qed.

(** A loop whose body, on success, extends the image list by what the
    handler returns on the [image_url] parts selected by [parts]. *)
Lemma for_each_images {A S} (proj : S → list Image)
    (url_handler : string → result Image) (parts : A → list Content)
    (body : A → S → result S) (l : list A) (st st' : S) :
  (∀ x s s', body x s = Ok s' →
     ∃ new, proj s' = proj s ++ new
            ∧ Forall2 (resolves url_handler) (parts x) new) →
  for_each l st body = Ok st' →
  ∃ new, proj st' = proj st ++ new
         ∧ Forall2 (resolves url_handler) (l ≫= parts) new.
Proof.
  intros Hbody. revert st. induction l as [|x l IH]; intros st Hrun.
  - injection Hrun as <-. exists []. by rewrite app_nil_r.
  - simpl in Hrun. apply bind_Ok_inv in Hrun as (s1 & Hx & Hrest).
    destruct (Hbody _ _ _ Hx) as (new1 & Heq1 & Hall1).
    destruct (IH _ Hrest) as (new2 & Heq2 & Hall2).
    exists (new1 ++ new2). split.
    + by rewrite Heq2, Heq1, app_assoc.
    + simpl. by apply Forall2_app.
Qed.

Lemma image_parts_bind (l : list Content) :
  image_parts (CList l) = l ≫= image_part.
Proof.
  unfold image_parts. induction l as [|c l IH]; [done|].
  rewrite filter_cons, IH.
  change ((c :: l) ≫= image_part) with (image_part c ++ (l ≫= image_part)).
  destruct (decide (type c = Ty_image_url)) as [Heq|Hne];
    unfold image_part at 2.
  - by rewrite Heq.
  - by destruct (type c).
Qed.

Lemma for_content_images {S} (proj : S → list Image)
    (url_handler : string → result Image)
    (body : Content → S → result S) (cnt : MessageContent) (st st' : S) :
  (∀ c s s', body c s = Ok s' →
     ∃ new, proj s' = proj s ++ new
            ∧ Forall2 (resolves url_handler) (image_part c) new) →
  for_content cnt st body = Ok st' →
  ∃ new, proj st' = proj st ++ new
         ∧ Forall2 (resolves url_handler) (image_parts cnt) new.
Proof.
  intros Hbody Hrun. destruct cnt as [s|l].
  - destruct s; simpl in Hrun; [|discriminate].
    injection Hrun as <-. exists []. by rewrite app_nil_r.
  - rewrite image_parts_bind. by eapply for_each_images.
Qed.

Lemma resolves_intro (url_handler : string → result Image) (c : Content)
    (u : string) (img : Image) :
  image_url_url c = Ok u → url_handler u = Ok img → resolves url_handler c img.
Proof.
  unfold image_url_url. destruct (image_url c) as [iu|] eqn:Hiu; [|done].
  intros [= <-] Himg. by exists iu.
Qed.

(** Inversion of a successful run, one bind at a time. *)
Ltac inv_ok :=
  repeat match goal with
  | H : mbind _ _ = Ok _ |- _ =>
      let a := fresh "a" in let Ha := fresh "Ha" in
      apply bind_Ok_inv in H as (a & Ha & H)
  | H : fmap _ _ = Ok _ |- _ =>
      let a := fresh "a" in let Ha := fresh "Ha" in
      apply fmap_Ok_inv in H as (a & Ha & H)
  | H : Ok _ = Ok _ |- _ => injection H as H
  | H : (_, _) = (_, _) |- _ => injection H as H
  | H : Raise _ = Ok _ |- _ => discriminate H
  | x : (_ * _)%type |- _ => destruct x
  | H : _ = Ok _ |- _ => progress cbv beta iota zeta in H
  end.

(** A body that leaves the images alone. *)
Ltac images_unchanged :=
  simpl; subst; eexists []; rewrite app_nil_r; split; [reflexivity|constructor].

(** One part of a content loop: a text part adds no image, an image part
    adds the one the handler returns. *)
Ltac content_part_images :=
  let c := fresh "c" in let Hc := fresh "Hc" in let Hty := fresh "Hty" in
  intros c ? ? Hc; unfold image_part;
  destruct (type c) eqn:Hty; inv_ok;
  [ images_unchanged
  | simpl; subst; eexists [_]; split; [reflexivity|];
    constructor; [by eapply resolves_intro | constructor] ].

Lemma user_image_tag_and_text_images img_tok cnt images images' img_tag txt :
  user_image_tag_and_text img_tok cnt images = Ok (images', img_tag, txt) →
  ∃ new, images' = images ++ new
         ∧ Forall2 (resolves url_to_image) (image_parts cnt) new.
Proof.
  intros Hrun.
  apply (for_content_images (λ s, s.1.1) url_to_image) in Hrun; [done|].
  content_part_images.
Qed.

Lemma user_prefixed_parts_images url_handler img_tok img_end sep cnt
    images images' p :
  user_prefixed_parts url_handler img_tok img_end sep cnt images
  = Ok (images', p) →
  ∃ new, images' = images ++ new
         ∧ Forall2 (resolves url_handler) (image_parts cnt) new.
Proof.
  intros Hrun.
  apply (for_content_images fst url_handler) in Hrun; [done|].
  content_part_images.
Qed.

Lemma image_tags_images url_handler img_tok cnt images images' img_tag :
  image_tags url_handler img_tok cnt images = Ok (images', img_tag) →
  ∃ new, images' = images ++ new
         ∧ Forall2 (resolves url_handler) (image_parts cnt) new.
Proof.
  intros Hrun.
  apply (for_content_images fst url_handler) in Hrun; [done|].
  content_part_images.
Qed.

(** The parts a role-dispatching walk takes images from. *)
Lemma bind_user_parts (ms : list Message) :
  ms ≫= user_image_parts
  = image_parts_of (filter (λ m, role m = "user") ms).
Proof.
  unfold image_parts_of. induction ms as [|m ms IH]; [done|].
  rewrite filter_cons.
  change ((m :: ms) ≫= user_image_parts)
    with (user_image_parts m ++ (ms ≫= user_image_parts)).
  rewrite IH. unfold user_image_parts.
  by destruct (decide (role m = "user")).
Qed.

(** The walk of a function that branches on the role. *)
Ltac role_walk_images :=
  let m := fresh "m" in let Hm := fresh "Hm" in
  intros m ? ? Hm; unfold user_image_parts; inv_ok;
  destruct (decide (role m = "user"));
  [ inv_ok; subst;
    first [ by eapply user_image_tag_and_text_images
          | by eapply user_prefixed_parts_images ]
  | repeat case_decide; inv_ok; images_unchanged ].

(** From the successful outer loop to the images it gathered. *)
Ltac walk_images proj handler parts :=
  match goal with
  | H : for_each _ _ _ = Ok _ |- _ =>
      apply (for_each_images proj handler parts) in H;
      [ let new := fresh "new" in let Heq := fresh "Heq" in
        let Hall := fresh "Hall" in
        destruct H as (new & Heq & Hall); simpl in Heq; subst;
        try rewrite bind_user_parts in Hall; exact Hall
      | ]
  end.

Lemma chatml_images messages img_tok messages' images prompt :
  chatml_prompt_from_messages messages img_tok
  = (messages', Ok (images, prompt)) →
  Forall2 (resolves url_to_image)
    (image_parts_of (filter (λ m, role m = "user") messages')) images.
Proof.
  unfold chatml_prompt_from_messages.
  destruct (pop_trailing_assistant messages _) as [ms g]. intros H.
  inv_ok. subst. walk_images (@fst (list Image) string) url_to_image user_image_parts.
  role_walk_images.
Qed.

(** The functions that open with the trailing-assistant block and branch
    on the role. *)
Ltac popping_role_function f :=
  unfold f;
  match goal with
  | |- context [pop_trailing_assistant ?ms ?g] =>
      destruct (pop_trailing_assistant ms g) as [? ?]
  end;
  let H := fresh "H" in
  intros H; inv_ok; subst;
  walk_images (@fst (list Image) string) url_to_image user_image_parts;
  role_walk_images.

Lemma vicuna0_images messages img_tok messages' images prompt :
  vicuna0_prompt_from_messages messages img_tok
  = (messages', Ok (images, prompt)) →
  Forall2 (resolves url_to_image)
    (image_parts_of (filter (λ m, role m = "user") messages')) images.
Proof. popping_role_function vicuna0_prompt_from_messages. Qed.

Lemma vicuna_images messages img_tok messages' images prompt :
  vicuna_prompt_from_messages messages img_tok
  = (messages', Ok (images, prompt)) →
  Forall2 (resolves url_to_image)
    (image_parts_of (filter (λ m, role m = "user") messages')) images.
Proof. popping_role_function vicuna_prompt_from_messages. Qed.

Lemma gemma_images messages img_tok messages' images prompt :
  gemma_prompt_from_messages messages img_tok
  = (messages', Ok (images, prompt)) →
  Forall2 (resolves url_to_image)
    (image_parts_of (filter (λ m, role m = "user") messages')) images.
Proof. popping_role_function gemma_prompt_from_messages. Qed.

Lemma phintern_images messages img_tok messages' images prompt :
  phintern_prompt_from_messages messages img_tok
  = (messages', Ok (images, prompt)) →
  Forall2 (resolves url_to_image)
    (image_parts_of (filter (λ m, role m = "user") messages')) images.
Proof. popping_role_function phintern_prompt_from_messages. Qed.

Lemma falcon_images messages img_tok messages' images prompt :
  falcon_prompt_from_messages messages img_tok
  = (messages', Ok (images, prompt)) →
  Forall2 (resolves url_to_image)
    (image_parts_of (filter (λ m, role m = "user") messages')) images.
Proof. popping_role_function falcon_prompt_from_messages. Qed.

Lemma phi15_images messages img_end url_handler messages' images prompt :
  phi15_prompt_from_messages messages img_end url_handler
  = (messages', Ok (images, prompt)) →
  Forall2 (resolves url_handler)
    (image_parts_of (filter (λ m, role m = "user") messages')) images.
Proof.
  unfold phi15_prompt_from_messages.
  destruct (pop_trailing_assistant messages _) as [ms g]. intros H.
  inv_ok. subst.
  walk_images (@fst (list Image) string) url_handler user_image_parts.
  role_walk_images.
Qed.

Lemma llama2_images messages img_tok messages' images prompt :
  llama2_prompt_from_messages messages img_tok
  = (messages', Ok (images, prompt)) →
  messages' = messages
  ∧ Forall2 (resolves url_to_image)
      (image_parts_of (filter (λ m, role m = "user") messages')) images.
Proof.
  unfold llama2_prompt_from_messages. intros H. inv_ok. subst.
  split; [done|].
  walk_images (@fst (list Image) string) url_to_image user_image_parts.
  role_walk_images.
Qed.

Lemma fuyu_images messages img_tok img_end messages' images prompt :
  fuyu_prompt_from_messages messages img_tok img_end
  = (messages', Ok (images, prompt)) →
  messages' = messages
  ∧ Forall2 (resolves url_to_image)
      (image_parts_of (filter (λ m, role m = "user") messages')) images.
Proof.
  unfold fuyu_prompt_from_messages. intros H. inv_ok. subst.
  split; [done|].
  walk_images (@fst (list Image) string) url_to_image user_image_parts.
  role_walk_images.
Qed.

Lemma emu_images messages img_tok messages' images prompt system_message :
  emu_images_prompt_system_from_messages messages img_tok
  = (messages', Ok (images, prompt, system_message)) →
  Forall2 (resolves url_to_image)
    (image_parts_of (filter (λ m, role m = "user") messages')) images.
Proof.
  unfold emu_images_prompt_system_from_messages.
  destruct (pop_trailing_assistant messages _) as [ms g]. intros H.
  inv_ok. subst.
  walk_images (λ s : list Image * string * option string, s.1.1)
    url_to_image user_image_parts.
  role_walk_images.
Qed.

Lemma pixtral_images messages img_tok url_handler messages' images prompt :
  pixtral_prompt_from_messages messages img_tok url_handler
  = (messages', Ok (images, prompt)) →
  Forall2 (resolves url_to_image)
    (image_parts_of (filter (λ m, role m = "user") messages')) images.
Proof.
  unfold pixtral_prompt_from_messages.
  destruct (pop_trailing_assistant messages _) as [ms [g|e]];
    [|intros H; inv_ok].
  destruct (pop_trailing_user ms _) as [ms2 lm]. intros H.
  inv_ok. subst.
  walk_images (λ s : list Image * string * option string, s.1.1)
    url_to_image user_image_parts.
  role_walk_images.
Qed.

Lemma prompt_history_images messages img_tok url_handler messages'
    prompt history images system_prompt :
  prompt_history_images_system_from_messages messages img_tok url_handler
  = (messages', Ok (prompt, history, images, system_prompt)) →
  messages' = messages
  ∧ Forall2 (resolves url_handler)
      (image_parts_of (filter (λ m, role m = "user") messages')) images.
Proof.
  unfold prompt_history_images_system_from_messages. intros H. inv_ok. subst.
  split; [done|].
  walk_images
    (λ s : string * list (string * option string) * list Image * option string,
       s.1.2) url_handler user_image_parts.
  intros m ? ? Hm. unfold user_image_parts. inv_ok.
  destruct (decide (role m = "user")).
  - inv_ok. subst. simpl.
    match goal with
    | H : for_content _ _ _ = Ok _ |- _ =>
        apply (for_content_images fst url_handler) in H; [exact H|]
    end.
    content_part_images.
  - repeat case_decide; inv_ok; images_unchanged.
Qed.


(** The walk of a function that reads every message alike. *)
Lemma llama3_images messages img_tok messages' images prompt :
  llama3_prompt_from_messages messages img_tok
  = (messages', Ok (images, prompt)) →
  Forall2 (resolves url_to_image) (image_parts_of messages') images.
Proof.
  unfold llama3_prompt_from_messages.
  destruct (pop_trailing_assistant messages _) as [ms g]. intros H.
  inv_ok. subst.
  walk_images (@fst (list Image) string) url_to_image
    (λ m, image_parts (content m)).
  intros m ? ? Hm. inv_ok. subst. by eapply image_tags_images.
Qed.

Lemma glm4v_images messages img_tok url_handler messages' images prompt :
  glm4v_prompt_from_messages messages img_tok url_handler
  = (messages', Ok (images, prompt)) →
  Forall2 (resolves url_handler) (image_parts_of messages') images.
Proof.
  unfold glm4v_prompt_from_messages.
  destruct (pop_trailing_assistant messages _) as [ms g]. intros H.
  inv_ok. subst.
  walk_images (@fst (list Image) string) url_handler
    (λ m, image_parts (content m)).
  intros m ? ? Hm. inv_ok. subst. by eapply image_tags_images.
Qed.

Lemma florence_images messages url_handler messages' images prompt :
  florence_prompt_from_messages messages url_handler
  = (messages', Ok (images, prompt)) →
  messages' = messages
  ∧ Forall2 (resolves url_handler) (image_parts_of messages') images.
Proof.
  unfold florence_prompt_from_messages. intros H. inv_ok. subst.
  split; [done|].
  walk_images (@fst (list Image) string) url_handler
    (λ m, image_parts (content m)).
  intros m ? ? Hm. inv_ok. subst. by eapply image_tags_images.
Qed.

Lemma phi3_images messages messages' images prompt :
  phi3_prompt_from_messages messages = (messages', Ok (images, prompt)) →
  Forall2 (resolves url_to_image) (image_parts_of messages') images.
Proof.
  unfold phi3_prompt_from_messages.
  destruct (pop_trailing_assistant messages _) as [ms g]. intros H.
  inv_ok. subst.
  walk_images (λ s : Z * list Image * string, s.1.2) url_to_image
    (λ m, image_parts (content m)).
  intros m ? ? Hm. inv_ok. subst. simpl.
  match goal with
  | H : for_content _ _ _ = Ok _ |- _ =>
      apply (for_content_images (λ s : Z * list Image * string, s.1.2)
               url_to_image) in H; [exact H|]
  end.
  content_part_images.
Qed.

Lemma images_hfmessages_images messages url_handler messages' images hf :
  images_hfmessages_from_messages messages url_handler
  = (messages', Ok (images, hf)) →
  messages' = messages
  ∧ Forall2 (resolves url_handler) (image_parts_of messages') images.
Proof.
  unfold images_hfmessages_from_messages. intros H. inv_ok. subst.
  split; [done|].
  walk_images (@fst (list Image) (list (string * list hf_part))) url_handler
    (λ m, image_parts (content m)).
  intros m ? ? Hm. inv_ok. subst. simpl.
  match goal with
  | H : for_content _ _ _ = Ok _ |- _ =>
      apply (for_content_images fst url_handler) in H; [exact H|]
  end.
  content_part_images.
Qed.


(** ** The trailing-assistant block *)

Ltac unfold_format_function :=
  unfold phi15_prompt_from_messages, vicuna0_prompt_from_messages,
    vicuna_prompt_from_messages, llama2_prompt_from_messages,
    llama3_prompt_from_messages, chatml_prompt_from_messages,
    gemma_prompt_from_messages, fuyu_prompt_from_messages,
    emu_images_prompt_system_from_messages, phi3_prompt_from_messages,
    phintern_prompt_from_messages, falcon_prompt_from_messages,
    prompt_history_images_system_from_messages, glm4v_prompt_from_messages,
    florence_prompt_from_messages, pixtral_prompt_from_messages,
    images_hfmessages_from_messages.

Lemma pop_trailing_assistant_spec (messages : list Message) (g : string) :
  pop_trailing_assistant messages g
  = match last messages with
    | Some m =>
        if decide (role m = "assistant") then
          match content0_text m with
          | Ok (Some t) => (removelast messages, Ok (g +:+ t))
          | Ok None => (messages, Raise TypeError)
          | Raise e => (messages, Raise e)
          end
        else (messages, Ok g)
    | None => (messages, Ok g)
    end.
Proof.
  unfold pop_trailing_assistant. destruct (last messages) as [m|]; [|done].
  destruct (decide (role m = "assistant")) as [Hrole|Hrole]; [|done].
  by destruct (content0_text m) as [[t|]|e0].
Qed.

Lemma pop_trailing_assistant_Ok messages g messages' g' :
  pop_trailing_assistant messages g = (messages', Ok g') →
  messages' = after_extraction messages.
Proof.
  rewrite pop_trailing_assistant_spec. unfold after_extraction.
  destruct (last messages) as [m|]; [|by intros [= <- _]].
  destruct (decide (role m = "assistant")) as [Hrole|Hrole];
    [|by intros [= <- _]].
  destruct (content0_text m) as [[t|]|e0]; [by intros [= <- _]|done|done].
Qed.

Lemma pop_trailing_assistant_Raise messages g messages' e0 :
  pop_trailing_assistant messages g = (messages', Raise e0) →
  messages' = messages.
Proof.
  rewrite pop_trailing_assistant_spec.
  destruct (last messages) as [m|]; [|done].
  destruct (decide (role m = "assistant")) as [Hrole|Hrole]; [|done].
  destruct (content0_text m) as [[t|]|e']; [done| |]; by intros [= <- _].
Qed.

(** How every function with the block depends on it: a raise inside the
    block is the function's result; otherwise the list it leaves is the
    block's (pixtral goes on to pop a trailing user message), and a prompt
    it returns ends with the block's [generation_msg]. *)
Lemma call_extraction (f : format_function) (g : string)
    (messages : list Message) :
  generation_tag f = Some g →
  match pop_trailing_assistant messages g with
  | (messages', Raise e) => call f messages = (messages', Raise e)
  | (messages', Ok g') =>
      (call f messages).1
      = (if decide (f = Pixtral)
         then (pop_trailing_user messages' (Some "")).1 else messages')
      ∧ ∀ images prompt,
          (call f messages).2 = Ok (images, prompt) →
          ∃ body, prompt = Some (body +:+ g')
  end.
Proof.
  intros Htag.
  destruct f; cbv beta iota delta [generation_tag] in Htag;
    try discriminate; apply (inj Some) in Htag; subst g;
    unfold call, with_prompt;
    unfold_format_function;
    match goal with
    | |- context [pop_trailing_assistant messages ?g] =>
        destruct (pop_trailing_assistant messages g) as [ms [g'|e]];
        simpl; [|reflexivity]
    end;
    try (split; [reflexivity|]; intros images prompt H; inv_ok; subst;
         eexists; reflexivity).
  destruct (pop_trailing_user ms _) as [ms2 lm]; simpl.
  split; [reflexivity|]. intros images prompt H. inv_ok. subst.
  eexists; reflexivity.
Qed.


Lemma with_prompt_inv {X} (get : X → list Image * option string)
    (r : list Message * result X) (messages' : list Message)
    (y : list Image * option string) :
  with_prompt get r = (messages', Ok y) →
  ∃ x, r = (messages', Ok x) ∧ y = get x.
Proof.
  destruct r as [ms [x|e]]; unfold with_prompt; simpl; intros [= <- H].
  exists x. by subst.
Qed.

Lemma call_images (f : format_function) (messages messages' : list Message)
    (images : list Image) (prompt : option string) :
  call f messages = (messages', Ok (images, prompt)) →
  Forall2 (resolves url_to_image) (image_parts_of (image_scope f messages'))
    images.
Proof.
  unfold call, image_scope. intros H.
  destruct f; cbv zeta in H; apply with_prompt_inv in H as (x & HF & Hx);
    repeat match goal with x : (_ * _)%type |- _ => destruct x end;
    injection Hx as -> ->; simpl.
  - by eapply phi15_images.
  - by eapply vicuna0_images.
  - by eapply vicuna_images.
  - by eapply llama2_images.
  - by eapply llama3_images.
  - by eapply chatml_images.
  - by eapply gemma_images.
  - by eapply fuyu_images.
  - by eapply emu_images.
  - by eapply phi3_images.
  - by eapply phintern_images.
  - by eapply falcon_images.
  - by eapply prompt_history_images.
  - by eapply glm4v_images.
  - by eapply florence_images.
  - by eapply pixtral_images.
  - by eapply images_hfmessages_images.
Qed.

Lemma call_remaining (f : format_function) (messages messages' : list Message)
    (images : list Image) (prompt : option string) :
  f ≠ Pixtral →
  call f messages = (messages', Ok (images, prompt)) →
  messages' = remaining f messages.
Proof.
  intros Hf H. unfold remaining.
  destruct (generation_tag f) as [g|] eqn:Htag.
  - pose proof (call_extraction f g messages Htag) as Hex.
    destruct (pop_trailing_assistant messages g) as [ms1 [g'|e]] eqn:Hpop.
    + destruct Hex as [Hfst _]. rewrite H in Hfst. simpl in Hfst.
      rewrite decide_False in Hfst by done. subst.
      by eapply pop_trailing_assistant_Ok.
    + rewrite H in Hex. by inv_ok.
  - unfold call in H.
    destruct f; try discriminate Htag; cbv zeta in H;
      apply with_prompt_inv in H as (x & HF & Hx);
      unfold llama2_prompt_from_messages, fuyu_prompt_from_messages,
        prompt_history_images_system_from_messages,
        florence_prompt_from_messages, images_hfmessages_from_messages in HF;
      by injection HF as <- _.
Qed.

(** ** What the block does to the caller's list *)

Lemma removelast_prefix {A} (l : list A) : removelast l `prefix_of` l.
Proof.
  induction l as [|x l IH]; [done|].
  destruct l as [|y l]; [by exists [x]|].
  change (removelast (x :: y :: l)) with (x :: removelast (y :: l)).
  by apply prefix_cons.
Qed.

Lemma removelast_length_lt {A} (l : list A) (x : A) :
  last l = Some x → length (removelast l) < length l.
Proof.
  intros Hlast. destruct l as [|y l]; [done|].
  rewrite removelast_firstn_len, length_take. simpl. lia.
Qed.

Lemma pop_trailing_user_fst (messages : list Message) (lm : option string) :
  (pop_trailing_user messages lm).1 = messages
  ∨ (pop_trailing_user messages lm).1 = removelast messages.
Proof.
  unfold pop_trailing_user. destruct (last messages) as [m|]; [|by left].
  destruct (decide (role m = "user")) as [Hrole|Hrole]; [|by left].
  destruct (content0_text m); [by right | by left].
Qed.

Lemma call_fst_after_pop (f : format_function) (g : string)
    (messages : list Message) (m : Message) (t : string) :
  generation_tag f = Some g →
  last messages = Some m →
  role m = "assistant" →
  content0_text m = Ok (Some t) →
  (call f messages).1
  = (if decide (f = Pixtral)
     then (pop_trailing_user (removelast messages) (Some "")).1
     else removelast messages)
  ∧ length (call f messages).1 < length messages.
Proof.
  intros Htag Hlast Hrole Htext.
  pose proof (call_extraction f g messages Htag) as Hex.
  rewrite pop_trailing_assistant_spec, Hlast, decide_True, Htext in Hex
    by done.
  destruct Hex as [Hfst _]. split; [done|]. rewrite Hfst.
  pose proof (removelast_length_lt _ _ Hlast) as Hlen.
  destruct (decide (f = Pixtral)) as [->|Hf]; [|done].
  destruct (pop_trailing_user_fst (removelast messages) (Some ""))
    as [-> | ->]; [done|].
  pose proof (removelast_prefix (removelast messages)) as Hpre2.
  apply prefix_length in Hpre2. lia.
Qed.

(** C3, as the code has it. The block calls [messages.pop(-1)] on the list
    it was given: when the last message is an assistant message whose
    first part has a text, the caller's list comes back without it (pixtral
    may take a trailing user message off as well); nothing else in the
    list moves. *)
Theorem trailing_assistant_popped_from_callers_list (f : format_function)
    (g : string) (messages : list Message) (m : Message) (t : string) :
  generation_tag f = Some g →
  last messages = Some m →
  role m = "assistant" →
  content0_text m = Ok (Some t) →
  (f ≠ Pixtral → (call f messages).1 = removelast messages)
  ∧ (f = Pixtral →
       (call f messages).1 = removelast messages
       ∨ (call f messages).1 = removelast (removelast messages))
  ∧ length (call f messages).1 < length messages
  ∧ (call f messages).1 `prefix_of` messages.
Proof.
  intros Htag Hlast Hrole Htext.
  destruct (call_fst_after_pop f g messages m t Htag Hlast Hrole Htext)
    as [Hfst Hlen].
  pose proof (removelast_prefix messages) as Hpre.
  split; [|split; [|split; [exact Hlen|]]].
  - intros Hf. by rewrite Hfst, decide_False.
  - intros ->. rewrite Hfst, decide_True by done.
    destruct (pop_trailing_user_fst (removelast messages) (Some ""))
      as [-> | ->]; [by left | by right].
  - rewrite Hfst. destruct (decide (f = Pixtral)) as [->|Hf]; [|done].
    destruct (pop_trailing_user_fst (removelast messages) (Some ""))
      as [-> | ->]; [done|].
    etrans; [apply removelast_prefix | done].
Qed.

(** C10, as the code has it. With an assistant message last, the block
    reads [content[0].text] and nothing else of the message: a text there
    (under either type tag) is what follows the family's opening tag at
    the end of the prompt; a [None] there raises TypeError and an empty
    content IndexError, the list untouched and no prompt produced. *)
Theorem trailing_assistant_reads_first_text (f : format_function)
    (g : string) (messages : list Message) (m : Message) :
  generation_tag f = Some g →
  last messages = Some m →
  role m = "assistant" →
  (∀ c rest t, content m = CList (c :: rest) → text c = Some t →
     length (call f messages).1 < length messages
     ∧ ∀ images prompt,
         (call f messages).2 = Ok (images, prompt) →
         ∃ body, prompt = Some (body +:+ g +:+ t))
  ∧ (∀ c rest, content m = CList (c :: rest) → text c = None →
       call f messages = (messages, Raise TypeError))
  ∧ (content m = CList [] → call f messages = (messages, Raise IndexError)).
Proof.
  intros Htag Hlast Hrole.
  pose proof (call_extraction f g messages Htag) as Hex.
  rewrite pop_trailing_assistant_spec, Hlast, decide_True in Hex by done.
  unfold content0_text in Hex. split; [|split].
  - intros c rest t Hcnt Htext. rewrite Hcnt, Htext in Hex.
    destruct Hex as [_ Hprompt]. split; [|exact Hprompt].
    eapply (call_fst_after_pop f g); eauto.
    unfold content0_text. by rewrite Hcnt, Htext.
  - intros c rest Hcnt Htext. by rewrite Hcnt, Htext in Hex.
  - intros Hcnt. by rewrite Hcnt in Hex.
Qed.


#[local] Arguments text_parts : simpl never.

(** ** Well-formed requests are compiled *)

Lemma is_ok_bind {A B} (r : result A) (k : A → result B) :
  is_ok r = true → (∀ a, is_ok (k a) = true) → is_ok (r ≫= k) = true.
Proof. destruct r as [a|e]; simpl; [auto | done]. Qed.

Lemma is_ok_fmap {A B} (f : A → B) (r : result A) :
  is_ok (f <$> r) = is_ok r.
Proof. by destruct r. Qed.

Lemma for_each_is_ok {A S} (P : A → Prop) (body : A → S → result S)
    (l : list A) :
  Forall P l →
  (∀ x st, P x → is_ok (body x st) = true) →
  ∀ st, is_ok (for_each l st body) = true.
Proof.
  intros Hl Hbody. induction Hl as [|x l Hx _ IH]; intros st; [done|].
  simpl. apply is_ok_bind; [by apply Hbody | apply IH].
Qed.

Lemma for_content_is_ok {S} (body : Content → S → result S)
    (cnt : MessageContent) :
  content_ok cnt →
  (∀ c st, part_ok c → is_ok (body c st) = true) →
  ∀ st, is_ok (for_content cnt st body) = true.
Proof.
  intros (l & -> & Hl) Hbody st. simpl. by eapply for_each_is_ok.
Qed.

(** One part of a content loop, on a well-formed part. *)
Ltac part_is_ok :=
  let c := fresh "c" in let Hc := fresh "Hc" in
  intros c ? Hc; unfold part_ok in Hc;
  repeat match goal with x : (_ * _)%type |- _ => destruct x end;
  destruct (type c);
  [ try (destruct Hc as [? Hc]; rewrite ?Hc);
    first [reflexivity | repeat case_match; reflexivity]
  | first
      [ reflexivity
      | let Hiu := fresh in let Himg := fresh in
        destruct Hc as (? & ? & Hiu & Himg);
        unfold image_url_url; rewrite Hiu; simpl; rewrite Himg; reflexivity ] ].

Lemma user_image_tag_and_text_is_ok img_tok cnt images :
  content_ok cnt →
  is_ok (user_image_tag_and_text img_tok cnt images) = true.
Proof. intros H. apply for_content_is_ok; [done|]. part_is_ok. Qed.

Lemma text_parts_is_ok cnt prompt block :
  content_ok cnt → is_ok (text_parts cnt prompt block) = true.
Proof. intros H. apply for_content_is_ok; [done|]. part_is_ok. Qed.

Lemma user_prefixed_parts_is_ok img_tok img_end sep cnt images :
  content_ok cnt →
  is_ok (user_prefixed_parts url_to_image img_tok img_end sep cnt images)
  = true.
Proof. intros H. apply for_content_is_ok; [done|]. part_is_ok. Qed.

Lemma image_tags_is_ok img_tok cnt images :
  content_ok cnt → is_ok (image_tags url_to_image img_tok cnt images) = true.
Proof. intros H. apply for_content_is_ok; [done|]. part_is_ok. Qed.

Lemma llama3_text_blocks_is_ok m img_tag prompt :
  content_ok (content m) →
  is_ok (llama3_text_blocks m img_tag prompt) = true.
Proof. intros H. apply for_content_is_ok; [done|]. part_is_ok. Qed.

Lemma pop_trailing_assistant_is_ok (messages : list Message) (g : string) :
  trailing_ok messages →
  ∃ g', pop_trailing_assistant messages g = (after_extraction messages, Ok g').
Proof.
  intros Hok. rewrite pop_trailing_assistant_spec. unfold after_extraction.
  unfold trailing_ok in Hok.
  destruct (last messages) as [m|] eqn:Hlast; [|by exists g].
  destruct (decide (role m = "assistant")) as [Hrole|Hrole]; [|by exists g].
  destruct (Hok m eq_refl Hrole) as [t ->]. by eexists.
Qed.

Lemma Forall_removelast {A} (P : A → Prop) (l : list A) :
  Forall P l → Forall P (removelast l).
Proof.
  intros H. pose proof (removelast_prefix l) as [k Hk].
  rewrite Hk in H. by apply Forall_app in H as [? _].
Qed.

Lemma Forall_after_extraction (P : Message → Prop) (messages : list Message) :
  Forall P messages → Forall P (after_extraction messages).
Proof.
  intros H. unfold after_extraction. destruct (last messages); [|done].
  case_decide; [by apply Forall_removelast | done].
Qed.

(** The body of a walk, message by message. *)
Ltac walk_is_ok :=
  repeat first
    [ reflexivity
    | apply user_image_tag_and_text_is_ok; assumption
    | apply text_parts_is_ok; assumption
    | apply user_prefixed_parts_is_ok; assumption
    | apply image_tags_is_ok; assumption
    | apply llama3_text_blocks_is_ok; assumption
    | apply for_content_is_ok; [assumption | part_is_ok]
    | case_decide
    | apply is_ok_bind;
      [| intros;
         repeat match goal with x : (_ * _)%type |- _ => destruct x end ] ].

(** Every format function but pixtral returns on a request whose contents
    are lists of well-formed parts and whose trailing assistant message,
    if any, opens with a text.  (pixtral raises on any system text.) *)
Lemma call_returns (f : format_function) (messages : list Message) :
  f ≠ Pixtral →
  Forall (λ m, content_ok (content m)) messages →
  trailing_ok messages →
  is_ok (call f messages).2 = true.
Proof.
  intros Hf Hms Htr.
  pose proof (Forall_after_extraction _ _ Hms) as Hms'.
  destruct f; try done; unfold call, with_prompt; simpl;
    rewrite is_ok_fmap; unfold_format_function;
    try match goal with
    | |- context [pop_trailing_assistant messages ?g] =>
        destruct (pop_trailing_assistant_is_ok messages g Htr) as [g' ->]
    end; simpl;
    (apply is_ok_bind || idtac);
    try (eapply for_each_is_ok; [eassumption|]; intros m st Hm;
         repeat match goal with x : (_ * _)%type |- _ => destruct x end);
    walk_is_ok;
    intros; repeat match goal with x : (_ * _)%type |- _ => destruct x end;
    reflexivity.
Qed.

(** C2, as the code has it. When a format function returns, its images are,
    one for one and in encounter order, what the loader gave on the
    [image_url] parts of the messages it takes images from: the user
    messages left in the list for the functions that branch on the role,
    every message left for llama3, phi3, glm4v, florence and the
    hfmessages variant.  The list left is the caller's after the
    trailing-assistant block (said of every function but pixtral).  And
    every function but pixtral does return on a well-formed request. *)
Theorem images_follow_walked_image_parts (f : format_function)
    (messages : list Message) :
  (∀ messages' images prompt,
     call f messages = (messages', Ok (images, prompt)) →
     Forall2 (resolves url_to_image)
       (image_parts_of (image_scope f messages')) images
     ∧ length images = length (image_parts_of (image_scope f messages'))
     ∧ (f ≠ Pixtral → messages' = remaining f messages))
  ∧ (f ≠ Pixtral →
     Forall (λ m, content_ok (content m)) messages →
     trailing_ok messages →
     is_ok (call f messages).2 = true).
Proof.
  split; [|apply call_returns].
  intros messages' images prompt H.
  pose proof (call_images _ _ _ _ _ H) as Hall.
  split; [exact Hall|]. split.
  - symmetry. by eapply Forall2_length.
  - intros Hf. by eapply call_remaining.
Qed.


(** ** More on the format functions *)

Lemma bind_assoc_result {A B C} (r : result A) (k : A → result B)
    (h : B → result C) :
  (r ≫= k) ≫= h = r ≫= (λ a, k a ≫= h).
Proof. by destruct r. Qed.

Lemma user_loop_eq (img_tok : string) (l : list Content)
    (images : list Image) (img_tag : string) (txt : option string) :
  for_each l (images, img_tag, txt) (λ c '(images, img_tag, txt),
    match type c with
    | Ty_image_url =>
        u ← image_url_url c;
        img ← url_to_image u;
        Ok (images ++ [img], img_tag +:+ img_tok, txt)
    | Ty_text => Ok (images, img_tag, text c)
    end)
  = (imgs ← resolve_all url_to_image (image_parts (CList l));
     Ok (images ++ imgs, img_tag +:+ repeat_string img_tok (length imgs),
         last_text txt l)).
Proof.
  revert images img_tag txt. unfold image_parts.
  induction l as [|c l IH]; intros images img_tag txt.
  - simpl. by rewrite app_nil_r, append_nil_r.
  - rewrite filter_cons. cbn [for_each last_text foldl].
    destruct (type c) eqn:Hty.
    + rewrite decide_False by done. simpl. by rewrite IH.
    + rewrite decide_True by done. cbn [resolve_all]. unfold resolve_part.
      destruct (image_url_url c) as [u|e]; [|done]. simpl.
      destruct (url_to_image u) as [img|e]; [|done]. simpl.
      rewrite IH.
      destruct (resolve_all url_to_image _) as [imgs|e]; [|done]. simpl.
      rewrite <- app_assoc. simpl. unfold repeat_string. simpl.
      by rewrite append_assoc.
Qed.

Lemma user_image_tag_and_text_eq (img_tok : string) (l : list Content)
    (images : list Image) :
  user_image_tag_and_text img_tok (CList l) images
  = (imgs ← resolve_all url_to_image (image_parts (CList l));
     Ok (images ++ imgs, repeat_string img_tok (length imgs),
         last_text (Some "") l)).
Proof. unfold user_image_tag_and_text. simpl. by rewrite user_loop_eq. Qed.

#[local] Arguments user_image_tag_and_text : simpl never.
#[local] Arguments image_tags : simpl never.
#[local] Arguments user_prefixed_parts : simpl never.

(** ** Several text parts in one message *)

Lemma concat_strings_app (a b : list string) :
  concat_strings (a ++ b) = concat_strings a +:+ concat_strings b.
Proof.
  induction a as [|x a IH]; simpl; [done|]. by rewrite IH, append_assoc.
Qed.

Lemma mapM_result_app {A B} (f : A → result B) (l1 l2 : list A) :
  mapM_result f (l1 ++ l2)
  = (ys1 ← mapM_result f l1; ys2 ← mapM_result f l2; Ok (ys1 ++ ys2)).
Proof.
  induction l1 as [|x l1 IH]; simpl.
  - by destruct (mapM_result f l2).
  - destruct (f x) as [y|e]; simpl; [|done]. rewrite IH.
    destruct (mapM_result f l1) as [ys1|e]; simpl; [|done].
    by destruct (mapM_result f l2).
Qed.

Lemma text_loop_eq (block : option string → string) (l : list Content)
    (prompt : string) :
  for_each l prompt (λ c prompt,
    match type c with
    | Ty_text => Ok (prompt +:+ block (text c))
    | Ty_image_url => Ok prompt
    end)
  = Ok (prompt
        +:+ concat_strings ((λ c, block (text c)) <$> text_parts_in l)).
Proof.
  revert prompt. unfold text_parts_in.
  induction l as [|c l IH]; intros prompt.
  - simpl. by rewrite append_nil_r.
  - rewrite filter_cons. cbn [for_each]. destruct (type c) eqn:Hty.
    + rewrite decide_True by done. simpl. rewrite IH.
      by rewrite append_assoc.
    + rewrite decide_False by done. simpl. by rewrite IH.
Qed.

Lemma text_parts_eq (block : option string → string) (l : list Content)
    (prompt : string) :
  text_parts (CList l) prompt block
  = Ok (prompt
        +:+ concat_strings ((λ c, block (text c)) <$> text_parts_in l)).
Proof. unfold text_parts. cbn [for_content]. apply text_loop_eq. Qed.

Lemma text_parts_acc (block : option string → string) (cnt : MessageContent)
    (prompt : string) :
  text_parts cnt prompt block
  = (p ← text_parts cnt "" block; Ok (prompt +:+ p)).
Proof.
  destruct cnt as [[|a t]|l].
  - unfold text_parts. simpl. by rewrite append_nil_r.
  - done.
  - rewrite !text_parts_eq. reflexivity.
Qed.

Lemma user_image_tag_and_text_acc (img_tok : string) (cnt : MessageContent)
    (images : list Image) :
  user_image_tag_and_text img_tok cnt images
  = ('(imgs, img_tag, txt) ← user_image_tag_and_text img_tok cnt [];
     Ok (images ++ imgs, img_tag, txt)).
Proof.
  destruct cnt as [[|a t]|l].
  - unfold user_image_tag_and_text. simpl. by rewrite app_nil_r.
  - done.
  - rewrite !user_image_tag_and_text_eq.
    by destruct (resolve_all url_to_image _).
Qed.

(** A loop whose body only adds to [images] and to [prompt] adds, turn by
    turn, what each turn adds on its own. *)
Lemma for_each_by_turns {A I : Type}
    (body : A → list I * string → result (list I * string))
    (turn : A → result (list I * string)) :
  (∀ x images prompt,
     body x (images, prompt)
     = (t ← turn x; Ok (images ++ t.1, prompt +:+ t.2))) →
  ∀ l images prompt,
    for_each l (images, prompt) body
    = (turns ← mapM_result turn l;
       Ok (images ++ (turns ≫= fst),
           prompt +:+ concat_strings (snd <$> turns))).
Proof.
  intros Hbody l. induction l as [|x l IH]; intros images prompt.
  - simpl. by rewrite app_nil_r, append_nil_r.
  - cbn [for_each mapM_result]. rewrite Hbody.
    destruct (turn x) as [[imgs p]|e]; [|reflexivity].
    cbn [mbind result_bind fst snd]. rewrite IH.
    destruct (mapM_result turn l) as [turns|e]; [|reflexivity].
    cbn [mbind result_bind fmap list_fmap list_bind fst snd
         concat_strings foldr].
    by rewrite <- app_assoc, append_assoc.
Qed.

(** The prompt of chatml is what the messages left in the list add, one
    after the other, and then the generation message. *)
Lemma chatml_by_turns (messages : list Message) (img_tok : string) :
  chatml_prompt_from_messages messages img_tok
  = let '(remaining, generation_msg) :=
      pop_trailing_assistant messages ("<|im_start|>assistant" +:+ LF) in
    (remaining,
     generation_msg ← generation_msg;
     turns ← mapM_result (chatml_turn img_tok) remaining;
     Ok (turns ≫= fst, concat_strings (snd <$> turns) +:+ generation_msg)).
Proof.
  unfold chatml_prompt_from_messages.
  destruct (pop_trailing_assistant messages _) as [remaining [g|e]]; [|done].
  cbn [mbind result_bind].
  rewrite (for_each_by_turns _ (chatml_turn img_tok)).
  - by destruct (mapM_result (chatml_turn img_tok) remaining).
  - intros m images prompt. unfold chatml_turn.
    destruct (decide (role m = "user")) as [Hu|Hu];
      [|destruct (decide (role m = "assistant")) as [Ha|Ha];
        [|destruct (decide (role m = "system")) as [Hs|Hs]]].
    + rewrite (user_image_tag_and_text_acc img_tok (content m) images).
      by destruct (user_image_tag_and_text img_tok (content m) [])
        as [[[imgs img_tag] txt]|e].
    + rewrite (text_parts_acc _ (content m) prompt).
      destruct (text_parts (content m) "" _) as [p|e]; [|reflexivity].
      cbn [mbind result_bind fst snd]. by rewrite app_nil_r.
    + rewrite (text_parts_acc _ (content m) prompt).
      destruct (text_parts (content m) "" _) as [p|e]; [|reflexivity].
      cbn [mbind result_bind fst snd]. by rewrite app_nil_r.
    + cbn [mbind result_bind fst snd]. by rewrite app_nil_r, append_nil_r.
Qed.

(** A message that is not the trailing assistant message is out of reach
    of the trailing-assistant block. *)
Lemma pop_trailing_assistant_app (pre post : list Message) (m : Message)
    (g : string) :
  post ≠ [] ∨ role m ≠ "assistant" →
  pop_trailing_assistant (pre ++ m :: post) g
  = let '(post', r) := pop_trailing_assistant post g in
    (pre ++ m :: post', r).
Proof.
  intros Hm. rewrite !pop_trailing_assistant_spec.
  rewrite last_app, last_cons.
  destruct (last post) as [y|] eqn:Hlast.
  - assert (post ≠ []) as Hpost by (by intros ->).
    destruct (decide (role y = "assistant")) as [Hy|Hy]; [|done].
    destruct (content0_text y) as [[t|]|e0]; [|done|done].
    rewrite removelast_app by done.
    destruct post as [|p post]; [done|]. done.
  - apply last_None in Hlast as ->.
    destruct Hm as [Hm|Hm]; [done|]. by rewrite decide_False.
Qed.

Lemma chatml_turn_texts (img_tok : string) (m : Message) (l : list Content) :
  content m = CList l →
  role m = "system" ∨ role m = "assistant" →
  chatml_turn img_tok m
  = Ok ([],
        concat_strings
          ((λ c, "<|im_start|>" +:+ role m +:+ LF +:+ fstr (text c)
                   +:+ "<|im_end|>") <$> text_parts_in l)).
Proof.
  intros Hcnt Hrole. unfold chatml_turn. rewrite Hcnt.
  destruct Hrole as [Hrole|Hrole]; rewrite Hrole.
  - rewrite decide_False, decide_False, decide_True by done.
    by rewrite text_parts_eq.
  - rewrite decide_False, decide_True by done.
    by rewrite text_parts_eq.
Qed.

Lemma join_loop_None (l : list Content) (acc : string) :
  Exists (λ c, text c = None) l →
  for_each l acc (λ c acc, str_iadd acc (text c)) = Raise TypeError.
Proof.
  intros H. revert acc. induction H as [c l Hc|c l _ IH]; intros acc; simpl.
  - by rewrite Hc.
  - destruct (text c); simpl; [apply IH | done].
Qed.

Lemma join_loop_texts (l : list Content) (texts : list string)
    (acc : string) :
  Forall2 (λ c t, text c = Some t) l texts →
  for_each l acc (λ c acc, str_iadd acc (text c))
  = Ok (acc +:+ concat_strings texts).
Proof.
  intros H. revert acc. induction H as [|c t l' ts Hc _ IH]; intros acc; simpl.
  - by rewrite append_nil_r.
  - rewrite Hc. simpl. rewrite IH. by rewrite append_assoc.
Qed.

(** C8, as the code has it, for a message whose content is a list of
    parts.  The Qwen2.5-VL adapter joins the texts of the parts of a
    non-user message, with nothing between them, into the one text entry
    of the message it hands on, when every part has a text; a part
    without one (as an image part is) makes it raise TypeError.  The
    chatml function does not join: in any conversation its prompt is what
    the messages left in the list add one after the other, then the
    generation message; and a system message, or an assistant message
    that is not the last of the conversation, adds one wrapped block per
    text part, in order, wherever it stands. *)
Theorem text_parts_of_one_message (m : Message) (l : list Content)
    (img_tok : string) :
  content m = CList l →
  (role m ≠ "user" →
     (∀ texts, Forall2 (λ c t, text c = Some t) l texts →
        qwen_message_of m
        = Ok {| q_role := role m;
                q_content := [QText (Some (concat_strings texts))] |})
     ∧ (Exists (λ c, text c = None) l →
        qwen_message_of m = Raise TypeError))
  ∧ (∀ messages,
       chatml_prompt_from_messages messages img_tok
       = let '(remaining, generation_msg) :=
           pop_trailing_assistant messages ("<|im_start|>assistant" +:+ LF) in
         (remaining,
          generation_msg ← generation_msg;
          turns ← mapM_result (chatml_turn img_tok) remaining;
          Ok (turns ≫= fst,
              concat_strings (snd <$> turns) +:+ generation_msg)))
  ∧ (role m = "system" ∨ role m = "assistant" →
       chatml_turn img_tok m
       = Ok ([],
             concat_strings
               ((λ c, "<|im_start|>" +:+ role m +:+ LF +:+ fstr (text c)
                        +:+ "<|im_end|>") <$> text_parts_in l)))
  ∧ (∀ pre post remaining images prompt,
       role m = "system" ∨ (role m = "assistant" ∧ post ≠ []) →
       chatml_prompt_from_messages (pre ++ m :: post) img_tok
       = (remaining, Ok (images, prompt)) →
       ∃ turns_pre post' turns_post generation_msg,
         pop_trailing_assistant post ("<|im_start|>assistant" +:+ LF)
         = (post', Ok generation_msg)
         ∧ remaining = pre ++ m :: post'
         ∧ mapM_result (chatml_turn img_tok) pre = Ok turns_pre
         ∧ mapM_result (chatml_turn img_tok) post' = Ok turns_post
         ∧ images = (turns_pre ≫= fst) ++ (turns_post ≫= fst)
         ∧ prompt
           = concat_strings (snd <$> turns_pre)
             +:+ concat_strings
                   ((λ c, "<|im_start|>" +:+ role m +:+ LF +:+ fstr (text c)
                            +:+ "<|im_end|>") <$> text_parts_in l)
             +:+ concat_strings (snd <$> turns_post)
             +:+ generation_msg).
Proof.
  intros Hcnt. split; [|split; [|split]].
  - intros Hrole. unfold qwen_message_of. rewrite decide_False by done.
    unfold join_texts. rewrite Hcnt. cbn [for_content]. split.
    + intros texts Htexts. by rewrite (join_loop_texts l texts).
    + intros Hex. by rewrite join_loop_None.
  - intros messages. apply chatml_by_turns.
  - by apply chatml_turn_texts.
  - intros pre post remaining images prompt Hrole H.
    rewrite chatml_by_turns, pop_trailing_assistant_app in H.
    2: { destruct Hrole as [Hs|[_ Hp]]; [right|by left].
         rewrite Hs. discriminate. }
    destruct (pop_trailing_assistant post _) as [post' [g|e]]; [|done].
    cbn [mbind result_bind] in H.
    rewrite mapM_result_app in H. cbn [mapM_result] in H.
    rewrite (chatml_turn_texts img_tok m l) in H
      by (done || (destruct Hrole as [?|[? _]]; by (left + right))).
    destruct (mapM_result (chatml_turn img_tok) pre) as [turns_pre|e];
      [|done].
    destruct (mapM_result (chatml_turn img_tok) post') as [turns_post|e]
      eqn:Hpost; [|done].
    cbn [mbind result_bind] in H. injection H as <- <- <-.
    exists turns_pre, post', turns_post, g.
    split; [done|]. split; [done|]. split; [done|]. split; [done|].
    rewrite bind_app, fmap_app, concat_strings_app.
    cbn [list_bind mbind fmap list_fmap fst snd app concat_strings foldr].
    split; [done|]. by rewrite !append_assoc.
Qed.

(** X1. A user turn under chatml, whatever the order of its parts: the
    images of its image parts in order (the first loader failure is the
    result), one image token per image, all tokens before the text, and for
    text only that of the last text part. *)
Theorem chatml_user_turn (m : Message) (l : list Content) (img_tok : string) :
  role m = "user" →
  content m = CList l →
  chatml_prompt_from_messages [m] img_tok
  = ([m],
     imgs ← resolve_all url_to_image (image_parts (CList l));
     Ok (imgs,
         "<|im_start|>user" +:+ LF
         +:+ repeat_string img_tok (length imgs)
         +:+ fstr (last_text (Some "") l)
         +:+ "<|im_end|>" +:+ "<|im_start|>assistant" +:+ LF)).
Proof.
  intros Hrole Hcnt. destruct m as [r c n]. simpl in Hrole, Hcnt. subst r c.
  unfold chatml_prompt_from_messages, pop_trailing_assistant.
  simpl. rewrite user_image_tag_and_text_eq.
  destruct (resolve_all url_to_image _) as [imgs|e]; [|done]. simpl.
  do 3 f_equal. by rewrite !append_assoc.
Qed.


Lemma call_fst_no_tag (f : format_function) (messages : list Message) :
  generation_tag f = None → (call f messages).1 = messages.
Proof. by destruct f. Qed.

(** X2. A format function leaves the caller's list as it found it unless
    the last message is an assistant message: the functions without the
    trailing-assistant block always, the others (pixtral apart, which also
    pops a trailing user message) whenever the list is empty or ends with
    another role; this whether the call returns or raises. *)
Theorem callers_list_kept (f : format_function) (messages : list Message) :
  f ≠ Pixtral →
  (generation_tag f = None
   ∨ ∀ m, last messages = Some m → role m ≠ "assistant") →
  (call f messages).1 = messages.
Proof.
  intros Hf Hcase.
  destruct (generation_tag f) as [g|] eqn:Htag; [|by apply call_fst_no_tag].
  destruct Hcase as [|Hlast]; [done|].
  pose proof (call_extraction f g messages Htag) as Hex.
  rewrite pop_trailing_assistant_spec in Hex.
  destruct (last messages) as [m|] eqn:Hm.
  - rewrite decide_False in Hex by by apply Hlast.
    destruct Hex as [-> _]. by rewrite decide_False.
  - destruct Hex as [-> _]. by rewrite decide_False.
Qed.

(** X3. When the list does not end with an assistant message, a prompt
    returned by a function with the trailing-assistant block ends with the
    family's own opening tag, unextended. *)
Theorem prompt_ends_with_generation_tag (f : format_function) (g : string)
    (messages : list Message) (images : list Image) (prompt : option string) :
  generation_tag f = Some g →
  (∀ m, last messages = Some m → role m ≠ "assistant") →
  (call f messages).2 = Ok (images, prompt) →
  ∃ body, prompt = Some (body +:+ g) ∧ endswith (body +:+ g) g = true.
Proof.
  intros Htag Hlast Hcall.
  pose proof (call_extraction f g messages Htag) as Hex.
  rewrite pop_trailing_assistant_spec in Hex.
  assert (∃ body, prompt = Some (body +:+ g)) as [body ->].
  { destruct (last messages) as [m|] eqn:Hm.
    - rewrite decide_False in Hex by by apply Hlast.
      destruct Hex as [_ Hex]. by eapply Hex.
    - destruct Hex as [_ Hex]. by eapply Hex. }
  exists body. split; [done | apply endswith_app].
Qed.

Lemma image_tags_eq (url_handler : string → result Image) (img_tok : string)
    (l : list Content) (images : list Image) :
  image_tags url_handler img_tok (CList l) images
  = (imgs ← resolve_all url_handler (image_parts (CList l));
     Ok (images ++ imgs, repeat_string img_tok (length imgs))).
Proof.
  unfold image_tags. cbn [for_content].
  enough (∀ images img_tag,
    for_each l (images, img_tag) (λ c '(images, img_tag),
      match type c with
      | Ty_image_url =>
          u ← image_url_url c;
          img ← url_handler u;
          Ok (images ++ [img], img_tag +:+ img_tok)
      | Ty_text => Ok (images, img_tag)
      end)
    = (imgs ← resolve_all url_handler (image_parts (CList l));
       Ok (images ++ imgs, img_tag +:+ repeat_string img_tok (length imgs))))
    as H by apply H.
  unfold image_parts. induction l as [|c l IH]; intros imgs0 img_tag.
  - simpl. by rewrite app_nil_r, append_nil_r.
  - rewrite filter_cons. cbn [for_each]. destruct (type c) eqn:Hty.
    + rewrite decide_False by done. simpl. by rewrite IH.
    + rewrite decide_True by done. cbn [resolve_all]. unfold resolve_part.
      destruct (image_url_url c) as [u|e]; [|done]. simpl.
      destruct (url_handler u) as [img|e]; [|done]. simpl.
      rewrite IH.
      destruct (resolve_all url_handler _) as [imgs|e]; [|done]. simpl.
      rewrite <- app_assoc. simpl. unfold repeat_string. simpl.
      by rewrite append_assoc.
Qed.

Lemma image_parts_all (l : list Content) :
  Forall (λ c, type c = Ty_image_url) l → image_parts (CList l) = l.
Proof.
  intros H. unfold image_parts. induction H as [|c l Hc _ IH]; [done|].
  rewrite filter_cons, decide_True by done. by rewrite IH.
Qed.

Lemma text_loop_no_text {S} (l : list Content) (st : S)
    (body : Content → S → result S) :
  Forall (λ c, type c = Ty_image_url) l →
  (∀ c st, type c = Ty_image_url → body c st = Ok st) →
  for_each l st body = Ok st.
Proof.
  intros H Hbody. induction H as [|c l Hc _ IH]; [done|].
  simpl. by rewrite Hbody.
Qed.

Lemma phi3_loop_eq (img_tok : string) (l : list Content) (n : Z)
    (images : list Image) (img_tag : string) :
  for_each l (n, images, img_tag) (λ c '(n, images, img_tag),
    match type c with
    | Ty_image_url =>
        u ← image_url_url c;
        img ← url_to_image u;
        Ok ((n + 1)%Z, images ++ [img], img_tag +:+ img_tok)
    | Ty_text => Ok (n, images, img_tag)
    end)
  = (imgs ← resolve_all url_to_image (image_parts (CList l));
     Ok ((n + Z.of_nat (length imgs))%Z, images ++ imgs,
         img_tag +:+ repeat_string img_tok (length imgs))).
Proof.
  revert n images img_tag. unfold image_parts.
  induction l as [|c l IH]; intros n images img_tag.
  - simpl. by rewrite app_nil_r, append_nil_r, Z.add_0_r.
  - rewrite filter_cons. cbn [for_each]. destruct (type c) eqn:Hty.
    + rewrite decide_False by done. simpl. by rewrite IH.
    + rewrite decide_True by done. cbn [resolve_all]. unfold resolve_part.
      destruct (image_url_url c) as [u|e]; [|done]. simpl.
      destruct (url_to_image u) as [img|e]; [|done]. simpl.
      rewrite IH.
      destruct (resolve_all url_to_image _) as [imgs|e]; [|done].
      cbn [mbind result_bind length]. rewrite <- app_assoc.
      unfold repeat_string. cbn [replicate concat_strings foldr app].
      rewrite append_assoc. do 3 f_equal. lia.
Qed.

(** X4. In llama3, phi3 and glm4v a message made of image parts only hands
    back its images and adds nothing to the prompt, not even an image
    token: the tokens are written with the text parts, and there are
    none. *)
Theorem images_only_message_leaves_no_token (f : format_function)
    (m : Message) (l : list Content) (imgs : list Image) :
  f ∈ [Llama3; Phi3; Glm4v] →
  role m ≠ "assistant" →
  content m = CList l →
  Forall (λ c, type c = Ty_image_url) l →
  resolve_all url_to_image l = Ok imgs →
  ∃ g, generation_tag f = Some g
       ∧ call f [m]
         = ([m],
            Ok (imgs,
                Some ((if decide (f = Glm4v) then "[gMASK]<sop>" else "")
                      +:+ g))).
Proof.
  intros Hf Hrole Hcnt Himg Hres.
  destruct m as [r c n]. simpl in Hrole, Hcnt. subst c.
  repeat (apply elem_of_cons in Hf as [->|Hf]); [| | |by apply elem_of_nil in Hf];
    eexists; (split; [reflexivity|]);
    unfold call, with_prompt; unfold_format_function;
    unfold pop_trailing_assistant; simpl; rewrite decide_False by done;
    simpl.
  - rewrite image_tags_eq, image_parts_all, Hres by done. simpl.
    unfold llama3_text_blocks. simpl.
    rewrite text_loop_no_text; [done|done|]. by intros c st ->.
  - rewrite phi3_loop_eq, image_parts_all, Hres by done. simpl.
    rewrite text_loop_no_text; [done|done|]. by intros c st ->.
  - rewrite image_tags_eq, image_parts_all, Hres by done. simpl.
    rewrite text_loop_no_text; [done|done|]. by intros c st ->.
Qed.


Lemma resolve_all_app (url_handler : string → result Image)
    (a b : list Content) :
  resolve_all url_handler (a ++ b)
  = (ia ← resolve_all url_handler a;
     ib ← resolve_all url_handler b;
     Ok (ia ++ ib)).
Proof.
  induction a as [|c a IH]; simpl.
  - by destruct (resolve_all url_handler b).
  - destruct (resolve_part url_handler c) as [img|e]; [|done]. simpl.
    rewrite IH. destruct (resolve_all url_handler a) as [ia|e]; [|done].
    simpl. by destruct (resolve_all url_handler b).
Qed.

Lemma florence_text_loop (l : list Content) (prompt : string) :
  for_each l prompt (λ c prompt,
    match type c with
    | Ty_text =>
        match text c with
        | Some (String a t) => Ok (String a t)
        | _ => Ok prompt
        end
    | Ty_image_url => Ok prompt
    end)
  = Ok (last_truthy_text prompt l).
Proof.
  revert prompt. induction l as [|c l IH]; intros prompt; [done|].
  cbn [for_each]. unfold last_truthy_text. cbn [foldl].
  destruct (type c); [destruct (text c) as [[|a t]|]|]; simpl; apply IH.
Qed.

(** X5. Florence takes one command: its prompt is the last non-empty text
    found in any message, of any role, and the fixed detailed-caption
    command when there is none; its images are those of every image part,
    in order, or the first loader failure. *)
Theorem florence_prompt_is_last_text (messages : list Message)
    (url_handler : string → result Image) :
  Forall (λ m, ∃ l, content m = CList l) messages →
  florence_prompt_from_messages messages url_handler
  = (messages,
     imgs ← resolve_all url_handler (image_parts_of messages);
     Ok (imgs,
         last_truthy_text "<MORE_DETAILED_CAPTION>" (all_parts messages))).
Proof.
  intros Hms. unfold florence_prompt_from_messages. f_equal.
  enough (∀ images prompt,
    for_each messages (images, prompt) (λ m '(images, prompt),
      '(images, _) ← image_tags url_handler "" (content m) images;
      prompt ← for_content (content m) prompt (λ c prompt,
        match type c with
        | Ty_text =>
            match text c with
            | Some (String a t) => Ok (String a t)
            | _ => Ok prompt
            end
        | Ty_image_url => Ok prompt
        end);
      Ok (images, prompt))
    = (imgs ← resolve_all url_handler (image_parts_of messages);
       Ok (images ++ imgs, last_truthy_text prompt (all_parts messages))))
    as H by apply (H [] "<MORE_DETAILED_CAPTION>").
  induction Hms as [|m ms [l Hl] _ IH]; intros images prompt.
  - simpl. by rewrite app_nil_r.
  - cbn [for_each]. rewrite Hl, image_tags_eq.
    change (image_parts_of (m :: ms))
      with (image_parts (content m) ++ image_parts_of ms).
    change (all_parts (m :: ms))
      with (match content m with CList l => l | CStr _ => [] end
            ++ all_parts ms).
    rewrite Hl, resolve_all_app.
    destruct (resolve_all url_handler (image_parts (CList l))) as [i1|e];
      [|done].
    cbn [mbind result_bind for_content]. rewrite florence_text_loop.
    cbn [mbind result_bind]. rewrite IH.
    destruct (resolve_all url_handler (image_parts_of ms)) as [i2|e]; [|done].
    cbn [mbind result_bind]. rewrite <- app_assoc.
    unfold last_truthy_text. by rewrite foldl_app.
Qed.


(** ** Structured variants *)

Lemma hf_inner_loop (url_handler : string → result Image) (l : list Content)
    (images images' : list Image) (cnt cnt' : list hf_part) :
  for_each l (images, cnt) (λ c '(images, cnt),
    match type c with
    | Ty_image_url =>
        u ← image_url_url c;
        image ← url_handler u;
        Ok (images ++ [image], cnt ++ [HfImage])
    | Ty_text => Ok (images, cnt ++ [HfText (text c)])
    end) = Ok (images', cnt') →
  cnt' = cnt ++ (hf_of_part <$> l)
  ∧ length images'
    = length images + length (filter is_HfImage (hf_of_part <$> l)).
Proof.
  revert images cnt. induction l as [|c l IH]; intros images cnt H.
  - injection H as <- <-. simpl. rewrite app_nil_r. split; [done|lia].
  - cbn [for_each] in H. apply bind_Ok_inv in H as ([i1 c1] & Hc & H).
    apply IH in H as [H1 H2]. rewrite H1, H2, fmap_cons, filter_cons.
    remember (hf_of_part c) as hc eqn:Hhc. unfold hf_of_part in Hhc.
    destruct (type c); subst hc.
    + injection Hc as <- <-. rewrite <- app_assoc. simpl. done.
    + apply bind_Ok_inv in Hc as (u & _ & Hc).
      apply bind_Ok_inv in Hc as (img & _ & Hc). injection Hc as <- <-.
      rewrite <- app_assoc, length_app. simpl. split; [done|lia].
Qed.

(** X6. What [images_hfmessages_from_messages] returns beside the images:
    one entry per message, in order and under its role, holding one entry
    per part (a bare image marker for an image part, the text for a text
    part); and exactly as many image markers, over all entries, as images
    returned. *)
Theorem hfmessages_mirror_the_messages (messages messages' : list Message)
    (url_handler : string → result Image) (images : list Image)
    (hfmessages : list (string * list hf_part)) :
  images_hfmessages_from_messages messages url_handler
  = (messages', Ok (images, hfmessages)) →
  messages' = messages
  ∧ hfmessages = (λ m, (role m, hf_of_part <$> parts_of m)) <$> messages
  ∧ length (filter is_HfImage (hfmessages ≫= snd)) = length images.
Proof.
  unfold images_hfmessages_from_messages. intros [= <- H].
  split; [done|].
  enough (∀ images0 hf0,
    for_each messages (images0, hf0) (λ m '(images, hfmessages),
      '(images, cnt) ← for_content (content m) (images, [])
        (λ c '(images, cnt),
           match type c with
           | Ty_image_url =>
               u ← image_url_url c;
               image ← url_handler u;
               Ok (images ++ [image], cnt ++ [HfImage])
           | Ty_text => Ok (images, cnt ++ [HfText (text c)])
           end);
      Ok (images, hfmessages ++ [(role m, cnt)])) = Ok (images, hfmessages) →
    hfmessages
    = hf0 ++ ((λ m, (role m, hf_of_part <$> parts_of m)) <$> messages)
    ∧ length images
      = length images0
        + length (filter is_HfImage
                    (((λ m, (role m, hf_of_part <$> parts_of m)) <$> messages)
                       ≫= snd))) as Hgen.
  { destruct (Hgen [] [] H) as [-> Hlen]. split; [done|]. by rewrite Hlen. }
  clear H. induction messages as [|m ms IH]; intros images0 hf0 H.
  - injection H as <- <-. simpl. rewrite app_nil_r. split; [done|lia].
  - cbn [for_each] in H. apply bind_Ok_inv in H as ([i1 h1] & Hm & H).
    apply IH in H as [-> ->].
    apply bind_Ok_inv in Hm as ([i2 c2] & Hc & Hm). injection Hm as <- <-.
    assert (c2 = hf_of_part <$> parts_of m
            ∧ length i2
              = length images0
                + length (filter is_HfImage (hf_of_part <$> parts_of m)))
      as [-> ->].
    { unfold parts_of. destruct (content m) as [[|a s]|l]; simpl in Hc.
      - injection Hc as <- <-. simpl. split; [done|lia].
      - done.
      - by apply hf_inner_loop in Hc. }
    rewrite fmap_cons, <- app_assoc. split; [done|].
    change ((?x :: ?l) ≫= snd) with (x.2 ++ (l ≫= snd)).
    rewrite filter_app, length_app. simpl. lia.
Qed.


Lemma for_each_snoc {A B} (f : A → result B) (l : list A) (acc : list B) :
  for_each l acc (λ x acc, y ← f x; Ok (acc ++ [y]))
  = (ys ← mapM_result f l; Ok (acc ++ ys)).
Proof.
  revert acc. induction l as [|x l IH]; intros acc; simpl.
  - by rewrite app_nil_r.
  - destruct (f x) as [y|e]; [|done]. simpl. rewrite IH.
    destruct (mapM_result f l) as [ys|e]; [|done]. simpl.
    by rewrite <- app_assoc.
Qed.

Lemma mapM_result_Ok {A B} (f : A → result B) (l : list A) (ys : list B) :
  mapM_result f l = Ok ys → Forall2 (λ x y, f x = Ok y) l ys.
Proof.
  revert ys. induction l as [|x l IH]; intros ys H.
  - injection H as <-. constructor.
  - simpl in H. apply bind_Ok_inv in H as (y & Hy & H).
    apply bind_Ok_inv in H as (ys' & Hys & H). injection H as <-.
    constructor; [done | by apply IH].
Qed.

Lemma mapM_result_is_ok {A B} (f : A → result B) (l : list A) :
  Forall (λ x, is_ok (f x) = true) l → is_ok (mapM_result f l) = true.
Proof.
  induction 1 as [|x l Hx _ IH]; [done|]. simpl.
  destruct (f x); [|done]. simpl. by destruct (mapM_result f l).
Qed.

Lemma for_each_ext {A S} (body1 body2 : A → S → result S) (l : list A)
    (st : S) :
  (∀ x s, body1 x s = body2 x s) →
  for_each l st body1 = for_each l st body2.
Proof.
  intros Hext. revert st. induction l as [|x l IH]; intros st; [done|].
  simpl. rewrite Hext. destruct (body2 x st); simpl; [apply IH | done].
Qed.

Lemma conversation_content_eq (cnt : MessageContent) :
  for_content cnt [] (λ c cnt,
    match type c with
    | Ty_image_url => u ← image_url_url c; Ok (cnt ++ [ConvImage u])
    | Ty_text => Ok (cnt ++ [ConvText (text c)])
    end)
  = match cnt with
    | CList l => mapM_result conversation_part_of l
    | CStr EmptyString => Ok []
    | CStr (String _ _) => Raise AttributeError
    end.
Proof.
  destruct cnt as [[|a s]|l]; [done|done|]. simpl.
  rewrite (for_each_ext _
             (λ c acc, p ← conversation_part_of c; Ok (acc ++ [p]))).
  - rewrite for_each_snoc. by destruct (mapM_result _ l).
  - intros c acc. unfold conversation_part_of.
    destruct (type c); [done|]. by destruct (image_url_url c).
Qed.

Lemma messages_from_messages_eq (messages : list Message) :
  messages_from_messages messages
  = mapM_result (λ m,
      cnt ← match content m with
            | CList l => mapM_result conversation_part_of l
            | CStr EmptyString => Ok []
            | CStr (String _ _) => Raise AttributeError
            end;
      Ok (role m, cnt)) messages.
Proof.
  unfold messages_from_messages.
  rewrite (for_each_ext _
             (λ m acc,
                e ← (cnt ← match content m with
                           | CList l => mapM_result conversation_part_of l
                           | CStr EmptyString => Ok []
                           | CStr (String _ _) => Raise AttributeError
                           end;
                     Ok (role m, cnt));
                Ok (acc ++ [e]))).
  - rewrite for_each_snoc. by destruct (mapM_result _ messages).
  - intros m acc. rewrite conversation_content_eq.
    by destruct (match content m with
                 | CList l => mapM_result conversation_part_of l
                 | CStr EmptyString => Ok []
                 | CStr (String _ _) => Raise AttributeError
                 end).
Qed.

(** X7. [messages_from_messages] loads nothing: it returns as soon as every
    content is a list whose image parts carry an [image_url], resolvable or
    not.  What it returns has one entry per message under its role and one
    entry per part: the text of a text part, the URL of an image part as
    it was given; URLs erased it is the [hfmessages] structure. *)
Theorem conversation_mirrors_the_messages (messages : list Message) :
  (∀ conversation,
     messages_from_messages messages = Ok conversation →
     Forall2 (λ m e, e.1 = role m
                     ∧ Forall2 (λ c p, conversation_part_of c = Ok p)
                         (parts_of m) e.2)
       messages conversation
     ∧ (λ e, (e.1, hf_of_conversation_part <$> e.2)) <$> conversation
       = (λ m, (role m, hf_of_part <$> parts_of m)) <$> messages)
  ∧ (Forall (λ m, (∃ l, content m = CList l)
                  ∧ Forall (λ c, type c = Ty_image_url →
                                 is_Some (image_url c)) (parts_of m))
       messages →
     is_ok (messages_from_messages messages) = true).
Proof.
  rewrite messages_from_messages_eq. split.
  - intros conv H. apply mapM_result_Ok in H.
    assert (Forall2 (λ m e, e.1 = role m
                     ∧ Forall2 (λ c p, conversation_part_of c = Ok p)
                         (parts_of m) e.2) messages conv) as HF.
    { induction H as [|m e ms es Hm _ IH]; constructor; [|done].
      apply bind_Ok_inv in Hm as (cnt & Hcnt & Hm). injection Hm as <-.
      split; [done|]. simpl. unfold parts_of.
      destruct (content m) as [[|a s]|l]; [|done|].
      - injection Hcnt as <-. constructor.
      - by apply mapM_result_Ok. }
    split; [done|].
    clear H. induction HF as [|m e ms es [Hr Hp] _ IH]; [done|].
    rewrite !fmap_cons, IH, Hr. do 2 f_equal.
    clear -Hp. induction Hp as [|c p l ps Hc _ IH]; [done|].
    rewrite !fmap_cons, IH. f_equal.
    unfold conversation_part_of in Hc. unfold hf_of_part.
    destruct (type c); [by injection Hc as <-|].
    apply fmap_Ok_inv in Hc as (u & _ & ->). done.
  - intros Hms. apply mapM_result_is_ok.
    eapply Forall_impl; [exact Hms|]. intros m [[l Hl] Hparts]. simpl.
    unfold parts_of in Hparts. rewrite Hl in Hparts |- *.
    apply is_ok_bind; [|done]. apply mapM_result_is_ok.
    eapply Forall_impl; [exact Hparts|]. intros c Hc. simpl.
    unfold conversation_part_of, image_url_url. simpl in Hc.
    destruct (type c); [done|]. by destruct (Hc eq_refl) as [iu ->].
Qed.


Lemma pixtral_chunks_loop (l : list Content) (cnt cnt' : list chunk)
    (txt txt' : string) :
  for_each l (cnt, txt) (λ c '(cnt, txt),
    '(cnt, txt) ←
      match type c, text c with
      | Ty_text, Some (String a t) =>
          Ok (cnt ++ [TextChunk (String a t)], String a t)
      | _, _ => Ok (cnt, txt)
      end;
    match type c with
    | Ty_image_url => u ← image_url_url c; Ok (cnt ++ [ImageURLChunk u], txt)
    | Ty_text => Ok (cnt, txt)
    end) = Ok (cnt', txt') →
  txt' = last_truthy_text txt l
  ∧ length cnt' = length cnt + length (filter gives_chunk l).
Proof.
  revert cnt txt. induction l as [|c l IH]; intros cnt txt H.
  - injection H as <- <-. simpl. split; [done|lia].
  - cbn [for_each] in H. apply bind_Ok_inv in H as ([c1 t1] & Hc & H).
    apply IH in H as [H1 H2]. rewrite H1, H2, filter_cons.
    change (last_truthy_text txt (c :: l))
      with (last_truthy_text
              (match type c, text c with
               | Ty_text, Some (String a t) => String a t
               | _, _ => txt
               end) l).
    remember (gives_chunk c) as gc eqn:Hgc. unfold gives_chunk in Hgc.
    destruct (type c).
    + destruct (text c) as [[|a t]|]; simpl in Hc; injection Hc as <- <-;
        subst gc; rewrite ?length_app; simpl; (split; [done|lia]).
    + assert (∃ u, c1 = cnt ++ [ImageURLChunk u] ∧ t1 = txt) as (u & -> & ->).
      { destruct (text c); simpl in Hc;
          apply bind_Ok_inv in Hc as (u & _ & Hc); injection Hc as <- <-;
          by exists u. }
      subst gc. rewrite length_app. simpl. split; [done|lia].
Qed.

Lemma mistral_role_true (m : Message) :
  role m = "user" ∨ role m = "assistant" ∨ role m = "system" →
  mistral_role m = true.
Proof.
  unfold mistral_role. intros [H|[H|H]]; rewrite H; by vm_compute.
Qed.

Lemma mistral_role_false (m : Message) :
  role m ≠ "user" → role m ≠ "assistant" → role m ≠ "system" →
  mistral_role m = false.
Proof.
  unfold mistral_role. intros Hu Ha Hs.
  by rewrite (bool_decide_false (role m = "user")),
    (bool_decide_false (role m = "assistant")),
    (bool_decide_false (role m = "system")).
Qed.

(** X8. [pixtral_messages] keeps the user, assistant and system messages, in
    order, and drops every message of another role without a word.  A user
    message becomes one chunk per image part and per non-empty text part;
    an assistant or system message becomes its last non-empty text alone
    (the empty string when it has none), its images dropped. *)
Theorem pixtral_messages_keep_three_roles (messages : list Message)
    (request : ChatCompletionRequest) :
  pixtral_messages messages = Ok request →
  ccr_model request = "pixtral"
  ∧ Forall2 mistral_message_of (filter mistral_role messages)
      (ccr_messages request)
  ∧ length (ccr_messages request) = length (filter mistral_role messages).
Proof.
  unfold pixtral_messages. intros H.
  apply bind_Ok_inv in H as (pix & Hpix & H). injection H as <-. simpl.
  split; [done|].
  enough (Forall2 mistral_message_of (filter mistral_role messages) pix) as HF.
  { split; [done|]. symmetry. by eapply Forall2_length. }
  enough (∀ acc pix',
    for_each messages acc (λ m pix_messages,
      '(cnt, txt) ← for_content (content m) ([], "") (λ c '(cnt, txt),
        '(cnt, txt) ←
          match type c, text c with
          | Ty_text, Some (String a t) =>
              Ok (cnt ++ [TextChunk (String a t)], String a t)
          | _, _ => Ok (cnt, txt)
          end;
        match type c with
        | Ty_image_url =>
            u ← image_url_url c; Ok (cnt ++ [ImageURLChunk u], txt)
        | Ty_text => Ok (cnt, txt)
        end);
      if decide (role m = "user") then Ok (pix_messages ++ [UserMessage cnt])
      else if decide (role m = "assistant") then
        Ok (pix_messages ++ [AssistantMessage txt])
      else if decide (role m = "system") then
        Ok (pix_messages ++ [SystemMessage txt])
      else Ok pix_messages) = Ok pix' →
    ∃ new, pix' = acc ++ new
           ∧ Forall2 mistral_message_of (filter mistral_role messages) new)
    as Hgen.
  { destruct (Hgen [] pix Hpix) as (new & -> & HF). done. }
  clear. induction messages as [|m ms IH]; intros acc pix' H.
  - injection H as <-. exists []. by rewrite app_nil_r.
  - cbn [for_each] in H. apply bind_Ok_inv in H as (acc1 & Hm & H).
    apply IH in H as (new & -> & HF).
    apply bind_Ok_inv in Hm as ([cnt txt] & Hc & Hm).
    assert (txt = last_truthy_text "" (parts_of m)
            ∧ length cnt = length (filter gives_chunk (parts_of m)))
      as [Htxt Hcnt].
    { unfold parts_of. destruct (content m) as [[|a s]|l]; simpl in Hc.
      - by injection Hc as <- <-.
      - done.
      - apply pixtral_chunks_loop in Hc as [-> ->]. done. }
    rewrite filter_cons.
    destruct (decide (role m = "user")) as [Hu|Hu].
    { injection Hm as <-. rewrite mistral_role_true by auto. simpl.
      exists (UserMessage cnt :: new). rewrite <- app_assoc.
      split; [done|]. by constructor. }
    destruct (decide (role m = "assistant")) as [Ha|Ha].
    { injection Hm as <-. rewrite mistral_role_true by auto. simpl.
      exists (AssistantMessage txt :: new). rewrite <- app_assoc.
      split; [done|]. by constructor. }
    destruct (decide (role m = "system")) as [Hs|Hs].
    { injection Hm as <-. rewrite mistral_role_true by auto. simpl.
      exists (SystemMessage txt :: new). rewrite <- app_assoc.
      split; [done|]. by constructor. }
    injection Hm as <-. rewrite mistral_role_false by done.
    simpl. by exists new.
Qed.


(** ** Repacking before compiling *)

Lemma repack_message_content_ok (m : Message) :
  match content m with
  | CStr _ => True
  | CList l => Forall part_ok l
  end →
  content_ok (content (repack_message m)).
Proof.
  unfold repack_message, content_ok. destruct (content m) as [s|l] eqn:Hc.
  - intros _. exists [Text s]. split; [done|].
    constructor; [|constructor]. unfold part_ok. simpl. by eexists.
  - intros Hl. exists l. by rewrite Hc.
Qed.

(** X9. The order of a request is repack, then compile: once
    [repack_message_content] has run, every format function but pixtral
    returns on a request whose contents were bare strings or lists of
    well-formed parts (and whose trailing assistant message, if it was a
    list, opens with a part that has a text). *)
Theorem repacked_request_compiles {float dict : Type} (f : format_function)
    (request : Req.ImageChatRequest float dict) :
  f ≠ Pixtral →
  Forall (λ m, match content m with
               | CStr _ => True
               | CList l => Forall part_ok l
               end) (Req.messages request) →
  (∀ m, last (Req.messages request) = Some m → role m = "assistant" →
        match content m with
        | CStr _ => True
        | CList l => ∃ c rest t, l = c :: rest ∧ text c = Some t
        end) →
  is_ok (call f (Req.messages (repack_message_content request))).2 = true.
Proof.
  intros Hf Hms Hlast. destruct request as [ms]. simpl in *.
  apply call_returns; [done| |].
  - apply Forall_fmap. eapply Forall_impl; [exact Hms|].
    intros m Hm. simpl. by apply repack_message_content_ok.
  - intros m' Hl Hrole. rewrite fmap_last in Hl.
    destruct (last ms) as [m|] eqn:Hm; [|done]. injection Hl as <-.
    specialize (Hlast m eq_refl). unfold repack_message in *.
    unfold content0_text. destruct (content m) as [s|l] eqn:Hc; simpl in *.
    + by exists s.
    + rewrite Hc. destruct (Hlast Hrole) as (c & rest & t & -> & ->).
      by exists t.
Qed.

(** X10. Without the repacking step no format function accepts a user
    message whose content is a non-empty bare string: each loop over the
    content meets a one-character string where it expects a part, and the
    call raises AttributeError, the list untouched. *)
Theorem bare_string_content_is_refused (f : format_function) (m : Message)
    (a : ascii) (s : string) :
  role m = "user" →
  content m = CStr (String a s) →
  call f [m] = ([m], Raise AttributeError).
Proof.
  intros Hrole Hcnt. destruct m as [r c n]. simpl in Hrole, Hcnt. subst r c.
  by destruct f.
Qed.

End Prompts.

(** ** Request normalisation *)

Lemma repack_message_idem (m : Message) :
  repack_message (repack_message m) = repack_message m.
Proof.
  unfold repack_message. destruct (content m) eqn:Hcnt; simpl; [done|].
  by rewrite Hcnt.
Qed.

(** C7. [repack_message_content] turns a bare-string content [s] into the
    one-part list [[Text s]] and leaves a list content alone; role and
    name of every message, the order and number of messages and every
    other field of the request stay as they were; repacking twice is
    repacking once. *)
Theorem repack_message_content_normalises {float dict : Type}
    (request : Req.ImageChatRequest float dict) :
  length (Req.messages (repack_message_content request))
  = length (Req.messages request)
  ∧ (∀ i m, Req.messages request !! i = Some m →
       ∃ m', Req.messages (repack_message_content request) !! i = Some m'
             ∧ role m' = role m ∧ name m' = name m
             ∧ content m' = match content m with
                            | CStr s => CList [Text s]
                            | CList l => CList l
                            end)
  ∧ Req.with_messages (repack_message_content request) (Req.messages request)
    = request
  ∧ repack_message_content (repack_message_content request)
    = repack_message_content request.
Proof.
  destruct request. unfold repack_message_content, Req.with_messages. simpl.
  split; [apply length_fmap|]. split; [|split].
  - intros i m Hi. exists (repack_message m). split.
    + by rewrite list_lookup_fmap, Hi.
    + unfold repack_message. by destruct (content m) eqn:Hcnt.
  - reflexivity.
  - f_equal. rewrite <- list_fmap_compose. apply list_fmap_ext.
    intros i m _. apply repack_message_idem.
Qed.

(** ** End-of-sequence truncation *)

Lemma prefix_split (p s : string) :
  String.prefix p s = true → ∃ rest, s = p +:+ rest.
Proof.
  revert s. induction p as [|a p IH]; intros s H; [by exists s|].
  destruct s as [|b s]; [done|]. simpl in H.
  destruct (ascii_dec a b) as [->|]; [|done].
  destruct (IH _ H) as [rest ->]. by exists rest.
Qed.

Lemma index0_cons (sub : string) (c : ascii) (s : string) :
  String.index 0 sub (String c s)
  = if String.prefix sub (String c s) then Some 0
    else match String.index 0 sub s with
         | Some n => Some (S n)
         | None => None
         end.
Proof. reflexivity. Qed.

Lemma index_Some_split (sub s : string) (i : nat) :
  String.index 0 sub s = Some i →
  ∃ after, s = String.substring 0 i s +:+ sub +:+ after
           ∧ String.length (String.substring 0 i s) = i.
Proof.
  revert i. induction s as [|c s IH]; intros i H.
  - simpl in H. destruct sub; [|done]. injection H as <-. by exists "".
  - rewrite index0_cons in H.
    destruct (String.prefix sub (String c s)) eqn:Hp.
    + injection H as <-. apply prefix_split in Hp as [rest Hrest].
      exists rest. by destruct sub.
    + destruct (String.index 0 sub s) as [j|] eqn:Hj; [|done].
      injection H as <-. destruct (IH _ eq_refl) as (after & Heq & Hlen).
      exists after. simpl. rewrite Hlen. split; [|done]. by rewrite <- Heq.
Qed.

Lemma index_None_no_split (sub s : string) :
  String.index 0 sub s = None → ∀ before after, s ≠ before +:+ sub +:+ after.
Proof.
  induction s as [|c s IH]; intros H before after Heq.
  - simpl in H. destruct sub; [done|]. by destruct before.
  - rewrite index0_cons in H.
    destruct (String.prefix sub (String c s)) eqn:Hp; [done|].
    destruct (String.index 0 sub s) eqn:Hj; [done|].
    destruct before as [|b before].
    + simpl in Heq. rewrite Heq, prefix_app in Hp. done.
    + injection Heq as -> Heq. by eapply IH.
Qed.

Lemma index_first (sub s : string) (i : nat) :
  String.index 0 sub s = Some i →
  ∀ before after, s = before +:+ sub +:+ after → i ≤ String.length before.
Proof.
  revert i. induction s as [|c s IH]; intros i H before after Heq.
  - simpl in H. destruct sub; [|done]. injection H as <-. lia.
  - rewrite index0_cons in H.
    destruct (String.prefix sub (String c s)) eqn:Hp.
    + injection H as <-. lia.
    + destruct (String.index 0 sub s) as [j|] eqn:Hj; [|done].
      injection H as <-. destruct before as [|b before].
      * simpl in Heq. rewrite Heq, prefix_app in Hp. done.
      * injection Heq as -> Heq. simpl.
        pose proof (IH _ eq_refl _ _ Heq). lia.
Qed.

(** [new_text.find(eos) == -1] says that the marker does not occur. *)
Lemma find_absent (s sub : string) :
  find s sub = (-1)%Z ↔ ∀ before after, s ≠ before +:+ sub +:+ after.
Proof.
  unfold find. destruct (String.index 0 sub s) as [i|] eqn:Hi.
  - split; [lia|]. intros Hno.
    destruct (index_Some_split _ _ _ Hi) as (after & Heq & _).
    by destruct (Hno _ _ Heq).
  - split; [|done]. intros _. by apply index_None_no_split.
Qed.

(** When it occurs, [new_text[:end]] is what stands before its first
    occurrence. *)
Lemma find_present (s sub : string) :
  find s sub ≠ (-1)%Z →
  ∃ after, s = slice_to s (find s sub) +:+ sub +:+ after
           ∧ ∀ before' after', s = before' +:+ sub +:+ after' →
               String.length (slice_to s (find s sub))
               ≤ String.length before'.
Proof.
  unfold find, slice_to. destruct (String.index 0 sub s) as [i|] eqn:Hi; [|done].
  intros _. destruct (index_Some_split _ _ _ Hi) as (after & Heq & Hlen).
  exists after. rewrite (proj2 (Z.leb_le 0 (Z.of_nat i))) by lia.
  rewrite Nat2Z.id. split; [done|].
  intros before' after' Heq'. rewrite Hlen. by eapply index_first.
Qed.

(** C6. The adapter's loop hands on every fragment it receives unchanged
    as long as none contains the end-of-sequence marker; at the first
    fragment that contains it, it hands on what stands before the marker's
    first occurrence and takes nothing more from the generator. *)
Theorem stream_until_eos_truncates (eos_token : string)
    (generated : list string) :
  (Forall (λ t, find t eos_token = (-1)%Z) generated →
     stream_until_eos eos_token generated = generated
     ∧ consumed_until_eos eos_token generated = length generated)
  ∧ (∀ pre t post,
       generated = pre ++ t :: post →
       Forall (λ t, find t eos_token = (-1)%Z) pre →
       find t eos_token ≠ (-1)%Z →
       ∃ before after,
         t = before +:+ eos_token +:+ after
         ∧ (∀ before' after', t = before' +:+ eos_token +:+ after' →
              String.length before ≤ String.length before')
         ∧ stream_until_eos eos_token generated = pre ++ [before]
         ∧ consumed_until_eos eos_token generated = length pre + 1)
  ∧ stream_until_eos "<EOS>" ["hello "; "world<EOS>"; "ignored"]
    = ["hello "; "world"]
  ∧ stream_until_eos "<EOS>"
      (threaded_streaming_generator
         ["hello "; "world<EOS>"; "ignored"] Returns).1
    = ["hello "; "world"].
Proof.
  split; [|split; [|split]].
  - induction 1 as [|t l Ht _ [IH1 IH2]]; [done|].
    simpl. rewrite Ht. simpl. by rewrite IH1, IH2.
  - intros pre t post -> Hpre Ht.
    destruct (find_present _ _ Ht) as (after & Heq & Hfirst).
    exists (slice_to t (find t eos_token)), after.
    split; [done|]. split; [done|].
    induction Hpre as [|p pre Hp _ [IH1 IH2]]; simpl.
    + apply Z.eqb_neq in Ht. by rewrite Ht.
    + rewrite Hp. simpl. by rewrite IH1, IH2.
  - reflexivity.
  - reflexivity.
Qed.

(** ** The streaming relay *)

Lemma stream_inv_init (fragments : list string) (fin : ending) :
  stream_inv fragments fin (stream_init fragments fin).
Proof.
  unfold stream_inv, stream_init. simpl. exists fragments.
  split; [done|]. split; [done|]. by destruct fin.
Qed.

Lemma frags_stop_inv (q : list item) (rest : list string) :
  q = (Frag <$> rest) ++ [StopSignal] →
  match q with
  | [] => False
  | Frag t :: q' => ∃ rest', rest = t :: rest' ∧ q' = (Frag <$> rest') ++ [StopSignal]
  | StopSignal :: q' => rest = [] ∧ q' = []
  end.
Proof.
  intros ->. destruct rest as [|t rest]; simpl; [done|]. by exists rest.
Qed.

Lemma stream_inv_worker_step fragments fin s s' :
  stream_inv fragments fin s → worker_step s = Some s' →
  stream_inv fragments fin s'.
Proof.
  unfold stream_inv, worker_step, pending, exq_eventual.
  destruct s as [w q x c y]. simpl. intros Hinv Hstep.
  destruct c.
  - destruct Hinv as (rest & Hpend & Hy & Hx).
    destruct w as [[|t todo] [|e]|e| |]; try discriminate Hstep;
      injection Hstep as <-; simpl in *;
      exists rest; rewrite <- ?app_assoc; simpl; rewrite ?app_nil_r in *;
      done.
  - destruct Hinv as (-> & _). done.
  - destruct Hinv as (-> & _). done.
  - destruct Hinv as (-> & _). done.
  - destruct w as [[|t todo] [|e]|e| |]; try discriminate Hstep;
      injection Hstep as <-; done.
Qed.

Lemma stream_inv_consumer_step fragments fin s s' :
  stream_inv fragments fin s → consumer_step s = Some s' →
  stream_inv fragments fin s'.
Proof.
  unfold stream_inv, consumer_step, pending, exq_eventual.
  destruct s as [w q x c y]. simpl. intros Hinv Hstep.
  destruct c; [| |done|done|done].
  - destruct Hinv as (rest & Hpend & Hy & Hx).
    destruct q as [|[t|] q]; [done| |]; injection Hstep as <-; simpl in *.
    + apply frags_stop_inv in Hpend as (rest' & -> & Hpend).
      exists rest'. split; [done|]. split; [|done].
      rewrite <- Hy, filter_cons.
      destruct (truthy t); simpl; [by rewrite <- app_assoc | done].
    + apply frags_stop_inv in Hpend as (-> & Hq).
      apply app_eq_nil in Hq as [-> Hw].
      destruct w as [todo f|e| |]; simpl in Hw;
        try (by destruct todo); try done.
      simpl in Hx, Hy. rewrite app_nil_r in Hx, Hy. done.
  - destruct Hinv as (-> & -> & Hx & Hy).
    destruct fin as [|e]; simpl in Hx; subst x; injection Hstep as <-; done.
Qed.

Lemma stream_inv_consumer_timeout fragments fin s s' :
  stream_inv fragments fin s → consumer_timeout s = Some s' →
  stream_inv fragments fin s'.
Proof.
  unfold stream_inv, consumer_timeout.
  destruct s as [w q x c y]. simpl. intros Hinv Hstep.
  destruct c; try done. destruct q; [|done]. injection Hstep as <-. simpl.
  destruct Hinv as (rest & _ & <- & _). by apply prefix_app_r.
Qed.

Lemma stream_inv_reachable fragments fin s :
  rtc stream_step (stream_init fragments fin) s → stream_inv fragments fin s.
Proof.
  intros Hrun.
  refine (rtc_ind_r (stream_inv fragments fin) _ _ _ s Hrun).
  - apply stream_inv_init.
  - intros s1 s2 _ [Hw|[Hc|Ht]] Hinv.
    + by eapply stream_inv_worker_step.
    + by eapply stream_inv_consumer_step.
    + by eapply stream_inv_consumer_timeout.
Qed.

(** At the end of a run in which no wait ran out. *)
Lemma stream_inv_final fragments fin s :
  stream_inv fragments fin s → stream_final s → st_consumer s ≠ TimedOut →
  observed s = (filter truthy fragments, consumer_expected fin)
  ∧ text_queue s = [] ∧ st_worker s = Exited.
Proof.
  unfold stream_inv, stream_final, observed, worker_step, consumer_step,
    consumer_timeout, pending.
  destruct s as [w q x c y]. simpl. intros Hinv (Hw & Hc & Ht) Hne.
  destruct c.
  - by destruct q as [|[t|] q].
  - by destruct x.
  - by destruct Hinv as (-> & -> & <- & ->).
  - by destruct Hinv as (-> & -> & <- & ->).
  - done.
Qed.


(** A scheduled run is a run, and none of its waits runs out. *)
Lemma stream_run_reachable (schedule : list bool) (s : stream_state) :
  rtc stream_step s (stream_run schedule s).
Proof.
  revert s. induction schedule as [|b schedule IH]; intros s; [done|].
  simpl. destruct b.
  - destruct (worker_step s) as [s1|] eqn:Hs; simpl; [|apply IH].
    eapply rtc_l; [by left | apply IH].
  - destruct (consumer_step s) as [s1|] eqn:Hs; simpl; [|apply IH].
    eapply rtc_l; [by right; left | apply IH].
Qed.

Lemma stream_run_in_time (schedule : list bool) (s : stream_state) :
  st_consumer s ≠ TimedOut → st_consumer (stream_run schedule s) ≠ TimedOut.
Proof.
  revert s. induction schedule as [|b schedule IH]; intros s Hs; [done|].
  simpl. apply IH. destruct s as [w q x c y]. simpl in Hs.
  destruct b; unfold worker_step, consumer_step; simpl.
  - by destruct w as [[|t todo] [|e]|e| |].
  - destruct c; try done.
    + by destruct q as [|[t|] q].
    + by destruct x.
Qed.

Lemma stream_run_app (a b : list bool) (s : stream_state) :
  stream_run (a ++ b) s = stream_run b (stream_run a s).
Proof. revert s. induction a as [|x a IH]; intros s; simpl; [done|apply IH]. Qed.

Lemma worker_phase (todo : list string) (fin : ending) (q : list item)
    (c : consumer) (y : list string) :
  stream_run (replicate (length todo + 3) true)
    {| st_worker := Generating todo fin; text_queue := q; exq := [];
       st_consumer := c; yielded := y |}
  = {| st_worker := Exited;
       text_queue := q ++ (Frag <$> todo) ++ [StopSignal];
       exq := exq_expected fin; st_consumer := c; yielded := y |}.
Proof.
  revert q. induction todo as [|t todo IH]; intros q.
  - by destruct fin.
  - simpl. rewrite IH. by rewrite <- app_assoc.
Qed.

Lemma consumer_phase (rest : list string) (fin : ending) (y : list string) :
  stream_run (replicate (length rest + 2) false)
    {| st_worker := Exited; text_queue := (Frag <$> rest) ++ [StopSignal];
       exq := exq_expected fin; st_consumer := Iterating; yielded := y |}
  = {| st_worker := Exited; text_queue := []; exq := [];
       st_consumer := consumer_expected fin;
       yielded := y ++ filter truthy rest |}.
Proof.
  revert y. induction rest as [|t rest IH]; intros y.
  - simpl. rewrite app_nil_r. by destruct fin.
  - simpl. rewrite IH. rewrite filter_cons. destruct (truthy t); simpl; [|done].
    by rewrite <- app_assoc.
Qed.

(** The generator as a function: non-empty fragments in order, then the
    end the worker came to. *)
Lemma threaded_streaming_generator_eq (fragments : list string)
    (fin : ending) :
  threaded_streaming_generator fragments fin
  = (filter truthy fragments, consumer_expected fin).
Proof.
  unfold threaded_streaming_generator, stream_init.
  by rewrite stream_run_app, worker_phase, consumer_phase.
Qed.

(** The run of [threaded_streaming_generator] is a run to the end in which
    no wait runs out. *)
Lemma worker_first_run (fragments : list string) (fin : ending) :
  let s :=
    stream_run
      (replicate (length fragments + 3) true
       ++ replicate (length fragments + 2) false)
      (stream_init fragments fin) in
  rtc stream_step (stream_init fragments fin) s
  ∧ stream_final s ∧ st_consumer s ≠ TimedOut.
Proof.
  split; [apply stream_run_reachable|].
  unfold stream_init. rewrite stream_run_app, worker_phase, consumer_phase.
  unfold stream_final, worker_step, consumer_step, consumer_timeout. simpl.
  by destruct fin.
Qed.



(** * Concrete runs *)

#[local] Abbreviation fixture_url_to_image :=
  (url_to_image fixture_requests_get fixture_DataURI_data fixture_Image_open).
#[local] Abbreviation fixture_call :=
  (call fixture_requests_get fixture_DataURI_data fixture_Image_open).
#[local] Abbreviation fixture_chatml :=
  (chatml_prompt_from_messages fixture_requests_get fixture_DataURI_data
     fixture_Image_open).
#[local] Abbreviation fixture_prompt_from_messages :=
  (prompt_from_messages fixture_requests_get fixture_DataURI_data
     fixture_Image_open).

Lemma chatml_end_to_end_witness :
  fixture_url_to_image "data:image/png;base64,iVBORw0KGgo=" = Ok "data:image/png;base64,iVBORw0KGgo="
  ∧ ∃ prompt,
      fixture_chatml
        [example_system; example_user "data:image/png;base64,iVBORw0KGgo="]
        ("<image>" +:+ LF)
      = ([example_system; example_user "data:image/png;base64,iVBORw0KGgo="],
         Ok (["data:image/png;base64,iVBORw0KGgo="], prompt))
      ∧ fixture_prompt_from_messages
          [example_system; example_user "data:image/png;base64,iVBORw0KGgo="]
          "chatml"
        = ([example_system;
            example_user "data:image/png;base64,iVBORw0KGgo="],
           Ok (["data:image/png;base64,iVBORw0KGgo="], prompt))
      ∧ startswith prompt
          ("<|im_start|>system" +:+ LF +:+ "Be terse.<|im_end|>"
           +:+ "<|im_start|>user" +:+ LF +:+ "<image>" +:+ LF
           +:+ "What is this?<|im_end|>") = true
      ∧ endswith prompt ("<|im_start|>assistant" +:+ LF) = true.
Proof.
  split; [reflexivity|].
  apply (chatml_end_to_end fixture_requests_get fixture_DataURI_data
           fixture_Image_open "data:image/png;base64,iVBORw0KGgo="
           "data:image/png;base64,iVBORw0KGgo=").
  reflexivity.
Defined.

Lemma url_to_image_unsupported_scheme_witness :
  startswith "ftp://host/cat.png" "http" = false
  ∧ startswith "ftp://host/cat.png" "data:" = false
  ∧ fixture_url_to_image "ftp://host/cat.png" = Raise UnboundLocalError
  ∧ ∀ img, fixture_url_to_image "ftp://host/cat.png" ≠ Ok img.
Proof.
  split; [reflexivity|]. split; [reflexivity|].
  apply (url_to_image_unsupported_scheme fixture_requests_get
           fixture_DataURI_data fixture_Image_open "ftp://host/cat.png");
    reflexivity.
Defined.

Lemma prompt_from_messages_dispatch_witness :
  known_formats fixture_requests_get fixture_DataURI_data fixture_Image_open
    !! "not-a-format" = None
  ∧ ("not-a-format" ∉
       (known_formats_items fixture_requests_get fixture_DataURI_data
          fixture_Image_open).*1)
  ∧ fixture_prompt_from_messages [user_hi] "not-a-format"
    = ([user_hi], Raise (ValueError "Unknown format: not-a-format"))
  ∧ endswith "Unknown format: not-a-format" "not-a-format" = true.
Proof.
  split; [vm_compute; reflexivity|].
  apply (proj1 (prompt_from_messages_dispatch fixture_requests_get
                  fixture_DataURI_data fixture_Image_open [user_hi]
                  "not-a-format")).
  vm_compute. reflexivity.
Defined.

Lemma images_follow_walked_image_parts_witness :
  fixture_call Chatml [example_user "data:,a"; assistant_partial]
  = ([example_user "data:,a"],
     Ok (["data:,a"],
         Some ("<|im_start|>user" +:+ LF +:+ "<image>" +:+ LF
               +:+ "What is this?<|im_end|><|im_start|>assistant" +:+ LF
               +:+ "partial")))
  ∧ Forall2 (resolves fixture_url_to_image)
      (image_parts_of (image_scope Chatml [example_user "data:,a"]))
      ["data:,a"]
  ∧ length ["data:,a"]
    = length (image_parts_of (image_scope Chatml [example_user "data:,a"]))
  ∧ (Chatml ≠ Pixtral →
       [example_user "data:,a"]
       = remaining Chatml [example_user "data:,a"; assistant_partial]).
Proof.
  split; [vm_compute; reflexivity|].
  apply (proj1 (images_follow_walked_image_parts fixture_requests_get
                  fixture_DataURI_data fixture_Image_open Chatml
                  [example_user "data:,a"; assistant_partial])
           [example_user "data:,a"] ["data:,a"]
           (Some ("<|im_start|>user" +:+ LF +:+ "<image>" +:+ LF
                  +:+ "What is this?<|im_end|><|im_start|>assistant" +:+ LF
                  +:+ "partial"))).
  vm_compute. reflexivity.
Defined.

(** C2 as stated fails: chatml returns no image for an [image_url] part
    that sits in a system message, though the part is among the messages
    left after the trailing-assistant block. *)
Lemma images_skip_non_user_parts :
  fixture_call Chatml [system_with_image]
  = ([system_with_image], Ok ([], Some ("<|im_start|>assistant" +:+ LF)))
  ∧ length (image_parts_of [system_with_image]) = 1
  ∧ after_extraction [system_with_image] = [system_with_image].
Proof. vm_compute. repeat split; reflexivity. Qed.

Lemma trailing_assistant_popped_witness :
  generation_tag Chatml = Some ("<|im_start|>assistant" +:+ LF)
  ∧ last [user_hi; assistant_partial] = Some assistant_partial
  ∧ role assistant_partial = "assistant"
  ∧ content0_text assistant_partial = Ok (Some "partial")
  ∧ (Chatml ≠ Pixtral →
       (fixture_call Chatml [user_hi; assistant_partial]).1
       = removelast [user_hi; assistant_partial])
  ∧ (Chatml = Pixtral →
       (fixture_call Chatml [user_hi; assistant_partial]).1
       = removelast [user_hi; assistant_partial]
       ∨ (fixture_call Chatml [user_hi; assistant_partial]).1
         = removelast (removelast [user_hi; assistant_partial]))
  ∧ length (fixture_call Chatml [user_hi; assistant_partial]).1
    < length [user_hi; assistant_partial]
  ∧ (fixture_call Chatml [user_hi; assistant_partial]).1
    `prefix_of` [user_hi; assistant_partial].
Proof.
  do 4 (split; [reflexivity|]).
  apply (trailing_assistant_popped_from_callers_list fixture_requests_get
           fixture_DataURI_data fixture_Image_open Chatml
           ("<|im_start|>assistant" +:+ LF) [user_hi; assistant_partial]
           assistant_partial "partial"); reflexivity.
Defined.

(** C3 as stated fails: after the call the list the caller passed has lost
    its last message. *)
Lemma callers_list_is_mutated :
  (fixture_call Chatml [user_hi; assistant_partial]).1 = [user_hi]
  ∧ (fixture_call Chatml [user_hi; assistant_partial]).1
    ≠ [user_hi; assistant_partial].
Proof. split; [vm_compute; reflexivity | vm_compute; discriminate]. Qed.


Lemma text_parts_of_one_message_witness :
  content system_two_parts = CList [Text "Be terse."; Text "Be kind."]
  ∧ fixture_chatml [example_user "data:,a"; system_two_parts; user_hi]
      ("<image>" +:+ LF)
    = ([example_user "data:,a"; system_two_parts; user_hi],
       Ok (["data:,a"],
           "<|im_start|>user" +:+ LF +:+ "<image>" +:+ LF
           +:+ "What is this?<|im_end|>"
           +:+ "<|im_start|>system" +:+ LF +:+ "Be terse.<|im_end|>"
           +:+ "<|im_start|>system" +:+ LF +:+ "Be kind.<|im_end|>"
           +:+ "<|im_start|>user" +:+ LF +:+ "hi<|im_end|>"
           +:+ "<|im_start|>assistant" +:+ LF))
  ∧ ∃ turns_pre post' turns_post generation_msg,
      pop_trailing_assistant [user_hi] ("<|im_start|>assistant" +:+ LF)
      = (post', Ok generation_msg)
      ∧ [example_user "data:,a"; system_two_parts; user_hi]
        = [example_user "data:,a"] ++ system_two_parts :: post'
      ∧ mapM_result
          (chatml_turn fixture_requests_get fixture_DataURI_data
             fixture_Image_open ("<image>" +:+ LF))
          [example_user "data:,a"] = Ok turns_pre
      ∧ mapM_result
          (chatml_turn fixture_requests_get fixture_DataURI_data
             fixture_Image_open ("<image>" +:+ LF))
          post' = Ok turns_post
      ∧ ["data:,a"] = (turns_pre ≫= fst) ++ (turns_post ≫= fst)
      ∧ "<|im_start|>user" +:+ LF +:+ "<image>" +:+ LF
        +:+ "What is this?<|im_end|>"
        +:+ "<|im_start|>system" +:+ LF +:+ "Be terse.<|im_end|>"
        +:+ "<|im_start|>system" +:+ LF +:+ "Be kind.<|im_end|>"
        +:+ "<|im_start|>user" +:+ LF +:+ "hi<|im_end|>"
        +:+ "<|im_start|>assistant" +:+ LF
        = concat_strings (snd <$> turns_pre)
          +:+ concat_strings
                ((λ c, "<|im_start|>" +:+ role system_two_parts +:+ LF
                         +:+ fstr (text c) +:+ "<|im_end|>")
                   <$> text_parts_in [Text "Be terse."; Text "Be kind."])
          +:+ concat_strings (snd <$> turns_post)
          +:+ generation_msg.
Proof.
  split; [reflexivity|]. split; [reflexivity|].
  apply (proj2 (proj2 (proj2
           (text_parts_of_one_message fixture_requests_get
              fixture_DataURI_data fixture_Image_open system_two_parts
              [Text "Be terse."; Text "Be kind."] ("<image>" +:+ LF)
              eq_refl)))
           [example_user "data:,a"] [user_hi]);
    [by left | reflexivity].
Defined.

(** C8 as stated fails for chatml: two text parts of a system message come
    out as two system blocks, and their texts stand nowhere side by side
    in the prompt.  The adapter does join them. *)
Lemma chatml_wraps_each_text_part :
  fixture_chatml [system_two_parts] ("<image>" +:+ LF)
  = ([system_two_parts],
     Ok ([],
         "<|im_start|>system" +:+ LF +:+ "Be terse.<|im_end|>"
         +:+ "<|im_start|>system" +:+ LF +:+ "Be kind.<|im_end|>"
         +:+ "<|im_start|>assistant" +:+ LF))
  ∧ contains
      ("<|im_start|>system" +:+ LF +:+ "Be terse.<|im_end|>"
       +:+ "<|im_start|>system" +:+ LF +:+ "Be kind.<|im_end|>"
       +:+ "<|im_start|>assistant" +:+ LF)
      "Be terse.Be kind." = false
  ∧ qwen_message_of system_two_parts
    = Ok {| q_role := "system";
            q_content := [QText (Some "Be terse.Be kind.")] |}.
Proof. vm_compute. repeat split; reflexivity. Qed.

Lemma trailing_assistant_reads_first_text_witness :
  generation_tag Chatml = Some ("<|im_start|>assistant" +:+ LF)
  ∧ last [user_hi; assistant_partial] = Some assistant_partial
  ∧ role assistant_partial = "assistant"
  ∧ (∀ c rest t,
       content assistant_partial = CList (c :: rest) → text c = Some t →
       length (fixture_call Chatml [user_hi; assistant_partial]).1
       < length [user_hi; assistant_partial]
       ∧ ∀ images prompt,
           (fixture_call Chatml [user_hi; assistant_partial]).2
           = Ok (images, prompt) →
           ∃ body,
             prompt = Some (body +:+ ("<|im_start|>assistant" +:+ LF) +:+ t))
  ∧ (∀ c rest,
       content assistant_partial = CList (c :: rest) → text c = None →
       fixture_call Chatml [user_hi; assistant_partial]
       = ([user_hi; assistant_partial], Raise TypeError))
  ∧ (content assistant_partial = CList [] →
       fixture_call Chatml [user_hi; assistant_partial]
       = ([user_hi; assistant_partial], Raise IndexError)).
Proof.
  do 3 (split; [reflexivity|]).
  apply (trailing_assistant_reads_first_text fixture_requests_get
           fixture_DataURI_data fixture_Image_open Chatml
           ("<|im_start|>assistant" +:+ LF) [user_hi; assistant_partial]
           assistant_partial); reflexivity.
Defined.

(** C10 as stated fails: a trailing assistant message whose first part is
    an [image_url] part does not make the function fail when that part
    carries a text; the text becomes the continuation.  Without a text
    the same message does make it fail. *)
Lemma image_part_with_text_is_accepted :
  type captioned_image = Ty_image_url
  ∧ fixture_call Chatml [user_hi; assistant_captioned_image]
    = ([user_hi],
       Ok ([],
           Some ("<|im_start|>user" +:+ LF +:+ "hi<|im_end|>"
                 +:+ "<|im_start|>assistant" +:+ LF +:+ "x")))
  ∧ fixture_call Chatml [user_hi; assistant_image_only]
    = ([user_hi; assistant_image_only], Raise TypeError).
Proof. vm_compute. repeat split; reflexivity. Qed.

(** * More of the code *)

(** ** The streaming relay, any ending *)

Lemma stream_inv_yielded fragments fin s :
  stream_inv fragments fin s → yielded s `prefix_of` filter truthy fragments.
Proof.
  unfold stream_inv. destruct (st_consumer s).
  - intros (rest & _ & <- & _). by apply prefix_app_r.
  - by intros (_ & _ & _ & ->).
  - by intros (_ & _ & _ & ->).
  - by intros (_ & _ & _ & ->).
  - done.
Qed.

(** When [generate] returns, [exq] stays empty. *)
Lemma exq_stays_empty (fragments : list string) (s : stream_state) :
  rtc stream_step (stream_init fragments Returns) s → exq s = [].
Proof.
  intros Hrun.
  enough (exq s = []
          ∧ match st_worker s with
            | Generating _ fin => fin = Returns
            | Caught _ | Ending => False
            | Exited => True
            end) as [? _] by done.
  refine (rtc_ind_r (λ s, exq s = [] ∧ _) _ _ _ s Hrun); [done|].
  intros s1 s2 _ [Hstep|[Hstep|Hstep]] [Hx Hwk].
  - unfold worker_step in Hstep.
    destruct (st_worker s1) as [[|t todo] f|e| |]; try done; subst;
      injection Hstep as <-; done.
  - unfold consumer_step in Hstep.
    destruct (st_consumer s1); try done.
    + destruct (text_queue s1) as [|[t|] q]; [done| |];
        injection Hstep as <-; done.
    + rewrite Hx in Hstep. injection Hstep as <-. done.
  - unfold consumer_timeout in Hstep.
    destruct (st_consumer s1); try done.
    destruct (text_queue s1); [|done]. injection Hstep as <-. done.
Qed.

(** X11. The streamer waits 600 s for a fragment.  When [generate]
    returns, in every interleaving in which no wait runs out the caller of
    the generator has been handed every non-empty fragment, in order, and
    then a plain end of iteration, both queues empty.  In every run,
    timed out or not, nothing is ever raised from [exq], which stays
    empty; a run that ends otherwise than with the plain end of iteration
    ended with [queue.Empty], after a prefix of the non-empty fragments.
    A run without a timeout exists: the one of
    [threaded_streaming_generator]. *)
Theorem producer_success_ends_cleanly (fragments : list string) :
  (∀ s, rtc stream_step (stream_init fragments Returns) s →
     stream_final s →
     st_consumer s ≠ TimedOut →
     observed s = (filter truthy fragments, Returned)
     ∧ observed s = threaded_streaming_generator fragments Returns
     ∧ text_queue s = [] ∧ exq s = [])
  ∧ (∀ s, rtc stream_step (stream_init fragments Returns) s →
       stream_final s →
       st_consumer s = Returned
       ∨ (st_consumer s = TimedOut
          ∧ yielded s `prefix_of` filter truthy fragments))
  ∧ (∀ s e, rtc stream_step (stream_init fragments Returns) s →
       st_consumer s ≠ Raised e ∧ exq s = [])
  ∧ (∃ s, rtc stream_step (stream_init fragments Returns) s
          ∧ stream_final s ∧ st_consumer s ≠ TimedOut).
Proof.
  split; [|split; [|split]].
  - intros s Hrun Hfin Hne. apply stream_inv_reachable in Hrun as Hinv.
    rewrite threaded_streaming_generator_eq.
    destruct (stream_inv_final _ _ _ Hinv Hfin Hne) as (Hobs & Hq & _).
    split; [done|]. split; [done|]. split; [done|].
    by eapply exq_stays_empty.
  - intros s Hrun Hfin. apply stream_inv_reachable in Hrun as Hinv.
    assert (st_consumer s = TimedOut ∨ st_consumer s ≠ TimedOut) as [Hc|Hc]
      by (destruct (st_consumer s); by (left + right)).
    + right. split; [done|]. by eapply stream_inv_yielded.
    + left. destruct (stream_inv_final _ _ _ Hinv Hfin Hc) as (Hobs & _).
      by injection Hobs as _ ->.
  - intros s e Hrun. split; [|by eapply exq_stays_empty].
    intros Hc. apply stream_inv_reachable in Hrun.
    unfold stream_inv in Hrun. rewrite Hc in Hrun.
    by destruct Hrun as (_ & _ & ? & _).
  - eexists. apply (worker_first_run fragments Returns).
Qed.

(** X12. However the run goes and however it ends, the generator never
    hands over an empty fragment, and what it has handed over so far is
    always the beginning of the producer's non-empty fragments, in their
    order: none skipped, none repeated, none swapped. *)
Theorem yielded_fragments_are_nonempty_in_order (fragments : list string)
    (fin : ending) (s : stream_state) :
  rtc stream_step (stream_init fragments fin) s →
  Forall (λ t, t ≠ "") (yielded s)
  ∧ yielded s `prefix_of` filter truthy fragments
  ∧ yielded s `sublist_of` fragments.
Proof.
  intros Hrun. apply stream_inv_reachable, stream_inv_yielded in Hrun.
  assert (Forall (λ t, truthy t) (filter truthy fragments)) as Hall.
  { apply Forall_forall. intros t Ht. by apply list_elem_of_filter in Ht as [? _]. }
  split; [|split; [done|]].
  - destruct Hrun as [k Hk]. rewrite Hk in Hall.
    apply Forall_app in Hall as [Hall _].
    eapply Forall_impl; [exact Hall|]. by intros [|a t].
  - destruct Hrun as [k Hk]. etrans; [|apply (sublist_filter truthy)].
    rewrite Hk. by apply sublist_inserts_r.
Qed.

(** ** The adapter's loop *)

Lemma length_append (a b : string) :
  String.length (a +:+ b) = String.length a + String.length b.
Proof. induction a as [|c a IH]; simpl; [done | by rewrite IH]. Qed.

Lemma slice_before_marker_is_clean (t eos : string) :
  eos ≠ "" → find t eos ≠ (-1)%Z →
  find (slice_to t (find t eos)) eos = (-1)%Z.
Proof.
  intros Heos Ht. destruct (find_present _ _ Ht) as (after & Heq & Hfirst).
  apply find_absent. intros a b Hab.
  assert (0 < String.length eos) by (destruct eos; [done | simpl; lia]).
  assert (t = a +:+ eos +:+ (b +:+ eos +:+ after)) as H2.
  { etrans; [exact Heq|]. rewrite Hab. by rewrite !append_assoc. }
  apply Hfirst in H2. rewrite Hab, !length_append in H2. lia.
Qed.

Lemma stream_until_eos_no_marker (eos_token : string)
    (generated : list string) :
  Forall (λ t, find t eos_token = (-1)%Z) generated →
  stream_until_eos eos_token generated = generated.
Proof.
  induction 1 as [|t l Ht _ IH]; [done|]. simpl. rewrite Ht. simpl.
  by rewrite IH.
Qed.

(** X13. With a non-empty end-of-sequence marker, no fragment the adapter
    hands on contains the marker; so running the loop over its own output
    changes nothing. *)
Theorem yielded_fragments_are_marker_free (eos_token : string)
    (generated : list string) :
  eos_token ≠ "" →
  Forall (λ t, find t eos_token = (-1)%Z
               ∧ ∀ before after, t ≠ before +:+ eos_token +:+ after)
    (stream_until_eos eos_token generated)
  ∧ stream_until_eos eos_token (stream_until_eos eos_token generated)
    = stream_until_eos eos_token generated.
Proof.
  intros Heos.
  assert (Forall (λ t, find t eos_token = (-1)%Z)
            (stream_until_eos eos_token generated)) as Hall.
  { induction generated as [|t l IH]; [constructor|]. simpl.
    destruct (find t eos_token =? -1)%Z eqn:Ht.
    - constructor; [by apply Z.eqb_eq | done].
    - constructor; [|constructor].
      apply slice_before_marker_is_clean; [done | by apply Z.eqb_neq]. }
  split.
  - eapply Forall_impl; [exact Hall|]. intros t Ht. split; [done|].
    by apply find_absent.
  - by apply stream_until_eos_no_marker.
Qed.

(** X14. What the adapter hands on, joined (this is what
    [chat_with_images] returns), is the beginning of what the generator
    produced, joined: the loop cuts, it never adds or changes text; and it
    takes at most as many fragments as there are, handing on exactly one
    per fragment taken. *)
Theorem streamed_text_is_a_prefix (eos_token : string)
    (generated : list string) :
  (∃ rest, concat_strings generated
           = concat_strings (stream_until_eos eos_token generated) +:+ rest)
  ∧ length (stream_until_eos eos_token generated)
    = consumed_until_eos eos_token generated
  ∧ consumed_until_eos eos_token generated ≤ length generated.
Proof.
  induction generated as [|t l (IH1 & IH2 & IH3)]; simpl.
  - split; [by exists ""|]. split; [done|lia].
  - destruct (find t eos_token =? -1)%Z eqn:Ht; simpl.
    + destruct IH1 as [rest ->]. split; [|split; [by rewrite IH2|lia]].
      exists rest. by rewrite append_assoc.
    + split; [|split; [done|lia]].
      apply Z.eqb_neq in Ht.
      destruct (find_present _ _ Ht) as (after & Heq & _).
      exists (eos_token +:+ after +:+ concat_strings l).
      rewrite append_nil_r. rewrite Heq at 1. by rewrite !append_assoc.
Qed.

(** ** The adapter's messages *)

(** X15. The adapter takes images from user messages only: a system or
    assistant message (any non-user role) that holds a part without a
    text, as an image part is, makes it raise TypeError; with texts
    throughout it becomes a single text entry.  A user message becomes one
    entry per part, image URL or text as given. *)
Theorem qwen_message_by_role (m : Message) (l : list Content) :
  content m = CList l →
  (role m ≠ "user" → Exists (λ c, text c = None) l →
     qwen_message_of m = Raise TypeError)
  ∧ (role m ≠ "user" → ∀ texts, Forall2 (λ c t, text c = Some t) l texts →
       qwen_message_of m
       = Ok {| q_role := role m;
               q_content := [QText (Some (concat_strings texts))] |})
  ∧ (role m = "user" → ∀ q, qwen_message_of m = Ok q →
       q_role q = "user"
       ∧ Forall2 (λ c p, match type c with
                         | Ty_text => p = QText (text c)
                         | Ty_image_url =>
                             ∃ iu, image_url c = Some iu ∧ p = QImage (url iu)
                         end) l (q_content q)).
Proof.
  intros Hcnt. unfold qwen_message_of. rewrite Hcnt. split; [|split].
  - intros Hrole Hex. rewrite decide_False by done.
    unfold join_texts. simpl. by rewrite join_loop_None.
  - intros Hrole texts Htexts. rewrite decide_False by done.
    unfold join_texts. simpl.
    enough (∀ acc, for_each l acc (λ c acc, str_iadd acc (text c))
                   = Ok (acc +:+ concat_strings texts)) as -> by done.
    clear Hcnt. induction Htexts as [|c t l' ts Hc _ IH]; intros acc; simpl.
    + by rewrite append_nil_r.
    + rewrite Hc. simpl. rewrite IH. by rewrite append_assoc.
  - intros Hrole q. rewrite decide_True by done. intros H.
    apply bind_Ok_inv in H as (cnt & Hloop & H). injection H as <-. simpl.
    split; [done|]. simpl in Hloop.
    enough (∀ acc cnt',
      for_each l acc (λ c cnt,
        match type c with
        | Ty_image_url => u ← image_url_url c; Ok (cnt ++ [QImage u])
        | Ty_text => Ok (cnt ++ [QText (text c)])
        end) = Ok cnt' →
      ∃ new, cnt' = acc ++ new
             ∧ Forall2 (λ c p, match type c with
                               | Ty_text => p = QText (text c)
                               | Ty_image_url =>
                                   ∃ iu, image_url c = Some iu
                                         ∧ p = QImage (url iu)
                               end) l new) as Hgen.
    { by destruct (Hgen [] cnt Hloop) as (new & -> & ?). }
    clear. induction l as [|c l IH]; intros acc cnt' H.
    + injection H as <-. exists []. by rewrite app_nil_r.
    + simpl in H. apply bind_Ok_inv in H as (acc1 & Hc & H).
      apply IH in H as (new & -> & HF).
      destruct (type c) eqn:Hty.
      * injection Hc as <-. exists (QText (text c) :: new).
        rewrite <- app_assoc. split; [done|]. constructor; [|done].
        by rewrite Hty.
      * apply bind_Ok_inv in Hc as (u & Hu & Hc). injection Hc as <-.
        exists (QImage u :: new). rewrite <- app_assoc. split; [done|].
        constructor; [|done]. rewrite Hty. unfold image_url_url in Hu.
        destruct (image_url c) as [iu|]; [|done]. injection Hu as <-.
        by exists iu.
Qed.

(** ** [join_int_lists] *)

Lemma join_int_lists_loop_spec (int_lists : list (list Z)) (i n : Z)
    (separator : Z) (result : list Z) :
  Z.of_nat (length int_lists) = (n - i)%Z →
  join_int_lists_loop i n int_lists separator result
  = result ++ interleave separator int_lists.
Proof.
  revert i result. induction int_lists as [|lst rest IH]; intros i result Hn.
  - simpl. by rewrite app_nil_r.
  - cbn [join_int_lists_loop]. destruct rest as [|lst2 rest].
    + simpl in Hn. rewrite (proj2 (Z.ltb_ge i (n - 1))) by lia. done.
    + rewrite (proj2 (Z.ltb_lt i (n - 1)))
        by (cbn [length] in Hn; lia).
      rewrite IH by (cbn [length] in Hn |- *; lia).
      cbn [interleave]. by rewrite <- !app_assoc.
Qed.

Lemma join_int_lists_interleave (int_lists : list (list Z)) (separator : Z) :
  join_int_lists int_lists separator = interleave separator int_lists.
Proof.
  unfold join_int_lists. rewrite join_int_lists_loop_spec by lia. done.
Qed.

(** X16. [join_int_lists] puts the separator between neighbouring lists and
    nowhere else: nothing for no list, the list itself for one, no
    separator at the end; so the result is as long as the lists together
    plus one per gap. *)
Theorem join_int_lists_separates_neighbours (int_lists : list (list Z))
    (separator : Z) :
  join_int_lists [] separator = []
  ∧ (∀ lst, join_int_lists [lst] separator = lst)
  ∧ (∀ lst lst2 rest,
       join_int_lists (lst :: lst2 :: rest) separator
       = lst ++ separator :: join_int_lists (lst2 :: rest) separator)
  ∧ length (join_int_lists int_lists separator)
    = length (concat int_lists) + (length int_lists - 1).
Proof.
  split; [done|]. split; [by intros; rewrite join_int_lists_interleave|].
  split; [by intros; rewrite !join_int_lists_interleave|].
  rewrite join_int_lists_interleave.
  induction int_lists as [|lst rest IH]; [done|].
  destruct rest as [|lst2 rest].
  - simpl. rewrite app_nil_r. lia.
  - change (interleave separator (lst :: lst2 :: rest))
      with (lst ++ separator :: interleave separator (lst2 :: rest)).
    rewrite length_app. cbn [length concat]. rewrite IH.
    cbn [length concat]. rewrite !length_app. lia.
Qed.

Lemma split_on_no_separator (separator : Z) (l : list Z) :
  separator ∉ l → split_on separator l = [l].
Proof.
  induction l as [|x l IH]; intros Hl; [done|].
  apply not_elem_of_cons in Hl as [Hx Hl]. simpl.
  rewrite decide_False by done. by rewrite IH.
Qed.

Lemma split_on_app (separator : Z) (l rest : list Z) :
  separator ∉ l →
  split_on separator (l ++ separator :: rest) = l :: split_on separator rest.
Proof.
  induction l as [|x l IH]; intros Hl; simpl.
  - by rewrite decide_True.
  - apply not_elem_of_cons in Hl as [Hx Hl].
    rewrite decide_False by done. by rewrite IH.
Qed.

(** X17. When the separator occurs in none of the lists, the joined list
    can be cut back at the separators into exactly the lists that went in
    (there being at least one). *)
Theorem join_int_lists_can_be_split (int_lists : list (list Z))
    (separator : Z) :
  int_lists ≠ [] →
  Forall (λ lst, separator ∉ lst) int_lists →
  split_on separator (join_int_lists int_lists separator) = int_lists.
Proof.
  intros Hne Hall. rewrite join_int_lists_interleave.
  induction Hall as [|lst rest Hlst Hrest IH]; [done|].
  destruct rest as [|lst2 rest].
  - simpl. by apply split_on_no_separator.
  - cbn [interleave]. rewrite split_on_app by done. f_equal. by apply IH.
Qed.

(** ** Guessing the format and the backend *)

Lemma first_format_elem (test : list string → bool)
    (items : list (string * list string)) (format : string) :
  first_format test items = Some format →
  ∃ options, (format, options) ∈ items ∧ test options = true.
Proof.
  induction items as [|[f o] items IH]; [done|]. simpl.
  destruct (test o) eqn:Ho.
  - intros [= ->]. exists o. split; [by left | done].
  - intros H. destruct (IH H) as (o' & Hin & Ht). exists o'.
    split; [by right | done].
Qed.

Lemma guess_model_format_key (lower : string → string) (model_name : string) :
  guess_model_format lower model_name ∈ model_format_match_map.*1.
Proof.
  unfold guess_model_format. cbv zeta.
  destruct (first_format (λ options, existsb (String.eqb _) options) _)
    as [f|] eqn:H1.
  - apply first_format_elem in H1 as (o & Hin & _).
    apply (list_elem_of_fmap_2 fst) in Hin. done.
  - destruct (first_format (λ options, existsb (contains _) options) _)
      as [f|] eqn:H2.
    + apply first_format_elem in H2 as (o & Hin & _).
      apply (list_elem_of_fmap_2 fst) in Hin. done.
    + apply (bool_decide_unpack _). by vm_compute.
Qed.

(** X18. Whatever the model name, [guess_model_format] answers with one of
    the fourteen names of its table, and each of them is a key of the
    dispatcher's registry: [prompt_from_messages] never raises its
    unknown-format error on a guessed format. *)
Theorem guessed_format_is_registered {bytes Image : Type}
    (requests_get_content DataURI_data : string → result bytes)
    (Image_open_RGB : bytes → result Image)
    (lower : string → string) (model_name : string)
    (messages : list Message) :
  guess_model_format lower model_name ∈ model_format_match_map.*1
  ∧ ∃ f,
      known_formats requests_get_content DataURI_data Image_open_RGB
        !! guess_model_format lower model_name = Some f
      ∧ prompt_from_messages requests_get_content DataURI_data
          Image_open_RGB messages (guess_model_format lower model_name)
        = f messages.
Proof.
  pose proof (guess_model_format_key lower model_name) as Hkey.
  split; [done|]. unfold prompt_from_messages.
  destruct (known_formats _ _ _ !! _) as [f|] eqn:Hf; [by exists f|].
  apply known_formats_absent in Hf. exfalso. apply Hf.
  generalize dependent (guess_model_format lower model_name).
  intros k Hk _. unfold model_format_match_map in Hk. simpl in Hk.
  repeat (apply elem_of_cons in Hk as [->|Hk];
          [apply (bool_decide_unpack _); by vm_compute|]).
  by apply elem_of_nil in Hk.
Qed.

Lemma contains_refl (s : string) : contains s s = true.
Proof.
  unfold contains, find.
  assert (String.index 0 s s = Some 0) as ->; [|done].
  destruct s as [|a s]; [done|]. rewrite index0_cons.
  rewrite <- (append_nil_r (String a s)) at 2. by rewrite prefix_app.
Qed.

Lemma first_format_None (test : list string → bool)
    (items : list (string * list string)) :
  Forall (λ item, test item.2 = false) items → first_format test items = None.
Proof.
  induction 1 as [|[f o] items Ho _ IH]; [done|]. simpl in *.
  by rewrite Ho.
Qed.

(** X19. The two passes of [guess_model_format]. A name that (lowered)
    contains none of the table's markers is taken for vicuna.  A name that
    is not itself a marker but contains one of chatml's is taken for
    chatml, whatever other markers it contains, chatml being first in the
    table; so the phintern marker with a slash, which contains a chatml
    marker, works as an exact name only. *)
Theorem guess_model_format_passes (lower : string → string)
    (model_name : string) :
  (Forall (λ marker, contains (lower model_name) marker = false)
     (model_format_match_map ≫= snd) →
   guess_model_format lower model_name = "vicuna")
  ∧ (Forall (λ marker, lower model_name ≠ marker)
       (model_format_match_map ≫= snd) →
     Exists (λ marker, contains (lower model_name) marker = true)
       ["34b"; "yi-6b"; "nanollava"; "internvl-chat-v1-5";
        "internvl-chat-2b"; "internvl2-"; "internvl2_5-";
        "llava-onevision"; "aquila"] →
     guess_model_format lower model_name = "chatml")
  ∧ (lower model_name = "opengvlab/internvl2-4b" →
     guess_model_format lower model_name = "phintern")
  ∧ contains "opengvlab/internvl2-4b" "internvl2-" = true.
Proof.
  unfold guess_model_format.
  assert (Hexact : Forall (λ marker, lower model_name ≠ marker)
                     (model_format_match_map ≫= snd) →
                   first_format
                     (λ options, existsb (String.eqb (lower model_name)) options)
                     model_format_match_map = None).
  { intros Hne. apply first_format_None.
    apply Forall_forall. intros [f o] Hin. simpl.
    apply not_true_iff_false. intros Hex.
    apply existsb_exists in Hex as (marker & Hm & Heq).
    apply String.eqb_eq in Heq.
    rewrite Forall_forall in Hne. apply (Hne marker); [|done].
    apply list_elem_of_bind. exists (f, o). split; [|done].
    by apply list_elem_of_In. }
  split; [|split; [|split]].
  - intros Hnone. rewrite Hexact.
    + rewrite first_format_None; [done|].
      apply Forall_forall. intros [f o] Hin. simpl.
      apply not_true_iff_false. intros Hex.
      apply existsb_exists in Hex as (marker & Hm & Hc).
      rewrite Forall_forall in Hnone.
      rewrite (Hnone marker) in Hc; [done|].
      apply list_elem_of_bind. exists (f, o). split; [|done].
      by apply list_elem_of_In.
    + eapply Forall_impl; [exact Hnone|]. intros marker Hc Heq.
      rewrite <- Heq in Hc. by rewrite contains_refl in Hc.
  - intros Hne Hex. rewrite Hexact by done. simpl.
    assert (existsb (contains (lower model_name))
              ["34b"; "yi-6b"; "nanollava"; "internvl-chat-v1-5";
               "internvl-chat-2b"; "internvl2-"; "internvl2_5-";
               "llava-onevision"; "aquila"] = true) as Hb.
    { apply Exists_exists in Hex as (marker & Hin & Hc).
      apply existsb_exists. exists marker. split; [|done].
      by apply list_elem_of_In. }
    simpl in Hb. by rewrite Hb.
  - intros ->. reflexivity.
  - reflexivity.
Qed.

(** X20. [guess_backend] on a name that (lowered) contains one of its
    seventeen keywords answers with one of fifteen fixed backends, without
    looking at any model configuration: the answer is the same whatever
    [AutoConfig] would say or raise.  A name with cogvlm2 in it is never
    taken for cogvlm. *)
Theorem guess_backend_by_keyword (lower : string → string)
    (model_name : string) :
  Exists (λ keyword, contains (lower model_name) keyword = true)
    backend_keywords →
  ∃ backend,
    backend ∈ keyword_backends
    ∧ (∀ AutoConfig_model_type trust_remote_code,
         guess_backend lower AutoConfig_model_type model_name
           trust_remote_code = Ok backend)
    ∧ (contains (lower model_name) "cogvlm2" = true → backend ≠ "cogvlm").
Proof.
  intros Hex. unfold guess_backend. cbv zeta.
  repeat match goal with
  | |- context [if contains (lower model_name) ?k || _ then _ else _] =>
      destruct (contains (lower model_name) k) eqn:?; cbn [orb];
      [eexists; split; [|split; [reflexivity|]];
       [by repeat constructor | by (intros; congruence)] |]
  | |- context [if contains (lower model_name) ?k then _ else _] =>
      destruct (contains (lower model_name) k) eqn:?;
      [eexists; split; [|split; [reflexivity|]];
       [by repeat constructor | by (intros; congruence)] |]
  end.
  exfalso. unfold backend_keywords in Hex.
  repeat (apply Exists_cons in Hex as [Hex|Hex]; [congruence|]).
  by apply Exists_nil in Hex.
Qed.

(** ** Generation parameters *)

(** X21. What a request does to the generation parameters of a backend.
    Sampling is switched on by a positive temperature or by a [top_p] that
    differs from the backend's default (from 1.0 when it has none), and is
    never switched off: otherwise [do_sample] is what the backend's
    defaults say, or [False].  A temperature that is not positive and a
    [max_tokens] of zero are dropped, the backend's own entries staying in
    place; [use_cache] and [top_k] are always present; every other key is
    the backend's. *)
Theorem generation_params_of_a_request {float obj dict : Type}
    (positive : float → bool) (differs : float → pyvalue float obj → bool)
    (one : float) (request : Req.ImageChatRequest float dict)
    (default_params : gmap string (pyvalue float obj)) :
  let result :=
    get_generation_params positive differs one request default_params in
  let by_temperature :=
    match Req.temperature request with
    | Some t => positive t
    | None => false
    end in
  let by_top_p :=
    match Req.top_p request with
    | Some p => differs p (default (PyFloat one) (default_params !! "top_p"))
    | None => false
    end in
  result !! "do_sample"
  = Some (if by_temperature || by_top_p then PyBool true
          else default (PyBool false) (default_params !! "do_sample"))
  ∧ result !! "temperature"
    = (if by_temperature then PyFloat <$> Req.temperature request
       else default_params !! "temperature")
  ∧ result !! "top_p"
    = (if by_top_p then PyFloat <$> Req.top_p request
       else default_params !! "top_p")
  ∧ result !! "max_new_tokens"
    = (if bool_decide (Req.max_tokens request = 0%Z)
       then default_params !! "max_new_tokens"
       else Some (PyInt (Req.max_tokens request)))
  ∧ result !! "use_cache"
    = Some (default (PyBool true) (default_params !! "use_cache"))
  ∧ result !! "top_k" = Some (default PyNone (default_params !! "top_k"))
  ∧ ∀ key, key ∉ ["do_sample"; "temperature"; "top_p"; "max_new_tokens";
                  "use_cache"; "top_k"] →
           result !! key = default_params !! key.
Proof.
  intros result by_temperature by_top_p.
  subst result by_temperature by_top_p. unfold get_generation_params.
  set (base := <["top_k" := PyNone]> _).
  assert (Hbase : ∀ key, (default_params ∪ base) !! key
            = match default_params !! key with
              | Some v => Some v
              | None => base !! key
              end).
  { intros key. rewrite lookup_union.
    by destruct (default_params !! key), (base !! key). }
  assert (Htop_p :
    ∀ params : gmap string (pyvalue float obj),
      params !! "top_p" = default_params !! "top_p" →
      default (PyFloat one) (params !! "top_p")
      = default (PyFloat one) (default_params !! "top_p")).
  { by intros params ->. }
  assert (Hb : (default_params ∪ base) !! "top_p" = default_params !! "top_p").
  { rewrite Hbase. by destruct (default_params !! "top_p"). }
  destruct (Req.temperature request) as [t|]; [destruct (positive t)|];
    (destruct (Req.top_p request) as [p|];
     [rewrite Htop_p
        by (case_bool_decide; by rewrite ?lookup_insert_ne by done);
      destruct (differs p _)|]);
    case_bool_decide;
    (repeat split;
     [..| intros key Hkey;
          repeat (apply not_elem_of_cons in Hkey as [? Hkey])];
     rewrite ?lookup_insert_eq, ?lookup_insert_ne by done;
     rewrite ?lookup_insert_eq, ?lookup_insert_ne by done;
     rewrite ?lookup_insert_eq, ?lookup_insert_ne by done;
     rewrite ?Hbase; subst base;
     rewrite ?lookup_insert_eq, ?lookup_insert_ne by done;
     rewrite ?lookup_insert_eq, ?lookup_insert_ne by done;
     rewrite ?lookup_insert_eq, ?lookup_insert_ne by done;
     rewrite ?lookup_empty;
     repeat case_bool_decide; try lia;
     repeat case_match; by simplify_eq/=).
Qed.

(** ** Temporary files *)

Lemma extension_kind (mimetype : string) :
  extension mimetype ∈ image_extensions ++ video_extensions
  ∧ (extension mimetype ∈ video_extensions
     ↔ contains mimetype "video/" = true).
Proof.
  unfold extension.
  destruct (mime_map !! mimetype) as [ext|] eqn:Hext; simpl.
  - apply elem_of_list_to_map_2 in Hext.
    repeat (apply elem_of_cons in Hext as [[= -> ->]|Hext];
            [split; [apply (bool_decide_unpack _); by vm_compute|];
             split; [|by vm_compute];
             intros Hin; exfalso; revert Hin;
             apply (bool_decide_unpack _); by vm_compute
            |]);
    repeat (apply elem_of_cons in Hext as [[= -> ->]|Hext];
            [split; [apply (bool_decide_unpack _); by vm_compute|];
             split; [by intros _; vm_compute|];
             intros _; apply (bool_decide_unpack _); by vm_compute
            |]).
    by apply elem_of_nil in Hext.
  - destruct (contains mimetype "video/").
    + split; [apply (bool_decide_unpack _); by vm_compute|].
      split; [done|]. intros _. apply (bool_decide_unpack _). by vm_compute.
    + split; [apply (bool_decide_unpack _); by vm_compute|].
      split; [|done]. intros Hin. exfalso. revert Hin.
      apply (bool_decide_unpack _). by vm_compute.
Qed.

Lemma write_temporary_Ok {bytes World descriptor : Type}
    (mkstemp : string → World → World * result (descriptor * string))
    (os_write : descriptor → bytes → World → World * result unit)
    (ext : string) (data : bytes) (w w' : World) (filename : string) :
  write_temporary mkstemp os_write ext data w = (w', Ok filename) →
  ∃ fd w1, mkstemp ext w = (w1, Ok (fd, filename))
           ∧ os_write fd data w1 = (w', Ok ()).
Proof.
  unfold write_temporary.
  destruct (mkstemp ext w) as [w1 [[fd name]|e]]; [|done].
  destruct (os_write fd data w1) as [w2 [[]|e]] eqn:Hw; [|done].
  intros [= -> ->]. by exists fd, w1.
Qed.

(** X22. A successful [url_to_file] made exactly one temporary file and
    handed the whole payload to one [os.write] on it: the payload and media
    type of the data URI when the URL starts with [data:], else of the
    HTTP response, an absent [Content-Type] counting as [image/png].  The
    suffix of the file is one of twelve known extensions, and it is a
    video extension exactly when the media type contains [video/]. *)
Theorem temporary_file_suffix_follows_media_type
    {bytes World descriptor : Type}
    (DataURI : string → result (string * bytes))
    (requests_get : string → result (option string * bytes))
    (mkstemp : string → World → World * result (descriptor * string))
    (os_write : descriptor → bytes → World → World * result unit)
    (img_url : string) (w w' : World) (filename : string) :
  url_to_file DataURI requests_get mkstemp os_write img_url w
    = (w', Ok filename) →
  ∃ mimetype data fd w1,
    (if startswith img_url "data:"
     then DataURI img_url = Ok (mimetype, data)
     else ∃ content_type,
            requests_get img_url = Ok (content_type, data)
            ∧ mimetype = default "image/png" content_type)
    ∧ mkstemp (extension mimetype) w = (w1, Ok (fd, filename))
    ∧ os_write fd data w1 = (w', Ok ())
    ∧ extension mimetype ∈ image_extensions ++ video_extensions
    ∧ (extension mimetype ∈ video_extensions
       ↔ contains mimetype "video/" = true).
Proof.
  unfold url_to_file. intros H.
  destruct (startswith img_url "data:").
  - destruct (DataURI img_url) as [[mimetype data]|e]; [|done].
    apply write_temporary_Ok in H as (fd & w1 & Hmk & Hwr).
    exists mimetype, data, fd, w1.
    by pose proof (extension_kind mimetype) as [? ?].
  - destruct (requests_get img_url) as [[content_type data]|e]; [|done].
    simpl in H. apply write_temporary_Ok in H as (fd & w1 & Hmk & Hwr).
    exists (default "image/png" content_type), data, fd, w1.
    pose proof (extension_kind (default "image/png" content_type)) as [? ?].
    split; [by exists content_type|done].
Qed.

(** ** Loading parameters *)

Section LoadingProperties.
Context {obj processor model : Type}.
Variable truth : obj → bool.
Variables cuda_is_available mps_is_available cuda_is_bf16_supported : bool.
Variable lower : string → string.
Variable AutoProcessor_from_pretrained : string → result processor.
Variable Qwen2_5_VL_from_pretrained : gmap string (param obj) → result model.

#[local] Abbreviation base_init :=
  (VisionQnABase_init truth cuda_is_available mps_is_available
     cuda_is_bf16_supported).

Lemma base_init_params (revision : string) (vision_layers : list string)
    (class_format : option string) (model_id device device_map : string)
    (extra_params : gmap string obj) (format : option string) :
  let self :=
    base_init revision vision_layers class_format model_id device device_map
      extra_params format in
  Base.params self !! "torch_dtype" = Some (ParamDtype (Base.dtype self))
  ∧ is_Some (Base.params self !! "trust_remote_code")
  ∧ Base.params self !! "pretrained_model_name_or_path"
    = Some (ParamStr model_id)
  ∧ Base.params self !! "revision" = Some (ParamStr revision)
  ∧ Base.params self !! "device_map" = Some (ParamStr device_map)
  ∧ Base.params self !! "low_cpu_mem_usage" = Some (ParamBool true).
Proof.
  unfold VisionQnABase_init.
  destruct (select_device_dtype _ _ _ _) as [dev dt]. simpl.
  destruct (extra_flag truth extra_params "load_in_4bit");
    [|destruct (extra_flag truth extra_params "load_in_8bit")];
    rewrite ?lookup_insert_eq, ?lookup_insert_ne by done;
    repeat split; try done;
    rewrite ?lookup_insert_eq, ?lookup_insert_ne by done;
    rewrite ?lookup_insert_eq, ?lookup_insert_ne by done;
    rewrite ?lookup_insert_eq, ?lookup_insert_ne by done;
    rewrite ?lookup_insert_eq, ?lookup_insert_ne by done;
    rewrite ?lookup_insert_eq, ?lookup_insert_ne by done;
    rewrite ?lookup_insert_eq, ?lookup_insert_ne by done;
    by eauto.
Qed.

Lemma base_init_dtype (revision : string) (vision_layers : list string)
    (class_format : option string) (model_id device device_map : string)
    (extra_params : gmap string obj) (format : option string) :
  let self :=
    base_init revision vision_layers class_format model_id device device_map
      extra_params format in
  (Base.device self, Base.dtype self)
  = select_device_dtype cuda_is_available mps_is_available
      cuda_is_bf16_supported device.
Proof.
  unfold VisionQnABase_init.
  by destruct (select_device_dtype _ _ _ _) as [dev dt].
Qed.

(** X23. The attributes [VisionQnABase.__init__] leaves behind.  The
    device is the one asked for, or for [auto] one of cuda, mps and cpu;
    the dtype is [float32] exactly on cpu and is the [torch_dtype] of the
    parameters.  A quantization config is among the parameters exactly
    when [load_in_4bit] or [load_in_8bit] is set; with both set it is the
    4-bit one, computing in the dtype of the model. *)
Theorem base_loading_parameters (revision : string)
    (vision_layers : list string) (class_format : option string)
    (model_id device device_map : string) (extra_params : gmap string obj)
    (format : option string) :
  let self :=
    base_init revision vision_layers class_format model_id device device_map
      extra_params format in
  let four := extra_flag truth extra_params "load_in_4bit" in
  let eight := extra_flag truth extra_params "load_in_8bit" in
  (if String.eqb device "auto"
   then Base.device self ∈ ["cuda"; "mps"; "cpu"]
   else Base.device self = device)
  ∧ (Base.dtype self = float32 ↔ Base.device self = "cpu")
  ∧ Base.params self !! "torch_dtype" = Some (ParamDtype (Base.dtype self))
  ∧ (Base.params self !! "quantization_config" = None
     ↔ four = false ∧ eight = false)
  ∧ (four = true →
     ∃ q, Base.params self !! "quantization_config" = Some (ParamQuant q)
          ∧ load_in_4bit q = Some true ∧ load_in_8bit q = None
          ∧ bnb_4bit_compute_dtype q = Some (Base.dtype self)
          ∧ llm_int8_skip_modules q = vision_layers)
  ∧ (four = false → eight = true →
     ∃ q, Base.params self !! "quantization_config" = Some (ParamQuant q)
          ∧ load_in_8bit q = Some true ∧ load_in_4bit q = None
          ∧ llm_int8_skip_modules q = vision_layers).
Proof.
  intros self four eight.
  pose proof (base_init_params revision vision_layers class_format model_id
                device device_map extra_params format) as (Hdt & _).
  pose proof (base_init_dtype revision vision_layers class_format model_id
                device device_map extra_params format) as Hdev.
  fold self in Hdt, Hdev.
  split; [|split; [|split; [done|]]].
  - unfold select_device_dtype, select_device in Hdev.
    pose proof (f_equal fst Hdev) as Hd. cbn [fst] in Hd. rewrite Hd.
    destruct (String.eqb device "auto"); [|done].
    destruct cuda_is_available; [|destruct mps_is_available];
      apply (bool_decide_unpack _); by vm_compute.
  - unfold select_device_dtype, select_dtype in Hdev.
    pose proof (f_equal fst Hdev) as Hd. pose proof (f_equal snd Hdev) as Ht.
    cbn [fst snd] in Hd, Ht. rewrite <- Hd in Ht. rewrite Ht.
    destruct (String.eqb (Base.device self) "cpu") eqn:Hcpu.
    + by apply String.eqb_eq in Hcpu.
    + apply String.eqb_neq in Hcpu.
      by destruct cuda_is_bf16_supported.
  - subst self four eight. unfold VisionQnABase_init.
    destruct (select_device_dtype _ _ _ _) as [dev dt]. simpl.
    destruct (extra_flag truth extra_params "load_in_4bit");
      [|destruct (extra_flag truth extra_params "load_in_8bit")];
      rewrite ?lookup_insert_eq, ?lookup_insert_ne by done;
      rewrite ?lookup_empty;
      (split; [split; [done|by intros [? ?]]|]);
      (split; [try done; intros _; by eexists|]);
      try done; intros _ _; by eexists.
Qed.

#[local] Abbreviation qwen_init_ :=
  (qwen_init truth cuda_is_available mps_is_available
     cuda_is_bf16_supported lower AutoProcessor_from_pretrained
     Qwen2_5_VL_from_pretrained).

(** X24. The Qwen2.5-VL backend's [__init__].  Its [del] never raises
    [KeyError].  When it returns, the model was loaded with exactly the
    parameters left on the object: they have no [trust_remote_code], their
    [torch_dtype] is the dtype of the object, which is [float32] exactly
    on cpu and never [bfloat16] for a model whose name contains awq or
    gptq; and the format of the object is the one the caller gave, or
    nothing: the class gives no default format. *)
Theorem qwen_loading_parameters (model_id device device_map : string)
    (extra_params : gmap string obj) (format : option string) :
  (∀ key, qwen_init_ model_id device device_map extra_params format
          ≠ inl (KeyError key))
  ∧ ∀ self,
      qwen_init_ model_id device device_map extra_params format = inr self →
      Qwen2_5_VL_from_pretrained (Base.params (base self))
        = Ok (qwen_model self)
      ∧ AutoProcessor_from_pretrained model_id = Ok (qwen_processor self)
      ∧ Base.params (base self) !! "trust_remote_code" = None
      ∧ Base.params (base self) !! "torch_dtype"
        = Some (ParamDtype (Base.dtype (base self)))
      ∧ Base.params (base self) !! "pretrained_model_name_or_path"
        = Some (ParamStr model_id)
      ∧ (Base.dtype (base self) = float32 ↔ Base.device (base self) = "cpu")
      ∧ (contains (lower model_id) "awq" || contains (lower model_id) "gptq"
         = true → Base.dtype (base self) ≠ bfloat16)
      ∧ Base.format (base self)
        = match format with
          | Some (String a s) => Some (String a s)
          | _ => None
          end.
Proof.
  pose proof (base_init_params "main" ["visual"] None model_id device
                device_map extra_params format) as (Hdt & Htrust & Hid & _).
  pose proof (base_init_dtype "main" ["visual"] None model_id device
                device_map extra_params format) as Hdev.
  assert (Hfmt : Base.format
            (base_init "main" ["visual"] None model_id device device_map
               extra_params format)
          = match format with
            | Some (String a s) => Some (String a s)
            | _ => None
            end).
  { unfold VisionQnABase_init.
    by destruct (select_device_dtype _ _ _ _) as [dev dt]. }
  unfold qwen_init.
  set (self0 := base_init "main" ["visual"] None model_id device device_map
                  extra_params format) in *.
  cbv zeta in Hdt, Htrust, Hid, Hdev.
  assert (Hcpu : Base.dtype self0 = float32 ↔ Base.device self0 = "cpu").
  { unfold select_device_dtype, select_dtype in Hdev.
    pose proof (f_equal fst Hdev) as Hd. pose proof (f_equal snd Hdev) as Ht.
    cbn [fst snd] in Hd, Ht. rewrite <- Hd in Ht. rewrite Ht.
    destruct (String.eqb (Base.device self0) "cpu") eqn:Hcpu.
    - by apply String.eqb_eq in Hcpu.
    - apply String.eqb_neq in Hcpu. by destruct cuda_is_bf16_supported. }
  destruct Htrust as [trust Htrust].
  destruct (AutoProcessor_from_pretrained model_id) as [p|e];
    [|split; [done|by intros]].
  destruct (contains (lower model_id) "awq" || contains (lower model_id) "gptq")
    eqn:Hq; cbn [andb]; [case_bool_decide as Hbf|];
    cbn [Base.params Base.dtype Base.device Base.format Base._model_id].
  - rewrite lookup_insert_ne, Htrust by done.
    destruct (Qwen2_5_VL_from_pretrained _) as [m|e] eqn:Hload;
      [|split; [done|by intros]].
    split; [done|]. intros self [= <-].
    cbn [base qwen_model qwen_processor
         Base.params Base.dtype Base.device Base.format Base._model_id].
    rewrite lookup_delete_eq, !lookup_delete_ne, lookup_insert_eq,
      lookup_insert_ne by done.
    rewrite Hbf in Hcpu. destruct Hcpu as [H1 H2].
    repeat split; try done. intros H. by specialize (H2 H).
  - rewrite Htrust.
    destruct (Qwen2_5_VL_from_pretrained _) as [m|e] eqn:Hload;
      [|split; [done|by intros]].
    split; [done|]. intros self [= <-].
    cbn [base qwen_model qwen_processor
         Base.params Base.dtype Base.device Base.format Base._model_id].
    rewrite lookup_delete_eq, !lookup_delete_ne by done.
    repeat split; try done; apply Hcpu.
  - rewrite Htrust.
    destruct (Qwen2_5_VL_from_pretrained _) as [m|e] eqn:Hload;
      [|split; [done|by intros]].
    split; [done|]. intros self [= <-].
    cbn [base qwen_model qwen_processor
         Base.params Base.dtype Base.device Base.format Base._model_id].
    rewrite lookup_delete_eq, !lookup_delete_ne by done.
    repeat split; try done; apply Hcpu.
Qed.

End LoadingProperties.

(** * Concrete runs of the further properties *)

Lemma chatml_user_turn_witness :
  role (example_user "data:,a") = "user"
  ∧ fixture_chatml [example_user "data:,a"] "<image>"
    = ([example_user "data:,a"],
       Ok (["data:,a"],
           "<|im_start|>user" +:+ LF +:+ "<image>" +:+ "What is this?"
           +:+ "<|im_end|>" +:+ "<|im_start|>assistant" +:+ LF)).
Proof.
  split; [reflexivity|].
  exact (chatml_user_turn fixture_requests_get fixture_DataURI_data
           fixture_Image_open (example_user "data:,a")
           [ImageRef "data:,a"; Text "What is this?"] "<image>"
           eq_refl eq_refl).
Defined.

Lemma callers_list_kept_witness :
  generation_tag Florence = None
  ∧ (fixture_call Florence [user_hi; assistant_partial]).1
    = [user_hi; assistant_partial]
  ∧ (fixture_call Chatml [example_system; user_hi]).1
    = [example_system; user_hi].
Proof.
  split; [reflexivity|]. split.
  - apply (callers_list_kept fixture_requests_get fixture_DataURI_data
             fixture_Image_open Florence [user_hi; assistant_partial]);
      [discriminate | by left].
  - apply (callers_list_kept fixture_requests_get fixture_DataURI_data
             fixture_Image_open Chatml [example_system; user_hi]);
      [discriminate | right; intros m [= <-]; discriminate].
Defined.

Lemma prompt_ends_with_generation_tag_witness :
  generation_tag Chatml = Some ("<|im_start|>assistant" +:+ LF)
  ∧ (fixture_call Chatml [user_hi]).2
    = Ok ([], Some ("<|im_start|>user" +:+ LF +:+ "hi<|im_end|>"
                    +:+ "<|im_start|>assistant" +:+ LF))
  ∧ ∃ body,
      Some ("<|im_start|>user" +:+ LF +:+ "hi<|im_end|>"
            +:+ "<|im_start|>assistant" +:+ LF)
      = Some (body +:+ ("<|im_start|>assistant" +:+ LF))
      ∧ endswith (body +:+ ("<|im_start|>assistant" +:+ LF))
          ("<|im_start|>assistant" +:+ LF) = true.
Proof.
  split; [reflexivity|]. split; [reflexivity|].
  apply (prompt_ends_with_generation_tag fixture_requests_get
           fixture_DataURI_data fixture_Image_open Chatml
           ("<|im_start|>assistant" +:+ LF) [user_hi] []);
    [reflexivity | intros m [= <-]; discriminate | reflexivity].
Defined.

Lemma images_only_message_leaves_no_token_witness :
  Forall (λ c, type c = Ty_image_url) [ImageRef "data:,a"]
  ∧ ∃ g, generation_tag Llama3 = Some g
         ∧ fixture_call Llama3 [system_with_image]
           = ([system_with_image], Ok (["data:,a"], Some ("" +:+ g))).
Proof.
  split; [by repeat constructor|].
  apply (images_only_message_leaves_no_token fixture_requests_get
           fixture_DataURI_data fixture_Image_open Llama3 system_with_image
           [ImageRef "data:,a"] ["data:,a"]);
    [by left | discriminate | reflexivity | by repeat constructor
    | reflexivity].
Defined.

Lemma florence_prompt_is_last_text_witness :
  florence_prompt_from_messages
    [example_system; example_user "data:,a"] fixture_url_to_image
  = ([example_system; example_user "data:,a"],
     Ok (["data:,a"], "What is this?")).
Proof.
  apply (florence_prompt_is_last_text
           [example_system; example_user "data:,a"] fixture_url_to_image).
  repeat constructor; by eexists.
Defined.

Lemma hfmessages_mirror_the_messages_witness :
  images_hfmessages_from_messages
    [example_system; example_user "data:,a"] fixture_url_to_image
  = ([example_system; example_user "data:,a"],
     Ok (["data:,a"],
         [("system", [HfText (Some "Be terse.")]);
          ("user", [HfImage; HfText (Some "What is this?")])]))
  ∧ [example_system; example_user "data:,a"]
    = [example_system; example_user "data:,a"]
  ∧ [("system", [HfText (Some "Be terse.")]);
     ("user", [HfImage; HfText (Some "What is this?")])]
    = (λ m, (role m, hf_of_part <$> parts_of m))
      <$> [example_system; example_user "data:,a"]
  ∧ length (filter is_HfImage
              ([("system", [HfText (Some "Be terse.")]);
                ("user", [HfImage; HfText (Some "What is this?")])]
               ≫= snd))
    = length ["data:,a"].
Proof.
  split; [reflexivity|].
  apply (hfmessages_mirror_the_messages
           [example_system; example_user "data:,a"] _ fixture_url_to_image).
  reflexivity.
Defined.

Lemma pixtral_messages_keep_three_roles_witness :
  pixtral_messages
    [example_system; example_user "data:,a";
     {| role := "tool"; content := CList [Text "x"]; name := None |};
     assistant_partial]
  = Ok {| ccr_messages :=
            [SystemMessage "Be terse.";
             UserMessage [ImageURLChunk "data:,a"; TextChunk "What is this?"];
             AssistantMessage "partial"];
          ccr_model := "pixtral" |}
  ∧ filter mistral_role
      [example_system; example_user "data:,a";
       {| role := "tool"; content := CList [Text "x"]; name := None |};
       assistant_partial]
    = [example_system; example_user "data:,a"; assistant_partial]
  ∧ Forall2 mistral_message_of
      (filter mistral_role
         [example_system; example_user "data:,a";
          {| role := "tool"; content := CList [Text "x"]; name := None |};
          assistant_partial])
      [SystemMessage "Be terse.";
       UserMessage [ImageURLChunk "data:,a"; TextChunk "What is this?"];
       AssistantMessage "partial"].
Proof.
  split; [reflexivity|]. split; [reflexivity|].
  apply (pixtral_messages_keep_three_roles
           [example_system; example_user "data:,a";
            {| role := "tool"; content := CList [Text "x"]; name := None |};
            assistant_partial]
           {| ccr_messages :=
                [SystemMessage "Be terse.";
                 UserMessage
                   [ImageURLChunk "data:,a"; TextChunk "What is this?"];
                 AssistantMessage "partial"];
              ccr_model := "pixtral" |}).
  reflexivity.
Defined.

Lemma repacked_request_compiles_witness :
  is_ok (fixture_call Chatml
           [user_bare_string; example_user "data:,a"]).2 = false
  ∧ is_ok (fixture_call Chatml
             (Req.messages
                (repack_message_content
                   (fixture_request
                      [user_bare_string; example_user "data:,a"]
                      None None)))).2 = true.
Proof.
  split; [reflexivity|].
  apply (repacked_request_compiles fixture_requests_get fixture_DataURI_data
           fixture_Image_open Chatml
           (fixture_request [user_bare_string; example_user "data:,a"]
              None None)).
  - discriminate.
  - constructor; [exact I|]. constructor; [|constructor].
    constructor; [by eexists _, _|]. constructor; [by eexists|constructor].
  - intros m [= <-]. discriminate.
Defined.

Lemma bare_string_content_is_refused_witness :
  fixture_call Llama3 [user_bare_string]
  = ([user_bare_string], Raise AttributeError).
Proof.
  apply (bare_string_content_is_refused fixture_requests_get
           fixture_DataURI_data fixture_Image_open Llama3 user_bare_string
           "h" "i"); reflexivity.
Defined.

Lemma yielded_fragments_are_nonempty_in_order_witness :
  yielded
    (stream_run [true; true; false; false; true; false]
       (stream_init ["a"; ""; "b"] (Raises TypeError)))
  = ["a"; "b"]
  ∧ Forall (λ t, t ≠ "")
      (yielded
         (stream_run [true; true; false; false; true; false]
            (stream_init ["a"; ""; "b"] (Raises TypeError))))
  ∧ yielded
      (stream_run [true; true; false; false; true; false]
         (stream_init ["a"; ""; "b"] (Raises TypeError)))
    `prefix_of` filter truthy ["a"; ""; "b"]
  ∧ yielded
      (stream_run [true; true; false; false; true; false]
         (stream_init ["a"; ""; "b"] (Raises TypeError)))
    `sublist_of` ["a"; ""; "b"].
Proof.
  split; [reflexivity|].
  apply (yielded_fragments_are_nonempty_in_order ["a"; ""; "b"]
           (Raises TypeError)).
  eapply rtc_l; [left; reflexivity|].
  eapply rtc_l; [left; reflexivity|].
  eapply rtc_l; [right; left; reflexivity|].
  eapply rtc_l; [right; left; reflexivity|].
  eapply rtc_l; [left; reflexivity|].
  eapply rtc_l; [right; left; reflexivity|].
  apply rtc_refl.
Defined.

Lemma yielded_fragments_are_marker_free_witness :
  stream_until_eos "<eos>" ["Hel"; "lo<eos>junk"; "more"] = ["Hel"; "lo"]
  ∧ Forall (λ t, find t "<eos>" = (-1)%Z
                 ∧ ∀ before after, t ≠ before +:+ "<eos>" +:+ after)
      (stream_until_eos "<eos>" ["Hel"; "lo<eos>junk"; "more"])
  ∧ stream_until_eos "<eos>"
      (stream_until_eos "<eos>" ["Hel"; "lo<eos>junk"; "more"])
    = stream_until_eos "<eos>" ["Hel"; "lo<eos>junk"; "more"].
Proof.
  split; [reflexivity|].
  apply (yielded_fragments_are_marker_free "<eos>"
           ["Hel"; "lo<eos>junk"; "more"]).
  discriminate.
Defined.

Lemma qwen_message_by_role_witness :
  qwen_message_of system_two_parts
  = Ok {| q_role := "system";
          q_content := [QText (Some "Be terse.Be kind.")] |}
  ∧ qwen_message_of assistant_image_only = Raise TypeError.
Proof.
  split.
  - apply (proj1 (proj2 (qwen_message_by_role system_two_parts
                           [Text "Be terse."; Text "Be kind."] eq_refl))
             ltac:(discriminate) ["Be terse."; "Be kind."]).
    by repeat constructor.
  - apply (proj1 (qwen_message_by_role assistant_image_only
                    [ImageRef "data:,a"] eq_refl));
      [discriminate | by repeat constructor].
Defined.

Lemma join_int_lists_can_be_split_witness :
  join_int_lists [[1; 2]; []; [3]]%Z 0%Z = [1; 2; 0; 0; 3]%Z
  ∧ split_on 0%Z (join_int_lists [[1; 2]; []; [3]]%Z 0%Z)
    = [[1; 2]; []; [3]]%Z.
Proof.
  split; [reflexivity|].
  apply (join_int_lists_can_be_split [[1; 2]; []; [3]]%Z 0%Z);
    [discriminate|].
  repeat constructor; by apply (bool_decide_unpack _).
Defined.

Lemma guess_backend_by_keyword_witness :
  contains (fixture_lower "THUDM/CogVLM2-Llama3-chat-19B") "cogvlm" = true
  ∧ ∃ backend,
      backend ∈ keyword_backends
      ∧ (∀ AutoConfig_model_type trust_remote_code,
           guess_backend fixture_lower AutoConfig_model_type
             "THUDM/CogVLM2-Llama3-chat-19B" trust_remote_code = Ok backend)
      ∧ (contains (fixture_lower "THUDM/CogVLM2-Llama3-chat-19B") "cogvlm2"
         = true → backend ≠ "cogvlm").
Proof.
  split; [reflexivity|].
  apply (guess_backend_by_keyword fixture_lower
           "THUDM/CogVLM2-Llama3-chat-19B").
  apply Exists_exists. exists "cogvlm2". split; [|reflexivity].
  by apply (bool_decide_unpack _).
Defined.

Lemma temporary_file_suffix_follows_media_type_witness :
  url_to_file fixture_DataURI fixture_requests_get_response fixture_mkstemp
    fixture_os_write "data:video/quicktime;base64,AAAA" []
  = ([("/tmp/tmp0.mp4", ""); ("/tmp/tmp0.mp4", "data:video/quicktime;base64,AAAA")],
     Ok "/tmp/tmp0.mp4")
  ∧ ∃ mimetype data fd w1,
      (if startswith "data:video/quicktime;base64,AAAA" "data:"
       then fixture_DataURI "data:video/quicktime;base64,AAAA"
            = Ok (mimetype, data)
       else ∃ content_type,
              fixture_requests_get_response "data:video/quicktime;base64,AAAA"
              = Ok (content_type, data)
              ∧ mimetype = default "image/png" content_type)
      ∧ fixture_mkstemp (extension mimetype) [] = (w1, Ok (fd, "/tmp/tmp0.mp4"))
      ∧ fixture_os_write fd data w1
        = ([("/tmp/tmp0.mp4", "");
            ("/tmp/tmp0.mp4", "data:video/quicktime;base64,AAAA")], Ok ())
      ∧ extension mimetype ∈ image_extensions ++ video_extensions
      ∧ (extension mimetype ∈ video_extensions
         ↔ contains mimetype "video/" = true).
Proof.
  split; [reflexivity|].
  apply (temporary_file_suffix_follows_media_type fixture_DataURI
           fixture_requests_get_response fixture_mkstemp fixture_os_write
           "data:video/quicktime;base64,AAAA" []).
  reflexivity.
Defined.

Lemma guess_model_format_passes_witness :
  guess_model_format fixture_lower "liuhaotian/llava-v1.6-34b" = "chatml"
  ∧ guess_model_format fixture_lower "Qwen/Qwen-VL-Chat" = "vicuna".
Proof.
  split.
  - apply (proj1 (proj2 (guess_model_format_passes fixture_lower
                           "liuhaotian/llava-v1.6-34b"))).
    + repeat constructor; discriminate.
    + apply Exists_exists. exists "34b". split; [|reflexivity].
      by apply (bool_decide_unpack _).
  - apply (proj1 (guess_model_format_passes fixture_lower
                    "Qwen/Qwen-VL-Chat")).
    repeat constructor.
Defined.

Lemma qwen_loading_parameters_witness :
  ∃ self,
    qwen_init (λ _ : (), true) true false true fixture_lower
      (λ _, Ok ()) (λ _, Ok ()) "Qwen/Qwen2.5-VL-7B-Instruct-AWQ" "auto"
      "auto" ∅ None = inr self
    ∧ Base.device (base self) = "cuda"
    ∧ Base.dtype (base self) = float16
    ∧ Base.params (base self) !! "trust_remote_code" = None
    ∧ Base.params (base self) !! "torch_dtype" = Some (ParamDtype float16)
    ∧ Base.format (base self) = None.
Proof.
  eexists. split; [reflexivity|].
  split; [reflexivity|]. split; [reflexivity|].
  pose proof (proj2 (qwen_loading_parameters (λ _ : (), true) true false true
                       fixture_lower (λ _, Ok ()) (λ _, Ok ())
                       "Qwen/Qwen2.5-VL-7B-Instruct-AWQ" "auto" "auto" ∅
                       None) _ eq_refl)
    as (_ & _ & Htrust & Hdtype & _ & _ & _ & Hformat).
  split; [exact Htrust|]. split; [exact Hdtype|]. exact Hformat.
Defined.

Lemma generation_params_of_a_request_witness :
  get_generation_params (float := Z) (obj := ()) (Z.ltb 0)
    (λ x v, match v with PyFloat y => negb (x =? y)%Z | _ => true end)
    100%Z (fixture_request [user_hi] (Some 0%Z) None)
    (<["do_sample" := PyBool true]> (<["temperature" := PyFloat 70%Z]> ∅))
    !! "do_sample" = Some (PyBool true)
  ∧ get_generation_params (float := Z) (obj := ()) (Z.ltb 0)
      (λ x v, match v with PyFloat y => negb (x =? y)%Z | _ => true end)
      100%Z (fixture_request [user_hi] (Some 0%Z) None)
      (<["do_sample" := PyBool true]> (<["temperature" := PyFloat 70%Z]> ∅))
      !! "temperature" = Some (PyFloat 70%Z).
Proof.
  pose proof (generation_params_of_a_request (float := Z) (obj := ())
                (Z.ltb 0)
                (λ x v, match v with
                        | PyFloat y => negb (x =? y)%Z
                        | _ => true
                        end)
                100%Z (fixture_request [user_hi] (Some 0%Z) None)
                (<["do_sample" := PyBool true]>
                   (<["temperature" := PyFloat 70%Z]> ∅)))
    as (Hsample & Htemperature & _).
  split; [exact Hsample | exact Htemperature].
Defined.
